(** * NF2 field evaluation: batched evaluator, domain samplers, quality metrics

    Shallow embedding of [nf2/evaluation/output.py] (classes [BaseOutput],
    [CartesianOutput], [SphericalOutput]) and of the metric computation of
    [MetricsCallback.on_validation_epoch_end] in [nf2/train/callback.py].

    Conventions.
    - Python exceptions are values of [exn]; a computation that may raise
      returns a [result].
    - Array entries are idealised as real numbers ([R]): rounding is not
      modelled.  The metrics of [callback.py] divide by quantities that can
      be zero, so they are embedded over [fnum], reals extended with the
      IEEE special values.
    - An array whose trailing axis has size 3 is an [array3]: its leading
      shape and its rows in C order.
    - Arrays are lists of any length: the limits of memory and of numpy's
      index type are not modelled.
    - torch's ambient gradient mode, the calls made on the model and the
      [Quantity] objects shared with the caller live in a [world] that is
      threaded through the methods. *)

From Stdlib Require Import Reals Lra Lia ZArith List.
From stdpp Require Import base option list gmap strings.

Set Default Proof Using "Type".

(* ===================================================================== *)
(** ** Python results and exceptions *)

Module Py.

Inductive exn : Type :=
| ZeroDivisionError
| RuntimeError
| ValueError
| TypeError
| KeyError
| AttributeError
| AssertionError.

Inductive result (A : Type) : Type :=
| Ok (a : A)
| Raise (e : exn).
Arguments Ok {A} a.
Arguments Raise {A} e.

Definition is_ok {A} (r : result A) : bool :=
  match r with Ok _ => true | Raise _ => false end.

End Py.
Import Py.

(* ===================================================================== *)
(** ** Scalars, 3-vectors and arrays whose last axis has size 3 *)

Definition vec3 : Type := (R * R * R)%type.

Definition vmap (f : R → R) (v : vec3) : vec3 :=
  let '(x, y, z) := v in (f x, f y, f z).

Definition vzero : vec3 := (0, 0, 0)%R.

(** [prod(shape)]. *)
Definition numel (s : list nat) : nat := fold_right Nat.mul 1 s.

Record array3 : Type := mk_array3 {
  lead : list nat;      (* shape without the trailing axis *)
  cells : list vec3     (* rows, C order *)
}.

(** [a.shape] *)
Definition shape (a : array3) : list nat := lead a ++ [3].

(** Every numpy or torch array satisfies this. *)
Definition wf (a : array3) : Prop := length (cells a) = numel (lead a).

(** Elementwise arithmetic with a scalar. *)
Definition amap (f : R → R) (a : array3) : array3 :=
  mk_array3 (lead a) (map (vmap f) (cells a)).

(** [a.reshape((-1, 3))]: the rows, as an [(n, 3)] array. *)
Definition reshape_rows (a : array3) : list vec3 := cells a.

(** [t.reshape] of a row list [t] to a target shape [s ++ [3]];
    torch and numpy raise when the sizes differ. *)
Definition reshape (rows : list vec3) (s : list nat) : result array3 :=
  if decide (length rows = numel s) then Ok (mk_array3 s rows)
  else Raise RuntimeError.

(** [a.reshape(s + (3,))] on an array. *)
Definition areshape (a : array3) (s : list nat) : result array3 :=
  reshape (cells a) s.

(** [torch.cat(ts)] along axis 0; an empty list of tensors is refused
    with a [ValueError]. *)
Definition cat (ts : list (list vec3)) : result (list vec3) :=
  match ts with
  | [] => Raise ValueError
  | _ => Ok (concat ts)
  end.

(** Python's reading of a slice bound against a length: a negative bound
    counts from the end, and the result is clamped to [0, len]. *)
Definition slice_bound (len i : Z) : Z :=
  if decide (i < 0)%Z then Z.max 0 (i + len) else Z.min i len.

(** [l[i:j]] *)
Definition slice {A} (l : list A) (i j : Z) : list A :=
  let len := Z.of_nat (length l) in
  let lo := slice_bound len i in
  let hi := slice_bound len j in
  firstn (Z.to_nat (hi - lo)) (skipn (Z.to_nat lo) l).

(** [int(np.ceil(n / b))] for integers [n], [b]; true division by zero
    raises. *)
Definition ceil_div (n b : Z) : result Z :=
  if decide (b = 0%Z) then Raise ZeroDivisionError
  else Ok (- ((- n) / b))%Z.

(** [range(n)] *)
Definition range (n : Z) : list nat := seq 0 (Z.to_nat n).

(* ===================================================================== *)
(** ** Units and quantities (astropy) *)

(** A unit is a monomial in gauss, metre and second. *)
Record physunit : Type := mk_unit { G_exp : Z; m_exp : Z; s_exp : Z }.

Definition u_one : physunit := mk_unit 0 0 0.
Definition u_G : physunit := mk_unit 1 0 0.
Definition u_m : physunit := mk_unit 0 1 0.
Definition u_s : physunit := mk_unit 0 0 1.

Definition unit_mul (u v : physunit) : physunit :=
  mk_unit (G_exp u + G_exp v) (m_exp u + m_exp v) (s_exp u + s_exp v).
Definition unit_div (u v : physunit) : physunit :=
  mk_unit (G_exp u - G_exp v) (m_exp u - m_exp v) (s_exp u - s_exp v).

(** A scalar [Quantity]. *)
Record quantity : Type := mk_quantity { qvalue : R; qunit : physunit }.

(** An array [Quantity] with trailing axis 3. *)
Record aquantity : Type := mk_aquantity { avalue : array3; aunit : physunit }.

(** [a * q] and [a / q] for a quantity [q]. *)
Definition aq_mul (a : aquantity) (q : quantity) : aquantity :=
  mk_aquantity (amap (λ x, x * qvalue q)%R (avalue a)) (unit_mul (aunit a) (qunit q)).
Definition aq_div (a : aquantity) (q : quantity) : aquantity :=
  mk_aquantity (amap (λ x, x / qvalue q)%R (avalue a)) (unit_div (aunit a) (qunit q)).

(** [a * x] and [a / x] for a plain number [x]. *)
Definition aq_scale (a : aquantity) (x : R) : aquantity :=
  mk_aquantity (amap (λ y, y * x)%R (avalue a)) (aunit a).
Definition aq_unscale (a : aquantity) (x : R) : aquantity :=
  mk_aquantity (amap (λ y, y / x)%R (avalue a)) (aunit a).

(** [a * u] and [a / u] for a bare unit [u]: the value is untouched. *)
Definition aq_mul_unit (a : aquantity) (u : physunit) : aquantity :=
  mk_aquantity (avalue a) (unit_mul (aunit a) u).
Definition aq_div_unit (a : aquantity) (u : physunit) : aquantity :=
  mk_aquantity (avalue a) (unit_div (aunit a) u).

(** A plain array seen as a dimensionless quantity. *)
Definition plain (a : array3) : aquantity := mk_aquantity a u_one.

(** Values stored in the dictionaries the methods return. *)
Inductive pyval : Type :=
| VQuantity (q : aquantity)
| VArray (a : array3)
| VFloat (x : R)
| VNone.

(* ===================================================================== *)
(** ** The world: gradient mode, model calls, shared objects *)

(** What the evaluator does to the model. *)
Inductive event : Type :=
| ZeroGrad
    (* [self.model.zero_grad()] *)
| Forward (grad_mode : bool) (input_requires_grad : bool) (n : nat).
    (* [self.model(coord)] on [n] points, with the gradient mode and the
       [requires_grad] flag of [coord] at the time of the call *)

(** Address of a two-element [Quantity] array shared with the caller. *)
Definition loc : Type := nat.

Record world : Type := mk_world {
  grad_enabled : bool;            (* [torch.is_grad_enabled()] *)
  trace : list event;             (* oldest first *)
  heap : gmap loc (R * R)         (* two-element Quantity arrays *)
}.

Definition M (A : Type) : Type := world → result A * world.

Definition ret {A} (a : A) : M A := λ w, (Ok a, w).

Definition bind {A B} (m : M A) (k : A → M B) : M B :=
  λ w, match m w with
       | (Ok a, w') => k a w'
       | (Raise e, w') => (Raise e, w')
       end.

Definition lift {A} (r : result A) : M A := λ w, (r, w).

Definition raise {A} (e : exn) : M A := lift (Raise e).

Declare Scope py_scope.
Delimit Scope py_scope with py.
Notation "'let*' x ':=' m 'in' k" := (bind m (λ x, k))
  (at level 10, x pattern, m at level 100, k at level 200)
  : py_scope.
Local Open Scope py_scope.

Definition emit (e : event) : M unit :=
  λ w, (Ok (), mk_world (grad_enabled w) (trace w ++ [e]) (heap w)).

Definition is_grad_enabled : M bool := λ w, (Ok (grad_enabled w), w).

Definition set_grad_enabled (g : bool) : M unit :=
  λ w, (Ok (), mk_world g (trace w) (heap w)).

(** [with torch.no_grad(): body]: the previous mode is restored on exit,
    also when [body] raises. *)
Definition no_grad {A} (body : M A) : M A :=
  λ w, let prev := grad_enabled w in
       let '(r, w') := body (mk_world false (trace w) (heap w)) in
       (r, mk_world prev (trace w') (heap w')).

(* ===================================================================== *)
(** ** The field model (external collaborator) *)

Inductive model_class : Type := BModel | VectorPotentialModel | FluxModel.

#[global] Instance model_class_eq_dec : EqDecision model_class.
Proof. solve_decision. Defined.

(** Jacobian of the field at a point: row [k] is the gradient of [B_k]. *)
Definition mat3 : Type := (vec3 * vec3 * vec3)%type.

(** What the model yields for one point: the field, and the derivative of
    the field with respect to the point, which autograd can extract when
    the call was tracked. *)
Record field_sample : Type := mk_sample { sample_b : vec3; sample_jac : mat3 }.

Record Model : Type := mk_model {
  class_of : model_class;
  forward : list vec3 → list field_sample
}.

(** The result of [self.model(coord)]: field rows, and whether the graph
    from [coord] to them was recorded. *)
Record model_result : Type := mk_model_result {
  samples : list field_sample;
  tracked : bool
}.

Definition result_b (r : model_result) : list vec3 := map sample_b (samples r).

(** Modelled from the spec: [calculate_current] of [nf2.train.model] is
    not part of the sources at hand.  The current density is the curl of
    the field, [J_i = eps_ijk dB_k/dx_j], taken per point from the Jacobian
    of the model output with respect to its coordinate input; torch's
    autograd raises when that output was computed without tracking. *)
Definition curl (j : mat3) : vec3 :=
  let '((bxx, bxy, bxz), (byx, byy, byz), (bzx, bzy, bzz)) := j in
  (bzy - byz, bxz - bzx, byx - bxy)%R.

(** Modelled from the spec: [calculate_current b_batch coord], the curl of
    each row, available when the call that produced [b_batch] was tracked. *)
Definition calculate_current (r : model_result) : result (list vec3) :=
  if tracked r then Ok (map (λ s, curl (sample_jac s)) (samples r))
  else Raise RuntimeError.

(* ===================================================================== *)
(** ** [BaseOutput] *)

(** [state['data']] of a checkpoint. *)
Record state_data : Type := mk_state_data {
  data_G_per_dB : R;
  data_Mm_per_ds : R;
  data_type : string;
  data_coord_range : (R * R) * (R * R) * (R * R);   (* cartesian data *)
  data_ds_per_pixel : R;                            (* cartesian data *)
  data_radius_range : R * R                         (* spherical data, solRad *)
}.

Record checkpoint : Type := mk_checkpoint {
  state_model : Model;
  state_data_of : state_data
}.

Record BaseOutput : Type := mk_BaseOutput {
  state : checkpoint;
  _requires_grad : bool;
  model : Model;
  spatial_norm : R;
  c : R
}.

(** [isinstance(model, cls)] *)
Definition isinstance (m : Model) (cls : model_class) : bool :=
  bool_decide (class_of m = cls).

(** [BaseOutput.__init__].  [nn.DataParallel] only distributes the forward
    pass, so [self.model] is the model of the checkpoint either way;
    [constants.c] in m/s is 299792458. *)
Definition BaseOutput__init__ (ckpt : checkpoint) : BaseOutput :=
  let model := state_model ckpt in
  {| state := ckpt;
     _requires_grad := isinstance model VectorPotentialModel || isinstance model FluxModel;
     model := model;
     spatial_norm := 1;
     c := 299792458 |}.

(** [self.G_per_dB] *)
Definition G_per_dB (self : BaseOutput) : quantity :=
  mk_quantity (data_G_per_dB (state_data_of (state self))) u_G.

(** [self.m_per_ds]: [(Mm_per_ds * u.Mm).to(u.m)] *)
Definition m_per_ds (self : BaseOutput) : quantity :=
  mk_quantity (data_Mm_per_ds (state_data_of (state self)) * 1000000) u_m.

(** [self.model(coord)] with [coord.requires_grad = requires_grad]. *)
Definition call_model (self : BaseOutput) (coord : list vec3) (requires_grad : bool)
  : M model_result :=
  let* g := is_grad_enabled in
  let* _ := emit (Forward g requires_grad (length coord)) in
  ret (mk_model_result (forward (model self) coord) (g && requires_grad)).

(** The body of [for k in it] in [_load], with the accumulators [cube] and
    [j_cube]. *)
Fixpoint load_batches (self : BaseOutput) (batch_size : Z) (compute_currents : bool)
    (coords : list vec3) (it : list nat) (cube j_cube : list (list vec3))
  : M (list (list vec3) * list (list vec3)) :=
  match it with
  | [] => ret (cube, j_cube)
  | k :: it' =>
      let* _ := emit ZeroGrad in
      let coord := slice coords (Z.of_nat k * batch_size) ((Z.of_nat k + 1) * batch_size) in
      let* result := call_model self coord true in
      let b_batch := result_b result in
      let* j_cube :=
        (if compute_currents
         then let* j_batch := lift (calculate_current result) in
              ret (j_cube ++ [j_batch])
         else ret j_cube) in
      load_batches self batch_size compute_currents coords it' (cube ++ [b_batch]) j_cube
  end.

(** The inner function [_load] of [load_coords]. *)
Definition _load (self : BaseOutput) (batch_size : Z) (progress compute_currents : bool)
    (coords : array3) : M (gmap string pyval) :=
  let coords := amap (λ x, x / spatial_norm self)%R coords in
  let coords_shape := lead coords in
  let coords := reshape_rows coords in
  let* n := lift (ceil_div (Z.of_nat (length coords)) batch_size) in
  let it := range n in
  let* (cube, j_cube) :=
    load_batches self batch_size compute_currents coords it [] [] in
  let* cube := lift (cat cube) in
  let* cube := lift (reshape cube coords_shape) in
  let b := aq_mul (plain cube) (G_per_dB self) in
  let model_out : gmap string pyval := {[ "B" := VQuantity b ]} in
  if compute_currents then
    let* j_cube := lift (cat j_cube) in
    let* j_cube := lift (reshape j_cube coords_shape) in
    let j := aq_unscale
               (aq_scale (aq_div (aq_mul (plain j_cube) (G_per_dB self)) (m_per_ds self))
                         (c self))
               (4 * PI) in
    ret (<[ "J" := VQuantity (aq_div_unit (aq_mul_unit j u_G) u_s) ]> model_out)
  else ret model_out.

(** [BaseOutput.load_coords] *)
Definition load_coords (self : BaseOutput) (coords : array3)
    (batch_size : Z) (progress compute_currents : bool) : M (gmap string pyval) :=
  if compute_currents || _requires_grad self
  then _load self batch_size progress compute_currents coords
  else no_grad (_load self batch_size progress compute_currents coords).

(** Default of [batch_size]: [int(2 ** 12)]. *)
Definition default_batch_size : Z := 2 ^ 12.

(* ===================================================================== *)
(** ** numpy helpers used by the samplers *)

#[global] Instance R_eq_dec : EqDecision R := Req_dec_T.
#[global] Instance Rle_decision : RelDecision Rle := Rle_dec.
#[global] Instance Rlt_decision : RelDecision Rlt := Rlt_dec.
#[global] Instance Rge_decision : RelDecision Rge := Rge_dec.

(** [int(x)] on a float: truncation towards zero. *)
Definition py_int (x : R) : Z :=
  if decide (0 <= x)%R then Int_part x else (- Int_part (- x))%Z.

(** [x % p] on floats: the remainder of the floored quotient. *)
Definition py_mod (x p : R) : R := (x - IZR (Int_part (x / p)) * p)%R.

(** [a / b]; a zero divisor ends in an exception ([ZeroDivisionError] on
    Python floats; on numpy values the quotient is not finite and the
    [int] that follows raises). *)
Definition py_div (a b : R) : result R :=
  if decide (b = 0%R) then Raise ZeroDivisionError else Ok (a / b)%R.

(** [np.linspace(start, stop, num)]: [num] evenly spaced samples, both ends
    included; a negative [num] raises, [num = 0] gives an empty axis and
    [num = 1] gives [[start]]. *)
Definition linspace (start stop : R) (num : Z) : result (list R) :=
  if decide (num < 0)%Z then Raise ValueError
  else
    let step := ((stop - start) / (IZR num - 1))%R in
    Ok (map (λ i : nat, (start + INR i * step)%R) (seq 0 (Z.to_nat num))).

(** [np.stack(np.meshgrid(xs, ys, zs, indexing='ij'), -1)]: the lattice of
    shape [(len xs, len ys, len zs, 3)], last axis varying fastest. *)
Definition meshgrid_ij (xs ys zs : list R) : array3 :=
  mk_array3 [length xs; length ys; length zs]
    (flat_map (λ x, flat_map (λ y, map (λ z, (x, y, z)) zs) ys) xs).

(** [a[..., i].min()] and [.max()]; numpy refuses an empty array. *)
Definition amin (l : list R) : result R :=
  match l with
  | [] => Raise ValueError
  | x :: l' => Ok (fold_left Rmin l' x)
  end.
Definition amax (l : list R) : result R :=
  match l with
  | [] => Raise ValueError
  | x :: l' => Ok (fold_left Rmax l' x)
  end.

Definition comp0 (v : vec3) : R := let '(x, _, _) := v in x.
Definition comp1 (v : vec3) : R := let '(_, y, _) := v in y.
Definition comp2 (v : vec3) : R := let '(_, _, z) := v in z.

(** [a[condition]]: the rows selected by a boolean mask, in order. *)
Fixpoint mask_select {A} (rows : list A) (condition : list bool) : list A :=
  match rows, condition with
  | r :: rows', m :: condition' =>
      if m then r :: mask_select rows' condition' else mask_select rows' condition'
  | _, _ => []
  end.

(** [condition.sum()] *)
Definition mask_count (condition : list bool) : nat :=
  length (filter (λ m, m = true) condition).

(** Writes [vals], in order, into the selected rows of [dense]. *)
Fixpoint scatter {A} (dense : list A) (condition : list bool) (vals : list A) : list A :=
  match dense, condition with
  | d :: dense', m :: condition' =>
      if m then
        match vals with
        | v :: vals' => v :: scatter dense' condition' vals'
        | [] => d :: scatter dense' condition' []
        end
      else d :: scatter dense' condition' vals
  | _, _ => dense
  end.

(** [dense[condition] = vals]: [vals] has one row per selected cell, or a
    single row that is broadcast; anything else raises. *)
Definition mask_assign {A} (dense : list A) (condition : list bool) (vals : list A)
  : result (list A) :=
  if decide (length vals = mask_count condition) then Ok (scatter dense condition vals)
  else match vals with
       | [v] => Ok (scatter dense condition (replicate (mask_count condition) v))
       | _ => Raise ValueError
       end.

(** [np.zeros(s + (3,))] *)
Definition zeros (s : list nat) : array3 := mk_array3 s (replicate (numel s) vzero).

(* ===================================================================== *)
(** ** Coordinate transforms of [nf2.data.util] *)

(** Modelled from the spec: [spherical_to_cartesian] of [nf2.data.util] is
    not part of the sources at hand.  The point with radius [r], polar
    angle [t] measured from the positive z axis and azimuth [p]. *)
Definition spherical_to_cartesian (v : vec3) : vec3 :=
  let '(r, t, p) := v in
  (r * sin t * cos p, r * sin t * sin p, r * cos t)%R.

(** Modelled from the spec: [cartesian_to_spherical] of [nf2.data.util] is
    not part of the sources at hand.  Radius, polar angle in [0, pi]
    measured from the positive z axis, azimuth wrapped to [0, 2 pi). *)
Definition cartesian_to_spherical (v : vec3) : vec3 :=
  let '(x, y, z) := v in
  let r := sqrt (x * x + y * y + z * z) in
  let rho := sqrt (x * x + y * y) in
  let t := acos (z / r) in
  let p := if decide (rho = 0)%R then 0%R
           else if decide (0 <= y)%R then acos (x / rho)
           else (2 * PI - acos (x / rho))%R in
  (r, t, p).

(** Modelled from the spec: [vector_cartesian_to_spherical] of
    [nf2.data.util] is not part of the sources at hand.  The rotation of a
    vector [v] into the local (radial, polar, azimuthal) basis at the point
    with spherical coordinates [at_point]. *)
Definition vector_cartesian_to_spherical (v at_point : vec3) : vec3 :=
  let '(vx, vy, vz) := v in
  let '(_, t, p) := at_point in
  (vx * sin t * cos p + vy * sin t * sin p + vz * cos t,
   vx * cos t * cos p + vy * cos t * sin p - vz * sin t,
   - vx * sin p + vy * cos p)%R.

(* ===================================================================== *)
(** ** Keyword arguments forwarded to [load_coords] *)

Inductive kwval : Type := KInt (n : Z) | KBool (b : bool).

(** [bool] is a subclass of [int]. *)
Definition kw_int (v : kwval) : Z :=
  match v with KInt n => n | KBool b => if b then 1%Z else 0%Z end.
Definition kw_truth (v : kwval) : bool :=
  match v with KInt n => negb (n =? 0)%Z | KBool b => b end.

(** [self.load_coords(coords, compute_currents=cc, **kwargs)]: a keyword
    given twice, or one that [load_coords] does not have, is a
    [TypeError]; the others default. *)
Definition load_coords_kw (self : BaseOutput) (coords : array3)
    (compute_currents : bool) (kwargs : gmap string kwval) : M (gmap string pyval) :=
  if decide ("compute_currents" ∈ dom kwargs) then raise TypeError
  else if decide (dom kwargs ⊆ ({[ "batch_size"; "progress" ]} : gset string)) then
    load_coords self coords
      (default default_batch_size (kw_int <$> kwargs !! "batch_size"))
      (default false (kw_truth <$> kwargs !! "progress"))
      compute_currents
  else raise TypeError.

(** [d[key]] followed by [.reshape(s + (3,))] on the quantity found. *)
Definition getitem (d : gmap string pyval) (key : string) : result pyval :=
  match d !! key with
  | Some v => Ok v
  | None => Raise KeyError
  end.

Definition as_quantity (v : pyval) : result aquantity :=
  match v with
  | VQuantity q => Ok q
  | _ => Raise AttributeError
  end.

Definition res_bind {A B} (r : result A) (k : A → result B) : result B :=
  match r with Ok a => k a | Raise e => Raise e end.

Definition qreshape (q : aquantity) (s : list nat) : result aquantity :=
  res_bind (areshape (avalue q) s) (λ a, Ok (mk_aquantity a (aunit q))).

(** The number of samples the samplers ask [np.linspace] for along an axis:
    [int((hi - lo) * points_per_unit)]. *)
Definition axis_num (lo hi points_per_unit : R) : Z :=
  py_int ((hi - lo) * points_per_unit).

(** The lattice both samplers build from a box and a resolution. *)
Definition box_lattice (xr yr zr : R * R) (points_per_unit : R) : result array3 :=
  res_bind (linspace xr.1 xr.2 (axis_num xr.1 xr.2 points_per_unit)) (λ xs,
  res_bind (linspace yr.1 yr.2 (axis_num yr.1 yr.2 points_per_unit)) (λ ys,
  res_bind (linspace zr.1 zr.2 (axis_num zr.1 zr.2 points_per_unit)) (λ zs,
  Ok (meshgrid_ij xs ys zs)))).

(* ===================================================================== *)
(** ** [CartesianOutput] *)

Record CartesianOutput : Type := mk_CartesianOutput {
  cart_base : BaseOutput;
  coord_range : (R * R) * (R * R) * (R * R);
  ds_per_pixel : R;
  Mm_per_ds : R;
  Mm_per_pixel : R
}.

Definition CartesianOutput__init__ (ckpt : checkpoint) : CartesianOutput :=
  let base := BaseOutput__init__ ckpt in
  let d := state_data_of ckpt in
  {| cart_base := base;
     coord_range := data_coord_range d;
     ds_per_pixel := data_ds_per_pixel d;
     Mm_per_ds := data_Mm_per_ds d;
     Mm_per_pixel := (data_ds_per_pixel d * data_Mm_per_ds d)%R |}.

(** [self.coord_range[2] if height_range is None else height_range / self.Mm_per_ds] *)
Definition cube_z_range (self : CartesianOutput) (height_range : option (R * R))
  : result (R * R) :=
  match height_range with
  | None => Ok (coord_range self).2
  | Some (h0, h1) =>
      res_bind (py_div h0 (Mm_per_ds self)) (λ z0,
      res_bind (py_div h1 (Mm_per_ds self)) (λ z1, Ok (z0, z1)))
  end.

(** [1 / self.ds_per_pixel if Mm_per_pixel is None else self.Mm_per_ds / Mm_per_pixel] *)
Definition cube_pixel_per_ds (self : CartesianOutput) (Mm_per_pixel : option R)
  : result R :=
  match Mm_per_pixel with
  | None => py_div 1 (ds_per_pixel self)
  | Some mpp => py_div (Mm_per_ds self) mpp
  end.

(** [CartesianOutput.load_cube(height_range, Mm_per_pixel, **kwargs)] *)
Definition load_cube (self : CartesianOutput) (height_range : option (R * R))
    (Mm_per_pixel : option R) (kwargs : gmap string kwval) : M (gmap string pyval) :=
  let xr := (coord_range self).1.1 in
  let yr := (coord_range self).1.2 in
  let* zr := lift (cube_z_range self height_range) in
  let* pixel_per_ds := lift (cube_pixel_per_ds self Mm_per_pixel) in
  let* coords := lift (box_lattice xr yr zr pixel_per_ds) in
  let cube_shape := lead coords in
  let flat := mk_array3 [length (cells coords)] (cells coords) in
  let* model_out := load_coords_kw (cart_base self) flat true kwargs in
  let* b := lift (res_bind (res_bind (getitem model_out "B") as_quantity)
                           (λ q, qreshape q cube_shape)) in
  let* j := lift (res_bind (res_bind (getitem model_out "J") as_quantity)
                           (λ q, qreshape q cube_shape)) in
  ret ({[ "B" := VQuantity b; "J" := VQuantity j; "coords" := VArray coords;
          "Mm_per_pixel" := from_option VFloat VNone Mm_per_pixel ]} : gmap string pyval).

(* ===================================================================== *)
(** ** [SphericalOutput] *)

Record SphericalOutput : Type := mk_SphericalOutput {
  sph_base : BaseOutput;
  radius_range : R * R
}.

Definition SphericalOutput__init__ (ckpt : checkpoint) : result SphericalOutput :=
  let base := BaseOutput__init__ ckpt in
  if decide (data_type (state_data_of ckpt) = "spherical")
  then Ok {| sph_base := base; radius_range := data_radius_range (state_data_of ckpt) |}
  else Raise AssertionError.

(** The [Quantity] that the default of [latitude_range] in
    [load_spherical] evaluates to, once, when the method is defined. *)
Definition load_spherical_default_latitude_range : loc := 0%nat.

(** [heap[l]] *)
Definition deref (l : loc) : M (R * R) :=
  λ w, match heap w !! l with
       | Some v => (Ok v, w)
       | None => (Raise RuntimeError, w)
       end.

(** [obj += x] on the array at [l]: the array is updated in place. *)
Definition iadd (l : loc) (x : R) : M unit :=
  λ w, match heap w !! l with
       | Some (a, b) =>
           (Ok (), mk_world (grad_enabled w) (trace w)
                            (<[ l := ((a + x)%R, (b + x)%R) ]> (heap w)))
       | None => (Raise RuntimeError, w)
       end.

(** [SphericalOutput.load_spherical].  [latitude_range] is a reference to
    the caller's array, [None] standing for an omitted argument; an omitted
    [longitude_range] is the default tuple of plain numbers, on which
    [.to_value] does not exist. *)
Definition load_spherical (self : SphericalOutput) (radius_range_arg : option (R * R))
    (latitude_range : option loc) (longitude_range : option (R * R))
    (sampling : Z * Z * Z) (kwargs : gmap string kwval) : M (gmap string pyval) :=
  let latitude_range := default load_spherical_default_latitude_range latitude_range in
  let radius_range := default (radius_range self) radius_range_arg in
  let* _ := iadd latitude_range (PI / 2) in
  let '(s0, s1, s2) := sampling in
  let* rs := lift (linspace radius_range.1 radius_range.2 s0) in
  let* lat := deref latitude_range in
  let* ts := lift (linspace lat.1 lat.2 s1) in
  let* lon := lift (from_option Ok (Raise AttributeError) longitude_range) in
  let* ps := lift (linspace lon.1 lon.2 s2) in
  let spherical_coords := meshgrid_ij rs ts ps in
  let cartesian_coords :=
    mk_array3 (lead spherical_coords) (map spherical_to_cartesian (cells spherical_coords)) in
  let* model_out := load_coords_kw (sph_base self) cartesian_coords true kwargs in
  let* b := lift (getitem model_out "B") in
  ret ({[ "B" := b; "coords" := VArray cartesian_coords ]} : gmap string pyval).

(** The wrap of a latitude and of a longitude before comparison. *)
Definition wrap_lat (t : R) : R := py_mod t PI.
Definition wrap_lon (p : R) : R := py_mod p (2 * PI).

(** One entry of [condition] in [load], for a lattice point with spherical
    coordinates [sc]. *)
Definition in_window (radius_range latitude_range longitude_range : R * R) (sc : vec3)
  : bool :=
  let '(r, t, p) := sc in
  let lat_coord := wrap_lat t in
  let lon_coord := wrap_lon p in
  let rad_coord := r in
  let min_lat := wrap_lat latitude_range.1 in
  let max_lat := wrap_lat latitude_range.2 in
  let min_lon := wrap_lon longitude_range.1 in
  let max_lon := wrap_lon longitude_range.2 in
  bool_decide (rad_coord >= radius_range.1)%R && bool_decide (rad_coord < radius_range.2)%R
  && bool_decide (lat_coord >= min_lat)%R && bool_decide (lat_coord < max_lat)%R
  && bool_decide (lon_coord >= min_lon)%R && bool_decide (lon_coord < max_lon)%R.

(** The dense lattice of [load] and the spherical coordinates of its
    points: the bounding box of a 50 x 50 x 50 sampling of the window. *)
Definition load_lattice (radius_range latitude_range longitude_range : R * R) (res : R)
  : result array3 :=
  res_bind (linspace radius_range.1 radius_range.2 50) (λ rs,
  res_bind (linspace latitude_range.1 latitude_range.2 50) (λ ts,
  res_bind (linspace longitude_range.1 longitude_range.2 50) (λ ps,
  let spherical_bounds := meshgrid_ij rs ts ps in
  let cartesian_bounds := map spherical_to_cartesian (cells spherical_bounds) in
  res_bind (amin (map comp0 cartesian_bounds)) (λ x_min,
  res_bind (amax (map comp0 cartesian_bounds)) (λ x_max,
  res_bind (amin (map comp1 cartesian_bounds)) (λ y_min,
  res_bind (amax (map comp1 cartesian_bounds)) (λ y_max,
  res_bind (amin (map comp2 cartesian_bounds)) (λ z_min,
  res_bind (amax (map comp2 cartesian_bounds)) (λ z_max,
  box_lattice (x_min, x_max) (y_min, y_max) (z_min, z_max) res))))))))).

(** [zeros * unit], then [dense[condition] = sub]. *)
Definition fill_dense (cube_shape : list nat) (condition : list bool) (sub : aquantity)
  : result aquantity :=
  let dense := mk_aquantity (zeros cube_shape) (aunit sub) in
  res_bind (mask_assign (cells (avalue dense)) condition (cells (avalue sub))) (λ rows,
  Ok (mk_aquantity (mk_array3 cube_shape rows) (aunit dense))).

(** The part of [load] that follows the construction of the lattice
    [coords]: the mask, the evaluation of the selected points, the dense
    fill and the rotation. *)
Definition load_masked (self : SphericalOutput)
    (radius_range latitude_range longitude_range : R * R) (coords : array3)
    (kwargs : gmap string kwval) : M (gmap string pyval) :=
  let spherical_coords :=
    mk_array3 (lead coords) (map cartesian_to_spherical (cells coords)) in
  let condition :=
    map (in_window radius_range latitude_range longitude_range) (cells spherical_coords) in
  let sub_rows := mask_select (cells coords) condition in
  let sub_coords := mk_array3 [length sub_rows] sub_rows in
  let cube_shape := lead coords in
  let* model_out := load_coords_kw (sph_base self) sub_coords true kwargs in
  let* sub_b := lift (res_bind (getitem model_out "B") as_quantity) in
  let* b := lift (fill_dense cube_shape condition sub_b) in
  let b_spherical :=
    mk_aquantity
      (mk_array3 (lead (avalue b))
         (zip_with vector_cartesian_to_spherical (cells (avalue b)) (cells spherical_coords)))
      (aunit b) in
  let* sub_j := lift (res_bind (getitem model_out "J") as_quantity) in
  let* j := lift (fill_dense cube_shape condition sub_j) in
  ret ({[ "B" := VQuantity b; "B_rtp" := VQuantity b_spherical; "J" := VQuantity j;
          "coords" := VArray coords; "spherical_coords" := VArray spherical_coords ]}
       : gmap string pyval).

(** [SphericalOutput.load].  [latitude_range] defaults to the quantity
    [(0, pi) rad]; an omitted [longitude_range] is the default tuple of
    plain numbers, on which [.to_value] does not exist; [resolution] is in
    pix / solRad and defaults to 64. *)
Definition load (self : SphericalOutput) (radius_range_arg : option (R * R))
    (latitude_range_arg : option (R * R)) (longitude_range : option (R * R))
    (resolution : option R) (kwargs : gmap string kwval) : M (gmap string pyval) :=
  let radius_range := default (radius_range self) radius_range_arg in
  let latitude_range := default (0, PI)%R latitude_range_arg in
  let* longitude_range := lift (from_option Ok (Raise AttributeError) longitude_range) in
  let res := default 64%R resolution in
  let* coords := lift (load_lattice radius_range latitude_range longitude_range res) in
  load_masked self radius_range latitude_range longitude_range coords kwargs.

(* ===================================================================== *)
(** ** Floating-point values with the IEEE special cases *)

(** A finite value (idealised as a real), an infinity, or not-a-number.
    Rounding, overflow and the sign of zero are not modelled. *)
Inductive fnum : Type := Fin (x : R) | PInf | NInf | NaN.

Module F.

Definition inf (positive : bool) : fnum := if positive then PInf else NInf.

Definition neg (a : fnum) : fnum :=
  match a with
  | Fin x => Fin (- x)
  | PInf => NInf
  | NInf => PInf
  | NaN => NaN
  end.

Definition add (a b : fnum) : fnum :=
  match a, b with
  | NaN, _ | _, NaN => NaN
  | Fin x, Fin y => Fin (x + y)
  | PInf, NInf | NInf, PInf => NaN
  | PInf, _ | _, PInf => PInf
  | NInf, _ | _, NInf => NInf
  end.

Definition sub (a b : fnum) : fnum := add a (neg b).

(** The product of an infinity of sign [positive] with the finite [x]. *)
Definition inf_times (positive : bool) (x : R) : fnum :=
  if decide (x = 0)%R then NaN
  else if decide (0 < x)%R then inf positive else inf (negb positive).

Definition mul (a b : fnum) : fnum :=
  match a, b with
  | NaN, _ | _, NaN => NaN
  | Fin x, Fin y => Fin (x * y)
  | PInf, Fin x | Fin x, PInf => inf_times true x
  | NInf, Fin x | Fin x, NInf => inf_times false x
  | PInf, PInf | NInf, NInf => PInf
  | PInf, NInf | NInf, PInf => NInf
  end.

Definition div (a b : fnum) : fnum :=
  match a, b with
  | NaN, _ | _, NaN => NaN
  | Fin x, Fin y =>
      if decide (y = 0)%R then
        (if decide (x = 0)%R then NaN else inf (bool_decide (0 < x)%R))
      else Fin (x / y)
  | Fin _, (PInf | NInf) => Fin 0
  | PInf, Fin y => inf (bool_decide (0 <= y)%R)
  | NInf, Fin y => inf (negb (bool_decide (0 <= y)%R))
  | (PInf | NInf), (PInf | NInf) => NaN
  end.

Definition sqrt (a : fnum) : fnum :=
  match a with
  | Fin x => if decide (x < 0)%R then NaN else Fin (R_sqrt.sqrt x)
  | PInf => PInf
  | NInf | NaN => NaN
  end.

(** [torch.clip(a, lo, hi)]: not-a-number passes through. *)
Definition clip (a : fnum) (lo hi : R) : fnum :=
  match a with
  | Fin x => Fin (Rmin (Rmax x lo) hi)
  | PInf => Fin hi
  | NInf => Fin lo
  | NaN => NaN
  end.

Definition arcsin (a : fnum) : fnum :=
  match a with
  | Fin x => if decide (-1 <= x <= 1)%R then Fin (asin x) else NaN
  | _ => NaN
  end.

Definition rad2deg (a : fnum) : fnum := mul a (Fin (180 / PI)).

(** [t.sum()] and [t.mean()] over all entries. *)
Definition sum (l : list fnum) : fnum := fold_left add l (Fin 0).
Definition mean (l : list fnum) : fnum := div (sum l) (Fin (INR (length l))).

End F.

Definition fvec3 : Type := (fnum * fnum * fnum)%type.

(** [t * s] and [t / s] for a row tensor and a number. *)
Definition fscale (s : fnum) (v : fvec3) : fvec3 :=
  let '(x, y, z) := v in (F.mul x s, F.mul y s, F.mul z s).
Definition funscale (s : fnum) (v : fvec3) : fvec3 :=
  let '(x, y, z) := v in (F.div x s, F.div y s, F.div z s).

(** [torch.norm(v, dim=-1)], also written [v.pow(2).sum(-1).pow(0.5)]. *)
Definition fnorm (v : fvec3) : fnum :=
  let '(x, y, z) := v in
  F.sqrt (F.add (F.add (F.mul x x) (F.mul y y)) (F.mul z z)).

(** [torch.cross(u, v, dim=-1)] *)
Definition fcross (u v : fvec3) : fvec3 :=
  let '(u1, u2, u3) := u in
  let '(v1, v2, v3) := v in
  (F.sub (F.mul u2 v3) (F.mul u3 v2),
   F.sub (F.mul u3 v1) (F.mul u1 v3),
   F.sub (F.mul u1 v2) (F.mul u2 v1)).

(* ===================================================================== *)
(** ** [MetricsCallback.on_validation_epoch_end] *)

Definition eps7 : R := (1 / 10000000)%R.

(** [theta_J], the current-weighted misalignment angle in degrees, from the
    scaled [b] and [j]. *)
Definition theta_J (b j : list fvec3) : fnum :=
  let norm := zip_with (λ bi ji, F.mul (fnorm bi) (fnorm ji)) b j in
  let sigma := zip_with (λ c n, F.div (fnorm c) n) (zip_with fcross j b) norm in
  let j_weight := map fnorm j in
  let angle := F.div (F.sum (zip_with F.mul sigma j_weight)) (F.sum j_weight) in
  let angle := F.clip angle (-1 + eps7) (1 - eps7) in
  let theta_J := F.arcsin angle in
  F.rad2deg theta_J.

Definition sigma_J (b j : list fvec3) : fnum :=
  F.div (F.sum (zip_with (λ c bi, F.div (fnorm c) (F.add (fnorm bi) (Fin eps7)))
                         (zip_with fcross j b) b))
        (F.add (F.sum (map fnorm j)) (Fin eps7)).

(** [b_norm] *)
Definition b_norm (b : list fvec3) : list fnum :=
  map (λ bi, F.add (fnorm bi) (Fin eps7)) b.

Definition div_loss (b : list fvec3) (div : list fnum) : fnum :=
  F.mean (zip_with F.div div (b_norm b)).

(** [ff_loss], the force-free consistency score. *)
Definition ff_loss (b j : list fvec3) : fnum :=
  F.mean (zip_with F.div (map fnorm (zip_with fcross j b)) (b_norm b)).

(** What [wandb.log] receives under ["valid"]. *)
Record metrics : Type := mk_metrics {
  m_divergence : fnum;
  m_force_free : fnum;
  m_sigma_J : fnum;
  m_theta_J : fnum
}.

(** [validation_outputs[key]]: the normalised field, current density and
    divergence of the validation points. *)
Record validation_output : Type := mk_validation_output {
  out_b : list fvec3;
  out_j : list fvec3;
  out_div : list fnum
}.

(** [MetricsCallback.on_validation_epoch_end]: nothing is logged when the
    key is missing. *)
Definition on_validation_epoch_end (validation_dataset_key : string)
    (gauss_per_dB Mm_per_ds : fnum) (validation_outputs : gmap string validation_output)
  : option metrics :=
  match validation_outputs !! validation_dataset_key with
  | None => None
  | Some outputs =>
      let b := map (fscale gauss_per_dB) (out_b outputs) in
      let j := map (λ v, funscale Mm_per_ds (fscale gauss_per_dB v)) (out_j outputs) in
      let div := map (λ d, F.div (F.mul d gauss_per_dB) Mm_per_ds) (out_div outputs) in
      Some {| m_divergence := div_loss b div;
              m_force_free := ff_loss b j;
              m_sigma_J := sigma_J b j;
              m_theta_J := theta_J b j |}
  end.

(* ===================================================================== *)
(** ** Notions used in the statements *)

(** The [k]-th chunk of [load_coords]: [coords[k * batch_size : (k + 1) * batch_size]]. *)
Definition chunk (coords : list vec3) (batch_size : Z) (k : nat) : list vec3 :=
  slice coords (Z.of_nat k * batch_size) ((Z.of_nat k + 1) * batch_size).

(** The rows [_load] works on: [coords / self.spatial_norm], flattened. *)
Definition normalized_rows (self : BaseOutput) (coords : array3) : list vec3 :=
  map (vmap (λ x, x / spatial_norm self)%R) (cells coords).

(** What one pass over the chunks [it] does to the model, in gradient
    mode [g]. *)
Definition batch_events (g : bool) (coords : list vec3) (batch_size : Z) (it : list nat)
  : list event :=
  flat_map (λ k, [ZeroGrad; Forward g true (length (chunk coords batch_size k))]) it.

(** The model's field rows and raw curls, chunk by chunk. *)
Definition raw_field (self : BaseOutput) (coords : list vec3) (batch_size : Z)
    (it : list nat) : list (list vec3) :=
  map (λ k, map sample_b (forward (model self) (chunk coords batch_size k))) it.

Definition raw_current (self : BaseOutput) (coords : list vec3) (batch_size : Z)
    (it : list nat) : list (list vec3) :=
  map (λ k, map (λ s, curl (sample_jac s)) (forward (model self) (chunk coords batch_size k))) it.

(** The conversion of one raw curl entry to physical units, as [_load]
    applies it. *)
Definition current_to_physical (self : BaseOutput) (x : R) : R :=
  (x * qvalue (G_per_dB self) / qvalue (m_per_ds self) * c self / (4 * PI))%R.

(** The interface of the model: one field sample per input point. *)
Definition model_shaped (m : Model) : Prop :=
  ∀ xs, length (forward m xs) = length xs.

(** A model that treats the points of a batch independently. *)
Definition model_pointwise (m : Model) (f : vec3 → field_sample) : Prop :=
  ∀ xs, forward m xs = map f xs.

(** The value and the world a computation ends with. *)
Definition outcome {A} (m : M A) (w : world) : result A := (m w).1.
Definition final {A} (m : M A) (w : world) : world := (m w).2.

(** The events a computation adds to the trace of [w]. *)
Definition new_events {A} (m : M A) (w : world) : list event :=
  drop (length (trace w)) (trace (final m w)).

(** The shape of the quantity stored under [key], if any. *)
Definition shape_at (d : gmap string pyval) (key : string) : option (list nat) :=
  match d !! key with
  | Some (VQuantity q) => Some (shape (avalue q))
  | Some (VArray a) => Some (shape a)
  | _ => None
  end.

(** The rows of the quantity stored under [key], if any. *)
Definition cells_at (d : gmap string pyval) (key : string) : option (list vec3) :=
  match d !! key with
  | Some (VQuantity q) => Some (cells (avalue q))
  | Some (VArray a) => Some (cells a)
  | _ => None
  end.

(** The dictionary [_load] builds from the concatenated field rows and raw
    curls. *)
Definition assemble (self : BaseOutput) (coords_shape : list nat) (cc : bool)
    (cube j_cube : list (list vec3)) : result (gmap string pyval) :=
  res_bind (cat cube) (λ cube,
  res_bind (reshape cube coords_shape) (λ cube,
  let b := aq_mul (plain cube) (G_per_dB self) in
  let model_out : gmap string pyval := {[ "B" := VQuantity b ]} in
  if cc then
    res_bind (cat j_cube) (λ j_cube,
    res_bind (reshape j_cube coords_shape) (λ j_cube,
    let j := aq_unscale
               (aq_scale (aq_div (aq_mul (plain j_cube) (G_per_dB self)) (m_per_ds self))
                         (c self))
               (4 * PI) in
    Ok (<[ "J" := VQuantity (aq_div_unit (aq_mul_unit j u_G) u_s) ]> model_out)))
  else Ok model_out)).

(** A checkpoint to run the methods on: the identity field [B(x) = x],
    field scale 100, length scale 1, on the unit cube. *)
Definition identity_jac : mat3 := ((1, 0, 0), (0, 1, 0), (0, 0, 1))%R.

Definition identity_field (p : vec3) : field_sample := mk_sample p identity_jac.

Definition identity_model : Model := mk_model BModel (map identity_field).

Definition demo_data : state_data :=
  {| data_G_per_dB := 100;
     data_Mm_per_ds := 1;
     data_type := "spherical";
     data_coord_range := ((0, 1), (0, 1), (0, 1))%R;
     data_ds_per_pixel := 1 / 4;
     data_radius_range := (1, 2)%R |}.

Definition demo_checkpoint : checkpoint := mk_checkpoint identity_model demo_data.

Definition demo_output : BaseOutput := BaseOutput__init__ demo_checkpoint.

(** The world of a fresh interpreter: gradients enabled, nothing done to
    the model yet, and the default [latitude_range] of [load_spherical] as
    the [def] statement built it. *)
Definition fresh_world : world :=
  mk_world true []
    {[ load_spherical_default_latitude_range := (- (PI / 2), PI / 2)%R ]}.

Definition two_points : array3 := mk_array3 [2] [(0, 0, 0); (1, 1, 1)]%R.

(** An array of shape [(0, 3)]. *)
Definition empty_grid : array3 := mk_array3 [0] [].

(** From the spec's words: [n] is [round(x)], an integer nearest to [x],
    whatever the tie-break. *)
Definition is_round (x : R) (n : Z) : Prop := (Rabs (x - IZR n) <= 1 / 2)%R.

(** From the spec's words: the number of samples of an axis under the
    spec's edge policy, a single sample for a range of zero width and
    [round((hi - lo) * points_per_unit)] otherwise. *)
Definition spec_axis_samples (lo hi points_per_unit : R) (n : Z) : Prop :=
  if decide (hi = lo) then n = 1%Z else is_round ((hi - lo) * points_per_unit) n.

(** The cube sampler on the demo checkpoint: the unit cube at 4 points per
    unit length. *)
Definition demo_cartesian : CartesianOutput := CartesianOutput__init__ demo_checkpoint.

Definition unit_axis : list R :=
  map (λ i : nat, (0 + INR i * ((1 - 0) / (IZR 4 - 1)))%R) (seq 0 4).

Definition unit_cube : array3 := meshgrid_ij unit_axis unit_axis unit_axis.

(** From the spec's words: [y] is [x] wrapped modulo the period [p], the
    representative of [x] in [0, p). *)
Definition is_wrap (p x y : R) : Prop :=
  (0 <= y < p)%R ∧ ∃ k : Z, (x = y + IZR k * p)%R.

(** From the spec's words: a coordinate lies within a requested range,
    closed below and open above. *)
Definition within (lo hi x : R) : Prop := (lo <= x < hi)%R.

(** From the spec's words: an angle [x] lies within the requested range
    from [lo] to [hi] once both went through the same wrap modulo
    [period]: [x] wraps to the same value as some angle of the range. *)
Definition wrapped_within (period lo hi x : R) : Prop :=
  ∃ x' y, within lo hi x' ∧ is_wrap period x' y ∧ is_wrap period x y.

(** From the spec's words: the spherical coordinates [sc] of a point lie
    within the requested radius, latitude and longitude window, latitude
    being taken modulo pi and longitude modulo 2 pi. *)
Definition spec_in_window (radius_range latitude_range longitude_range : R * R)
    (sc : vec3) : Prop :=
  let '(r, t, p) := sc in
  within radius_range.1 radius_range.2 r
  ∧ wrapped_within PI latitude_range.1 latitude_range.2 t
  ∧ wrapped_within (2 * PI) longitude_range.1 longitude_range.2 p.

(** The masked-region sampler on the demo checkpoint, and a lattice of two
    points on the z axis, the first inside the window of radius [1, 2),
    latitude [0, 1) and longitude [0, 1), the second beyond its radius. *)
Definition demo_spherical : SphericalOutput := mk_SphericalOutput demo_output (1, 2)%R.

Definition z_axis_lattice : array3 :=
  mk_array3 [1; 1; 2] [(0, 0, 3 / 2); (0, 0, 3)]%R.

(** A caller of [load_spherical] who passes an array of their own as
    [latitude_range]: it lives at [caller_latitude_range]. *)
Definition caller_latitude_range : loc := 1%nat.

Definition caller_world : world :=
  mk_world true []
    {[ load_spherical_default_latitude_range := (- (PI / 2), PI / 2)%R;
       caller_latitude_range := (- (PI / 4), PI / 4)%R ]}.

(** A row of finite floating-point values. *)
Definition fin3 (v : vec3) : fvec3 := let '(x, y, z) := v in (Fin x, Fin y, Fin z).

(** Validation outputs with one point, unit field along x and no current. *)
Definition zero_current_outputs : gmap string validation_output :=
  {[ "validation" := mk_validation_output [fin3 (1, 0, 0)%R] [fin3 vzero] [Fin 0] ]}.

(** A computation that leaves the shared arrays alone. *)
Definition heap_stable {A} (m : M A) : Prop := ∀ w, heap (m w).2 = heap w.

(** The world of a caller who is inside a [with torch.no_grad():] block. *)
Definition no_grad_world : world := mk_world false [] (heap fresh_world).

(** The keyword arguments the samplers pass on, as [load_coords] reads
    them. *)
Definition kw_batch_size (kwargs : gmap string kwval) : Z :=
  default default_batch_size (kw_int <$> kwargs !! "batch_size").
Definition kw_progress (kwargs : gmap string kwval) : bool :=
  default false (kw_truth <$> kwargs !! "progress").

(** The points [load_cube] hands to [load_coords]: [coords.reshape(-1, 3)]. *)
Definition flattened (coords : array3) : array3 :=
  mk_array3 [length (cells coords)] (cells coords).

(** The mask [condition] of [load] on the lattice [coords], and the points
    [load] hands to [load_coords]: [coords[condition]]. *)
Definition coverage_mask (radius_range latitude_range longitude_range : R * R)
    (coords : array3) : list bool :=
  map (in_window radius_range latitude_range longitude_range)
      (map cartesian_to_spherical (cells coords)).

Definition masked_points (radius_range latitude_range longitude_range : R * R)
    (coords : array3) : array3 :=
  let sub_rows :=
    mask_select (cells coords)
      (coverage_mask radius_range latitude_range longitude_range coords) in
  mk_array3 [length sub_rows] sub_rows.

(** The lattice [load] builds for the window of radius 1 to 2, polar angle
    0 to pi/2 and azimuth 0 to pi/2 at 3/2 points per unit length: the
    bounding box is the cube from 0 to 2, with 3 samples per axis. *)
Definition octant_axis : list R :=
  map (λ i : nat, (0 + INR i * ((2 - 0) / (IZR 3 - 1)))%R) (seq 0 3).

Definition octant_lattice : array3 := meshgrid_ij octant_axis octant_axis octant_axis.

(* ===================================================================== *)
(** ** [load_spherical_coords] *)

(** [SphericalOutput._skycoords_to_cartesian], on the points of the
    [SkyCoord] once astropy has taken them to the Carrington frame: radius
    in solRad, latitude and longitude in rad, one triple per point. *)
Definition _skycoords_to_cartesian (spherical_coords : list vec3) : array3 :=
  let stacked := map (λ '(r, lat, lon), (r, PI / 2 + lat, lon)%R) spherical_coords in
  mk_array3 [length stacked] (map spherical_to_cartesian stacked).

(** [SphericalOutput.load_spherical_coords]: [load_coords] with its
    defaults. *)
Definition load_spherical_coords (self : SphericalOutput) (spherical_coords : list vec3)
  : M (gmap string pyval) :=
  let cartesian_coords := _skycoords_to_cartesian spherical_coords in
  load_coords (sph_base self) cartesian_coords default_batch_size false false.

(* ===================================================================== *)
(** ** [BoundaryCallback.on_validation_epoch_end] *)

(** [torch.abs] *)
Definition fabs (a : fnum) : fnum :=
  match a with
  | Fin x => Fin (Rabs x)
  | PInf | NInf => PInf
  | NaN => NaN
  end.

(** [torch.clip(a, lo)], a lower bound only. *)
Definition fclip_min (a : fnum) (lo : R) : fnum :=
  match a with
  | Fin x => Fin (Rmax x lo)
  | PInf => PInf
  | NInf => Fin lo
  | NaN => NaN
  end.

Definition is_nan (a : fnum) : bool :=
  match a with NaN => true | _ => false end.

(** [torch.nanmean]: the mean of the entries that are numbers. *)
Definition nanmean (l : list fnum) : fnum :=
  F.mean (filter (λ a, is_nan a = false) l).

Definition fmap3 (f : fnum → fnum) (v : fvec3) : fvec3 :=
  let '(x, y, z) := v in (f x, f y, f z).

Definition fzip3 (f : fnum → fnum → fnum) (u v : fvec3) : fvec3 :=
  let '(u1, u2, u3) := u in
  let '(v1, v2, v3) := v in
  (f u1 v1, f u2 v2, f u3 v3).

Definition fdot (u v : fvec3) : fnum :=
  let '(u1, u2, u3) := u in
  let '(v1, v2, v3) := v in
  F.add (F.add (F.mul u1 v1) (F.mul u2 v2)) (F.mul u3 v3).

(** One row of [torch.einsum('ijk,ik->ij', transform, b)]. *)
Definition apply_transform (t : fvec3 * fvec3 * fvec3) (v : fvec3) : fvec3 :=
  let '(t1, t2, t3) := t in (fdot t1 v, fdot t2 v, fdot t3 v).

(** [validation_outputs[key]] for a boundary dataset; ['transform'] and
    ['b_err'] may be missing. *)
Record boundary_output : Type := mk_boundary_output {
  bo_b : list fvec3;
  bo_b_true : list fvec3;
  bo_transform : option (list (fvec3 * fvec3 * fvec3));
  bo_b_err : option (list fvec3)
}.

(** [BoundaryCallback.on_validation_epoch_end], up to the dictionary
    [evaluation] it logs; nothing is logged when the key is missing. *)
Definition boundary_evaluation (validation_dataset_key : string) (gauss_per_dB : fnum)
    (validation_outputs : gmap string boundary_output) : option (gmap string fnum) :=
  match validation_outputs !! validation_dataset_key with
  | None => None
  | Some outputs =>
      let b := map (fscale gauss_per_dB) (bo_b outputs) in
      let b_true := map (fscale gauss_per_dB) (bo_b_true outputs) in
      let b := match bo_transform outputs with
               | Some transform => zip_with apply_transform transform b
               | None => b
               end in
      let b_diff := zip_with (λ x y, fmap3 fabs (fzip3 F.sub x y)) b b_true in
      let b_diff := nanmean (map fnorm b_diff) in
      let evaluation : gmap string fnum := {[ "b_diff" := b_diff ]} in
      match bo_b_err outputs with
      | Some b_err =>
          let b_err := map (fscale gauss_per_dB) b_err in
          let b_diff_err :=
            zip_with (λ d e, fmap3 (λ a, fclip_min a 0) (fzip3 F.sub d e))
              (zip_with (λ x y, fmap3 fabs (fzip3 F.sub x y)) b b_true) b_err in
          let b_diff_err := nanmean (map fnorm b_diff_err) in
          Some (<[ "b_diff_err" := b_diff_err ]> evaluation)
      | None => Some evaluation
      end
  end.

(* ===================================================================== *)
(** ** Further notions used in the statements *)

(** A computation that leaves torch's gradient mode as it found it. *)
Definition mode_stable {A} (m : M A) : Prop :=
  ∀ w, grad_enabled (m w).2 = grad_enabled w.

(** The number of points a list of events sends through the model. *)
Definition points_evaluated (evs : list event) : nat :=
  sum_list (map (λ e, match e with Forward _ _ n => n | ZeroGrad => 0 end) evs).

(** The unit of the quantity stored under [key], if any. *)
Definition unit_at (d : gmap string pyval) (key : string) : option physunit :=
  match d !! key with
  | Some (VQuantity q) => Some (aunit q)
  | _ => None
  end.

(** The sample [i] of an axis of [num] samples from [lo] to [hi]. *)
Definition axis_sample (lo hi : R) (num : Z) (i : nat) : R :=
  (lo + INR i * ((hi - lo) / (IZR num - 1)))%R.

(** The reconstructed field [b] is within the error bars [e] of the
    reference [t], component by component. *)
Definition within_error (b t e : vec3) : Prop :=
  let '(b1, b2, b3) := b in
  let '(t1, t2, t3) := t in
  let '(e1, e2, e3) := e in
  (Rabs (b1 - t1) <= e1 ∧ Rabs (b2 - t2) <= e2 ∧ Rabs (b3 - t3) <= e3)%R.

(** The boundary outputs of validation points given as triples of
    reconstructed field, reference field and error bar, without a
    transform. *)
Definition boundary_of (pts : list (vec3 * vec3 * vec3)) : boundary_output :=
  mk_boundary_output (map (λ p, fin3 p.1.1) pts) (map (λ p, fin3 p.1.2) pts) None
                     (Some (map (λ p, fin3 p.2) pts)).

(** A model whose field has a symmetric Jacobian at every point, as the
    gradient of a potential has. *)
Definition curl_free (f : vec3 → field_sample) : Prop :=
  ∀ p, curl (sample_jac (f p)) = vzero.

(* ===================================================================== *)
(** ** Slices and chunks *)

Section Chunks.
Context {A : Type}.
Implicit Types l : list A.

Lemma slice_nonneg l (i j : nat) :
  i ≤ j → slice l (Z.of_nat i) (Z.of_nat j) = take (j - i) (drop i l).
Proof.
  intros Hij. unfold slice, slice_bound.
  repeat case_decide; try lia.
  destruct (decide (i ≤ length l)) as [Hi|Hi].
  - replace (Z.to_nat (Z.of_nat i `min` Z.of_nat (length l))) with i by lia.
    destruct (decide (j ≤ length l)) as [Hj|Hj].
    + f_equal. lia.
    + rewrite !take_ge; [done | rewrite length_drop; lia | rewrite length_drop; lia].
  - replace (Z.to_nat (Z.of_nat i `min` Z.of_nat (length l))) with (length l) by lia.
    rewrite !drop_ge by lia. by rewrite !take_nil.
Qed.

Lemma length_slice_le l (i j : nat) :
  i ≤ j → length (slice l (Z.of_nat i) (Z.of_nat j)) ≤ j - i.
Proof. intros. rewrite slice_nonneg by done. rewrite length_take. lia. Qed.

Lemma take_slice l (i j : nat) :
  i ≤ j → take i l ++ slice l (Z.of_nat i) (Z.of_nat j) = take j l.
Proof.
  intros. rewrite slice_nonneg by done. rewrite take_take_drop. f_equal. lia.
Qed.
End Chunks.

Lemma chunk_nat coords (bs : nat) k :
  chunk coords (Z.of_nat bs) k = take bs (drop (k * bs) coords).
Proof.
  unfold chunk.
  replace (Z.of_nat k * Z.of_nat bs)%Z with (Z.of_nat (k * bs)) by lia.
  replace ((Z.of_nat k + 1) * Z.of_nat bs)%Z with (Z.of_nat ((k + 1) * bs)) by lia.
  rewrite slice_nonneg by lia. f_equal. lia.
Qed.


Lemma concat_chunks coords (bs : nat) n :
  concat (map (chunk coords (Z.of_nat bs)) (seq 0 n)) = take (n * bs) coords.
Proof.
  induction n as [|n IH].
  - by rewrite take_0.
  - rewrite seq_S, map_app, concat_app, IH. simpl. rewrite app_nil_r.
    rewrite chunk_nat, take_take_drop. f_equal. lia.
Qed.

(** [ceil_div] on a positive divisor: the least [n] with [len <= n * b]. *)
Lemma ceil_div_pos (len : nat) (b : Z) :
  (1 ≤ b)%Z →
  ∃ n : nat, ceil_div (Z.of_nat len) b = Ok (Z.of_nat n)
             ∧ len ≤ n * Z.to_nat b
             ∧ (len = 0 ↔ n = 0)
             ∧ (n - 1) * Z.to_nat b ≤ len.
Proof.
  intros Hb. unfold ceil_div. case_decide; [lia|].
  set (q := (- (- Z.of_nat len / b))%Z).
  assert (Hq : (Z.of_nat len ≤ q * b < Z.of_nat len + b)%Z).
  { pose proof (Z.div_mod (- Z.of_nat len) b ltac:(lia)) as Hdm.
    pose proof (Z.mod_pos_bound (- Z.of_nat len) b ltac:(lia)) as Hmod.
    unfold q. nia. }
  assert (0 ≤ q)%Z by nia.
  exists (Z.to_nat q). rewrite Z2Nat.id by done. split; [done|].
  split; [nia|]. split; [split; intros; nia | nia].
Qed.

Lemma all_chunks coords (b : Z) n :
  (1 ≤ b)%Z → length coords ≤ n * Z.to_nat b →
  concat (map (chunk coords b) (seq 0 n)) = coords.
Proof.
  intros Hb Hn. rewrite <-(Z2Nat.id b) by lia.
  rewrite concat_chunks. by apply take_ge.
Qed.

(* ===================================================================== *)
(** ** The batch loop *)

Lemma load_batches_run self bs cc coords it cube j_cube w :
  (cc = true → grad_enabled w = true) →
  load_batches self bs cc coords it cube j_cube w =
    (Ok (cube ++ raw_field self coords bs it,
         j_cube ++ (if cc then raw_current self coords bs it else [])),
     mk_world (grad_enabled w)
              (trace w ++ batch_events (grad_enabled w) coords bs it)
              (heap w)).
Proof.
  revert cube j_cube w. induction it as [|k it IH]; intros cube j_cube w Hg.
  - simpl. unfold ret. destruct cc, w; by rewrite !app_nil_r.
  - simpl. unfold bind at 1. unfold emit at 1. simpl.
    unfold bind at 1. unfold call_model, bind, is_grad_enabled, emit, ret. simpl.
    destruct cc; simpl.
    + rewrite (Hg eq_refl). unfold lift, calculate_current. simpl.
      rewrite IH by done. simpl.
      fold (chunk coords bs k). unfold result_b. simpl.
      by rewrite <-!app_assoc.
    + rewrite IH by done. simpl.
      fold (chunk coords bs k). unfold result_b. simpl.
      by rewrite <-!app_assoc.
Qed.

Lemma _load_run self bs pr cc coords w (n : nat) :
  (cc = true → grad_enabled w = true) →
  ceil_div (Z.of_nat (length (cells coords))) bs = Ok (Z.of_nat n) →
  let rows := normalized_rows self coords in
  _load self bs pr cc coords w =
    (assemble self (lead coords) cc
       (raw_field self rows bs (seq 0 n))
       (if cc then raw_current self rows bs (seq 0 n) else []),
     mk_world (grad_enabled w)
              (trace w ++ batch_events (grad_enabled w) rows bs (seq 0 n))
              (heap w)).
Proof.
  intros Hg Hn rows. unfold _load, reshape_rows, amap. simpl.
  fold (normalized_rows self coords). fold rows.
  assert (length rows = length (cells coords)) as Hlen
    by (unfold rows, normalized_rows; by rewrite length_map).
  unfold bind at 1. unfold lift at 1. rewrite Hlen, Hn.
  unfold bind at 1. unfold range. rewrite Nat2Z.id.
  rewrite load_batches_run by done. simpl.
  unfold assemble, bind, lift, ret.
  destruct (cat (raw_field self rows bs (seq 0 n))) as [cube|e]; simpl; [|done].
  destruct (reshape cube (lead coords)) as [cube'|e]; simpl; [|done].
  destruct cc; [|done].
  destruct (cat (raw_current self rows bs (seq 0 n))) as [jc|e]; simpl; [|done].
  by destruct (reshape jc (lead coords)) as [jc'|e].
Qed.

Lemma _load_zero_batch self pr cc coords w :
  _load self 0 pr cc coords w = (Raise ZeroDivisionError, w).
Proof. done. Qed.

Lemma ceil_div_cases (n b : Z) :
  (b = 0%Z ∧ ceil_div n b = Raise ZeroDivisionError)
  ∨ (b ≠ 0%Z ∧ ∃ z, ceil_div n b = Ok z).
Proof. unfold ceil_div. case_decide; eauto. Qed.

Lemma _load_run_any self bs pr cc coords w z :
  (cc = true → grad_enabled w = true) →
  ceil_div (Z.of_nat (length (cells coords))) bs = Ok z →
  let rows := normalized_rows self coords in
  let it := seq 0 (Z.to_nat z) in
  _load self bs pr cc coords w =
    (assemble self (lead coords) cc (raw_field self rows bs it)
       (if cc then raw_current self rows bs it else []),
     mk_world (grad_enabled w) (trace w ++ batch_events (grad_enabled w) rows bs it) (heap w)).
Proof.
  intros Hg Hz rows it.
  destruct (decide (0 ≤ z)%Z) as [Hz0|Hz0].
  - subst it. apply _load_run; [done|]. by rewrite Z2Nat.id.
  - subst it. replace (Z.to_nat z) with 0 by lia. simpl.
    unfold _load, reshape_rows, amap. simpl.
    fold (normalized_rows self coords). fold rows.
    assert (length rows = length (cells coords)) as Hlen
      by (unfold rows, normalized_rows; by rewrite length_map).
    unfold bind at 1. unfold lift at 1. rewrite Hlen, Hz.
    unfold range. replace (Z.to_nat z) with 0 by lia. simpl.
    unfold bind, ret, lift. simpl. destruct cc, w; simpl; by rewrite app_nil_r.
Qed.

(** [load_coords] entered with gradients enabled, the default of torch:
    the mode the model runs in, and the mode left behind. *)
Lemma load_coords_run self coords bs pr cc w z :
  grad_enabled w = true →
  ceil_div (Z.of_nat (length (cells coords))) bs = Ok z →
  let rows := normalized_rows self coords in
  let it := seq 0 (Z.to_nat z) in
  load_coords self coords bs pr cc w =
    (assemble self (lead coords) cc (raw_field self rows bs it)
       (if cc then raw_current self rows bs it else []),
     mk_world true
       (trace w ++ batch_events (cc || _requires_grad self) rows bs it) (heap w)).
Proof.
  intros Hg Hz rows it. unfold load_coords.
  destruct (cc || _requires_grad self) eqn:Hmode.
  - rewrite (_load_run_any _ _ _ _ _ _ z) by done. by rewrite Hg.
  - apply orb_false_elim in Hmode as [-> Hrg]. unfold no_grad.
    rewrite (_load_run_any _ _ _ _ _ _ z) by done. simpl. by rewrite Hg.
Qed.

Lemma new_events_app {A} (m : M A) w evs r g h :
  m w = (r, mk_world g (trace w ++ evs) h) → new_events m w = evs.
Proof.
  intros Hm. unfold new_events, final. rewrite Hm. simpl.
  by rewrite drop_app_length.
Qed.

Lemma elem_of_batch_events g coords bs it e :
  e ∈ batch_events g coords bs it →
  e = ZeroGrad ∨ ∃ k, k ∈ it ∧ e = Forward g true (length (chunk coords bs k)).
Proof.
  unfold batch_events. rewrite list_elem_of_In, in_flat_map.
  intros (k & Hk & He). apply list_elem_of_In in Hk.
  simpl in He. destruct He as [<-|[<-|[]]]; eauto.
Qed.

(* ===================================================================== *)
(** ** Reassembly *)

Lemma cat_seq (g : nat → list vec3) (n : nat) :
  n ≠ 0 → cat (map g (seq 0 n)) = Ok (concat (map g (seq 0 n))).
Proof. by destruct n. Qed.

Lemma reshape_ok rows s :
  length rows = numel s → reshape rows s = Ok (mk_array3 s rows).
Proof. intros. unfold reshape. by case_decide. Qed.

Lemma length_concat_forward self (h : field_sample → vec3) rows bs n :
  model_shaped (model self) →
  length (concat (map (λ k, map h (forward (model self) (chunk rows bs k))) (seq 0 n)))
  = length (concat (map (chunk rows bs) (seq 0 n))).
Proof.
  intros Hm. induction (seq 0 n) as [|k it IH]; [done|].
  simpl. by rewrite !length_app, IH, length_map, Hm.
Qed.

Lemma concat_forward_pointwise self f (h : field_sample → vec3) rows bs n :
  model_pointwise (model self) f → (1 ≤ bs)%Z → length rows ≤ n * Z.to_nat bs →
  concat (map (λ k, map h (forward (model self) (chunk rows bs k))) (seq 0 n))
  = map (λ p, h (f p)) rows.
Proof.
  intros Hf Hbs Hn.
  transitivity (map (λ p, h (f p)) (concat (map (chunk rows bs) (seq 0 n)))).
  - induction (seq 0 n) as [|k it IH]; [done|].
    simpl. by rewrite map_app, IH, Hf, map_map.
  - by rewrite all_chunks.
Qed.

Lemma length_normalized_rows self coords :
  length (normalized_rows self coords) = length (cells coords).
Proof. unfold normalized_rows. by rewrite length_map. Qed.

(** What [load_coords] does on a non-empty grid with a model that honours
    its interface, entered with gradients enabled. *)
Lemma load_coords_returns self coords bs pr cc w :
  wf coords → cells coords ≠ [] → (1 ≤ bs)%Z →
  model_shaped (model self) → grad_enabled w = true →
  let rows := normalized_rows self coords in
  ∃ (n : nat) bq jq,
    ceil_div (Z.of_nat (length (cells coords))) bs = Ok (Z.of_nat n)
    ∧ avalue bq =
        mk_array3 (lead coords)
          (map (vmap (λ x, x * qvalue (G_per_dB self))%R)
               (concat (raw_field self rows bs (seq 0 n))))
    ∧ avalue jq =
        mk_array3 (lead coords)
          (map (vmap (current_to_physical self))
               (concat (raw_current self rows bs (seq 0 n))))
    ∧ length (cells (avalue bq)) = length (cells coords)
    ∧ length (cells (avalue jq)) = length (cells coords)
    ∧ load_coords self coords bs pr cc w =
        (Ok (if cc then <[ "J" := VQuantity jq ]> {[ "B" := VQuantity bq ]}
             else {[ "B" := VQuantity bq ]}),
         mk_world true
           (trace w ++ batch_events (cc || _requires_grad self) rows bs (seq 0 n))
           (heap w)).
Proof.
  intros Hwf Hne Hbs Hm Hg rows.
  destruct (ceil_div_pos (length (cells coords)) bs Hbs) as (n & Hn & Hcov & Hz & _).
  assert (n ≠ 0) as Hn0.
  { intros ->. destruct (cells coords); [done|]. simpl in Hz. lia. }
  assert (length rows = length (cells coords)) as Hrows
    by (unfold rows; by rewrite length_normalized_rows).
  assert (∀ h : field_sample → vec3,
             length (concat (map (λ k, map h (forward (model self) (chunk rows bs k)))
                                 (seq 0 n))) = length (cells coords)) as Hlen.
  { intros h. rewrite length_concat_forward by done.
    rewrite all_chunks; [done..|]. by rewrite Hrows. }
  exists n,
    (aq_mul (plain (mk_array3 (lead coords) (concat (raw_field self rows bs (seq 0 n)))))
            (G_per_dB self)),
    (mk_aquantity
       (mk_array3 (lead coords)
          (map (vmap (current_to_physical self))
               (concat (raw_current self rows bs (seq 0 n)))))
       (mk_unit 2 (-1) (-1))).
  split; [done|]. split; [done|]. split; [done|].
  split; [simpl; rewrite length_map; apply (Hlen sample_b)|].
  split; [simpl; rewrite length_map; apply (Hlen (λ s, curl (sample_jac s)))|].
  pose proof (load_coords_run self coords bs pr cc w (Z.of_nat n) Hg Hn) as Hrun.
  simpl in Hrun. rewrite Hrun. clear Hrun.
  rewrite Nat2Z.id. fold rows. f_equal. unfold assemble.
  unfold raw_field at 1. rewrite cat_seq by done.
  fold (raw_field self rows bs (seq 0 n)). simpl.
  rewrite reshape_ok by (rewrite <-Hwf; apply (Hlen sample_b)). simpl.
  destruct cc; [|done].
  unfold raw_current at 1. rewrite cat_seq by done.
  fold (raw_current self rows bs (seq 0 n)). simpl.
  rewrite reshape_ok by (rewrite <-Hwf; apply (Hlen (λ s, curl (sample_jac s)))). simpl.
  do 3 f_equal.
  unfold aq_div_unit, aq_mul_unit, aq_unscale, aq_scale, aq_div, aq_mul, plain, amap.
  simpl. f_equal. f_equal. rewrite !map_map. apply map_ext.
  intros [[x y] z]. by unfold current_to_physical.
Qed.

Lemma model_pointwise_shaped m f : model_pointwise m f → model_shaped m.
Proof. intros Hf xs. by rewrite Hf, length_map. Qed.

(** [load_coords] in any gradient mode, as long as a requested current
    density finds gradients enabled. *)
Lemma load_coords_run_mode self coords bs pr cc w z :
  (cc = true → grad_enabled w = true) →
  ceil_div (Z.of_nat (length (cells coords))) bs = Ok z →
  let rows := normalized_rows self coords in
  let it := seq 0 (Z.to_nat z) in
  load_coords self coords bs pr cc w =
    (assemble self (lead coords) cc (raw_field self rows bs it)
       (if cc then raw_current self rows bs it else []),
     mk_world (grad_enabled w)
       (trace w ++ batch_events ((cc || _requires_grad self) && grad_enabled w) rows bs it)
       (heap w)).
Proof.
  intros Hg Hz rows it. unfold load_coords.
  destruct (cc || _requires_grad self) eqn:Hmode.
  - by rewrite (_load_run_any _ _ _ _ _ _ z) by done.
  - apply orb_false_elim in Hmode as [-> Hrg]. unfold no_grad.
    by rewrite (_load_run_any _ _ _ _ _ _ z) by done.
Qed.

(** [load_coords] asked for the current density while gradients are
    disabled: the first chunk is evaluated without a graph, and the curl
    cannot be taken. *)
Lemma load_coords_untracked self coords bs pr w z :
  grad_enabled w = false →
  ceil_div (Z.of_nat (length (cells coords))) bs = Ok z →
  let rows := normalized_rows self coords in
  load_coords self coords bs pr true w =
    match Z.to_nat z with
    | 0 => (Raise ValueError, w)
    | S _ =>
        (Raise RuntimeError,
         mk_world false
           (trace w ++ [ZeroGrad; Forward false true (length (chunk rows bs 0))])
           (heap w))
    end.
Proof.
  intros Hg Hz rows. unfold load_coords. cbn [orb].
  unfold _load, reshape_rows, amap. cbn [cells lead].
  fold (normalized_rows self coords). fold rows.
  assert (length rows = length (cells coords)) as Hlen
    by apply length_normalized_rows.
  unfold bind at 1. unfold lift at 1. rewrite Hlen, Hz.
  unfold range. destruct (Z.to_nat z) as [|m].
  - destruct w. done.
  - cbn [seq load_batches].
    cbv [bind emit call_model is_grad_enabled ret lift calculate_current
         tracked grad_enabled trace heap].
    destruct w as [g tr h]. cbn in Hg. subst g. cbn [andb]. by rewrite <-app_assoc.
Qed.

Lemma load_coords_zero_batch_any self coords pr cc w :
  load_coords self coords 0 pr cc w = (Raise ZeroDivisionError, w).
Proof.
  unfold load_coords, no_grad.
  destruct (cc || _requires_grad self); rewrite _load_zero_batch; [done|].
  simpl. by destruct w.
Qed.

(** The calls [load_coords] makes on the model, whatever the gradient mode
    on entry: each is made in the mode found on entry, or in no-gradient
    mode when neither the current density nor the model asks for
    gradients. *)
Lemma load_coords_events self coords bs pr cc w :
  let run := load_coords self coords bs pr cc in
  let g := (cc || _requires_grad self) && grad_enabled w in
  grad_enabled (final run w) = grad_enabled w
  ∧ (∀ e, e ∈ new_events run w → e = ZeroGrad ∨ ∃ n, e = Forward g true n)
  ∧ ((1 ≤ bs)%Z → cells coords ≠ [] → ∃ n, Forward g true n ∈ new_events run w).
Proof.
  intros run g.
  destruct (ceil_div_cases (Z.of_nat (length (cells coords))) bs)
    as [[-> _]|[Hbs [z Hz]]].
  - unfold run, new_events, final. rewrite load_coords_zero_batch_any. simpl.
    rewrite drop_all. split; [done|]. split; [|lia].
    intros e He. by apply elem_of_nil in He.
  - assert ((1 ≤ bs)%Z → cells coords ≠ [] → ∃ m, Z.to_nat z = S m) as Hchunk.
    { intros Hpos Hne.
      destruct (ceil_div_pos (length (cells coords)) bs Hpos) as (n & Hn & _ & Hn0 & _).
      rewrite Hn in Hz. injection Hz as <-. rewrite Nat2Z.id.
      destruct n as [|n]; [|eauto].
      destruct (cells coords); [done|]. simpl in Hn0. lia. }
    destruct (decide (cc = true ∧ grad_enabled w = false)) as [[-> Hoff]|Hon].
    + pose proof (load_coords_untracked self coords bs pr w z Hoff Hz) as Hrun.
      simpl in Hrun. fold run in Hrun. subst g. rewrite Hoff. cbn [orb andb].
      unfold new_events, final. rewrite Hrun.
      destruct (Z.to_nat z) as [|m] eqn:Hm.
      * rewrite drop_all. split; [done|]. split.
        -- intros e He. by apply elem_of_nil in He.
        -- intros Hpos Hne. by destruct (Hchunk Hpos Hne).
      * cbn [snd trace grad_enabled]. rewrite drop_app_length.
        split; [done|]. split.
        -- intros e He. apply elem_of_cons in He as [->|He]; [by left|].
           apply list_elem_of_singleton in He as ->. right. eauto.
        -- intros _ _. eexists. apply list_elem_of_further, list_elem_of_here.
    + assert (cc = true → grad_enabled w = true) as Hg.
      { intros ->. destruct (grad_enabled w); [done|]. by destruct Hon. }
      pose proof (load_coords_run_mode self coords bs pr cc w z Hg Hz) as Hrun.
      simpl in Hrun. fold run g in Hrun.
      pose proof (new_events_app _ _ _ _ _ _ Hrun) as Hevs.
      rewrite Hevs. unfold final. rewrite Hrun. split; [done|]. split.
      * intros e He. apply elem_of_batch_events in He as [?|(k & _ & ->)]; eauto.
      * intros Hpos Hne. destruct (Hchunk Hpos Hne) as [m ->].
        eexists. unfold batch_events. simpl.
        apply list_elem_of_further, list_elem_of_here.
Qed.


(* ===================================================================== *)
(** ** Claims on [load_coords] *)

Lemma identity_model_shaped : model_shaped identity_model.
Proof. intros xs. apply length_map. Qed.

Lemma identity_model_pointwise : model_pointwise identity_model identity_field.
Proof. by intros xs. Qed.

(** C1 (as stated, it fails): an array of shape [(0, 3)] is a coordinate
    grid of shape [S + (3,)] with [S = (0,)], and on it [load_coords], with
    its default arguments, raises instead of returning: no chunk is
    evaluated and [torch.cat] refuses the empty list. *)
Lemma load_coords_empty_grid_raises :
  wf empty_grid ∧ shape empty_grid = [0; 3]
  ∧ outcome (load_coords demo_output empty_grid default_batch_size false false) fresh_world
    = Raise ValueError.
Proof.
  split; [done|]. split; [done|].
  unfold outcome.
  pose proof (load_coords_run demo_output empty_grid default_batch_size false false
                fresh_world 0%Z eq_refl eq_refl) as Hrun.
  simpl in Hrun. by rewrite Hrun.
Qed.

(** C1 (amended): for every input grid of shape [S + (3,)] with at least
    one point, every batch size >= 1 and a model that returns one field
    row per point, [load_coords] returns a field output ['B'] of shape
    [S + (3,)], and a current-density output ['J'] of the same shape exactly
    when [compute_currents] is true. *)
Theorem load_coords_shape self coords bs pr cc w :
  wf coords → cells coords ≠ [] → (1 ≤ bs)%Z →
  model_shaped (model self) → grad_enabled w = true →
  ∃ out, outcome (load_coords self coords bs pr cc) w = Ok out
         ∧ shape_at out "B" = Some (shape coords)
         ∧ shape_at out "J" = if cc then Some (shape coords) else None.
Proof.
  intros Hwf Hne Hbs Hm Hg.
  destruct (load_coords_returns self coords bs pr cc w Hwf Hne Hbs Hm Hg)
    as (n & bq & jq & _ & Hb & Hj & _ & _ & Hrun).
  eexists. unfold outcome. rewrite Hrun. split; [done|].
  unfold shape_at, shape. destruct cc.
  - rewrite lookup_insert_ne by done. rewrite lookup_insert_eq, lookup_singleton_eq.
    simpl. by rewrite Hb, Hj.
  - rewrite lookup_singleton_eq, lookup_singleton_ne by done. simpl. by rewrite Hb.
Qed.

Lemma load_coords_shape_witness :
  ∃ out, outcome (load_coords demo_output two_points 1 false true) fresh_world = Ok out
         ∧ shape_at out "B" = Some [2; 3]
         ∧ shape_at out "J" = Some [2; 3].
Proof.
  apply (load_coords_shape demo_output two_points 1 false true fresh_world).
  - reflexivity.
  - discriminate.
  - lia.
  - exact identity_model_shaped.
  - reflexivity.
Defined.

(** C3: in the ['J'] output of [load_coords], every entry is the raw
    per-point curl entry times field scale [G_per_dB] divided by length
    scale [m_per_ds] (the checkpoint's [Mm_per_ds] in metres) times the
    speed of light (299792458 m/s) times [1 / (4 pi)]; the unit factors
    that follow leave the value as it is. *)
Theorem current_density_conversion ckpt coords bs pr w :
  let self := BaseOutput__init__ ckpt in
  let G := qvalue (G_per_dB self) in
  let m := qvalue (m_per_ds self) in
  wf coords → cells coords ≠ [] → (1 ≤ bs)%Z →
  model_shaped (model self) → grad_enabled w = true →
  G = data_G_per_dB (state_data_of ckpt)
  ∧ m = (data_Mm_per_ds (state_data_of ckpt) * 1000000)%R
  ∧ c self = 299792458%R
  ∧ (∀ x, current_to_physical self x = x * (G / m * c self * (1 / (4 * PI))))%R
  ∧ ∃ out (n : nat),
      ceil_div (Z.of_nat (length (cells coords))) bs = Ok (Z.of_nat n)
      ∧ outcome (load_coords self coords bs pr true) w = Ok out
      ∧ cells_at out "J" =
          Some (map (vmap (λ x, x * (G / m * c self * (1 / (4 * PI))))%R)
                    (concat (raw_current self (normalized_rows self coords) bs (seq 0 n)))).
Proof.
  intros self G m Hwf Hne Hbs Hm Hg.
  assert (∀ x, current_to_physical self x = x * (G / m * c self * (1 / (4 * PI))))%R
    as Hconv.
  { intros x. unfold current_to_physical. fold G m. unfold Rdiv. ring. }
  split; [done|]. split; [done|]. split; [done|]. split; [done|].
  destruct (load_coords_returns self coords bs pr true w Hwf Hne Hbs Hm Hg)
    as (n & bq & jq & Hn & _ & Hj & _ & _ & Hrun).
  eexists _, n. split; [done|]. unfold outcome. rewrite Hrun. split; [done|].
  unfold cells_at. rewrite lookup_insert_eq. rewrite Hj. simpl. f_equal.
  apply map_ext. intros [[x y] z]. simpl. by rewrite !Hconv.
Qed.

Lemma current_density_conversion_witness :
  ∃ out (n : nat),
    ceil_div 2 1 = Ok (Z.of_nat n)
    ∧ outcome (load_coords demo_output two_points 1 false true) fresh_world = Ok out
    ∧ cells_at out "J" =
        Some (map (vmap (λ x, x * (100 / (1 * 1000000) * 299792458 * (1 / (4 * PI))))%R)
                  (concat (raw_current demo_output (normalized_rows demo_output two_points) 1
                             (seq 0 n)))).
Proof.
  apply (current_density_conversion demo_checkpoint two_points 1 false fresh_world).
  - reflexivity.
  - discriminate.
  - lia.
  - exact identity_model_shaped.
  - reflexivity.
Defined.



Lemma requires_grad_init ckpt :
  _requires_grad (BaseOutput__init__ ckpt) = false
  ↔ class_of (state_model ckpt) = BModel.
Proof.
  simpl. unfold isinstance. rewrite orb_false_iff.
  rewrite !bool_decide_eq_false. destruct (class_of (state_model ckpt)); intuition congruence.
Qed.

(** C9 (as stated, it fails): [load_coords] never switches gradient mode
    on.  Called with [compute_currents] true by a caller who is inside a
    [torch.no_grad()] block, it runs the model in no-gradient mode on the
    first chunk, and the call ends in an exception. *)
Lemma no_grad_entry_runs_untracked :
  grad_enabled no_grad_world = false
  ∧ new_events (load_coords demo_output two_points 1 false true) no_grad_world
    = [ZeroGrad; Forward false true 1]
  ∧ is_ok (outcome (load_coords demo_output two_points 1 false true) no_grad_world)
    = false.
Proof.
  split; [done|].
  pose proof (load_coords_untracked demo_output two_points 1 false no_grad_world 2%Z
                eq_refl eq_refl) as Hrun.
  simpl in Hrun. unfold new_events, final, outcome. rewrite Hrun. done.
Qed.

(** C9 (amended): every model call of [load_coords] is made in the
    gradient mode found on entry, except that the mode is switched off for
    the calls when [compute_currents] is false and the flag
    [_requires_grad], computed from the model's class at construction, is
    false.  So, entered with gradients enabled (the default of torch), the
    model runs in no-gradient mode if and only if [compute_currents] is
    false and [_requires_grad] is false, and with [compute_currents] true
    every call is tracked; entered with gradients disabled, every call is
    in no-gradient mode.  [requires_grad] is set on every chunk before the
    call, whatever [compute_currents]; the mode found on entry is back on
    exit; a non-empty input with a batch size >= 1 does reach the model. *)
Theorem gradient_mode self coords bs pr cc w :
  let run := load_coords self coords bs pr cc in
  (∀ g rq n, Forward g rq n ∈ new_events run w →
     g = (cc || _requires_grad self) && grad_enabled w ∧ rq = true)
  ∧ (grad_enabled w = true →
     ∀ g rq n, Forward g rq n ∈ new_events run w →
       (g = false ↔ cc = false ∧ _requires_grad self = false)
       ∧ (cc = true → g = true))
  ∧ (grad_enabled w = false →
     ∀ g rq n, Forward g rq n ∈ new_events run w → g = false)
  ∧ grad_enabled (final run w) = grad_enabled w
  ∧ ((1 ≤ bs)%Z → cells coords ≠ [] →
     ∃ n, Forward ((cc || _requires_grad self) && grad_enabled w) true n
            ∈ new_events run w).
Proof.
  intros run.
  destruct (load_coords_events self coords bs pr cc w) as (Hfinal & Hevs & Hcall).
  fold run in Hfinal, Hevs, Hcall.
  assert (∀ g rq n, Forward g rq n ∈ new_events run w →
            g = (cc || _requires_grad self) && grad_enabled w ∧ rq = true) as Hmode.
  { intros g rq n Hin. apply Hevs in Hin as [?|[m Heq]]; [done|].
    by injection Heq as -> -> _. }
  split; [exact Hmode|]. split; [|split; [|split; [exact Hfinal | exact Hcall]]].
  - intros Hg g rq n Hin. apply Hmode in Hin as [-> _]. rewrite Hg, andb_true_r.
    rewrite orb_false_iff. split; [done|]. by intros ->.
  - intros Hg g rq n Hin. apply Hmode in Hin as [-> _]. by rewrite Hg, andb_false_r.
Qed.

Lemma gradient_mode_witness :
  ∃ n, Forward true true n
         ∈ new_events (load_coords demo_output two_points 1 false true) fresh_world.
Proof.
  refine (proj2 (proj2 (proj2 (proj2
            (gradient_mode demo_output two_points 1 false true fresh_world)))) _ _).
  - lia.
  - discriminate.
Defined.

(* ===================================================================== *)
(** ** Reading a run backwards *)

Lemma bind_Ok {A B} (m : M A) (k : A → M B) w b w' :
  bind m k w = (Ok b, w') → ∃ a w1, m w = (Ok a, w1) ∧ k a w1 = (Ok b, w').
Proof. unfold bind. destruct (m w) as [[a|e] w1]; [eauto|done]. Qed.

Lemma lift_Ok {A} (r : result A) w a w' :
  lift r w = (Ok a, w') → r = Ok a ∧ w' = w.
Proof. unfold lift. by intros [= -> ->]. Qed.

Lemma ret_Ok {A} (a b : A) w w' : ret a w = (Ok b, w') → b = a ∧ w' = w.
Proof. unfold ret. by intros [= -> ->]. Qed.

Lemma res_bind_Ok {A B} (r : result A) (k : A → result B) b :
  res_bind r k = Ok b → ∃ a, r = Ok a ∧ k a = Ok b.
Proof. destruct r; [eauto|done]. Qed.

Ltac inv_run H :=
  repeat match type of H with
         | bind _ _ _ = (Ok _, _) =>
             let a := fresh "a" in let w1 := fresh "w" in let H1 := fresh "Hstep" in
             apply bind_Ok in H as (a & w1 & H1 & H);
             try (apply lift_Ok in H1 as [H1 ->])
         | ret _ _ = (Ok _, _) => apply ret_Ok in H as [-> ->]
         end.

Lemma load_coords_kw_Ok self coords cc kwargs w mo w' :
  load_coords_kw self coords cc kwargs w = (Ok mo, w') →
  ("compute_currents" ∉ dom kwargs)
  ∧ (∃ bs pr, load_coords self coords bs pr cc w = (Ok mo, w')).
Proof.
  unfold load_coords_kw. repeat case_decide; try done. eauto.
Qed.

Lemma load_coords_kw_run self coords cc kwargs :
  "compute_currents" ∉ dom kwargs →
  dom kwargs ⊆ ({[ "batch_size"; "progress" ]} : gset string) →
  load_coords_kw self coords cc kwargs =
    load_coords self coords
      (default default_batch_size (kw_int <$> kwargs !! "batch_size"))
      (default false (kw_truth <$> kwargs !! "progress")) cc.
Proof. intros. unfold load_coords_kw. by repeat case_decide. Qed.

(* ===================================================================== *)
(** ** Lattices *)

Lemma length_meshgrid xs ys zs :
  length (cells (meshgrid_ij xs ys zs)) = length xs * (length ys * length zs).
Proof.
  cbn [meshgrid_ij cells].
  assert (∀ x : R, length (flat_map (λ y, map (λ z, (x, y, z)) zs) ys)
                   = length ys * length zs) as Hrow.
  { intros x. induction ys as [|y ys IHy]; [done|].
    cbn [flat_map]. rewrite length_app, length_map, IHy. simpl. lia. }
  induction xs as [|x xs IHx]; [done|].
  cbn [flat_map]. rewrite length_app, Hrow. cbn [length Nat.mul]. f_equal. exact IHx.
Qed.

Lemma meshgrid_wf xs ys zs : wf (meshgrid_ij xs ys zs).
Proof. unfold wf. rewrite length_meshgrid. simpl. lia. Qed.

Lemma linspace_Ok start stop num xs :
  linspace start stop num = Ok xs → (0 ≤ num)%Z ∧ length xs = Z.to_nat num.
Proof.
  unfold linspace. case_decide; [done|]. intros [= <-].
  split; [lia|]. by rewrite length_map, length_seq.
Qed.

Lemma box_lattice_Ok xr yr zr ppu coords :
  box_lattice xr yr zr ppu = Ok coords →
  wf coords
  ∧ lead coords = [Z.to_nat (axis_num xr.1 xr.2 ppu);
                   Z.to_nat (axis_num yr.1 yr.2 ppu);
                   Z.to_nat (axis_num zr.1 zr.2 ppu)]
  ∧ (0 ≤ axis_num xr.1 xr.2 ppu)%Z
  ∧ (0 ≤ axis_num yr.1 yr.2 ppu)%Z
  ∧ (0 ≤ axis_num zr.1 zr.2 ppu)%Z.
Proof.
  unfold box_lattice. intros H.
  apply res_bind_Ok in H as (xs & Hx & H).
  apply res_bind_Ok in H as (ys & Hy & H).
  apply res_bind_Ok in H as (zs & Hz & H).
  injection H as <-.
  apply linspace_Ok in Hx as [? Hx], Hy as [? Hy], Hz as [? Hz].
  split; [apply meshgrid_wf|]. simpl. by rewrite Hx, Hy, Hz.
Qed.

Lemma Int_part_IZR z : Int_part (IZR z) = z.
Proof. symmetry. apply Int_part_spec. lra. Qed.

Lemma py_int_IZR z : py_int (IZR z) = z.
Proof.
  unfold py_int. case_decide; [apply Int_part_IZR|].
  rewrite <-opp_IZR, Int_part_IZR. lia.
Qed.

(* ===================================================================== *)
(** ** The samplers, read backwards *)

Lemma load_cube_Ok self hr mpp kwargs w out w' :
  load_cube self hr mpp kwargs w = (Ok out, w') →
  ∃ zr ppd coords mo bq jq b j,
    cube_z_range self hr = Ok zr
    ∧ cube_pixel_per_ds self mpp = Ok ppd
    ∧ box_lattice (coord_range self).1.1 (coord_range self).1.2 zr ppd = Ok coords
    ∧ load_coords_kw (cart_base self)
        (mk_array3 [length (cells coords)] (cells coords)) true kwargs w = (Ok mo, w')
    ∧ mo !! "B" = Some (VQuantity bq) ∧ qreshape bq (lead coords) = Ok b
    ∧ mo !! "J" = Some (VQuantity jq) ∧ qreshape jq (lead coords) = Ok j
    ∧ out = {[ "B" := VQuantity b; "J" := VQuantity j; "coords" := VArray coords;
               "Mm_per_pixel" := from_option VFloat VNone mpp ]}.
Proof.
  intros H. unfold load_cube in H. inv_run H.
  rename a into zr, a0 into ppd, a1 into coords, a2 into mo, a3 into b, a4 into j.
  apply res_bind_Ok in Hstep3 as (bq & Hb & Hbr).
  apply res_bind_Ok in Hb as (vb & Hb & Hvb).
  apply res_bind_Ok in Hstep4 as (jq & Hj & Hjr).
  apply res_bind_Ok in Hj as (vj & Hj & Hvj).
  unfold getitem in Hb, Hj.
  destruct (mo !! "B") as [vb'|] eqn:HB; [|done]. injection Hb as ->.
  destruct (mo !! "J") as [vj'|] eqn:HJ; [|done]. injection Hj as ->.
  destruct vb; try done. destruct vj; try done.
  injection Hvb as ->. injection Hvj as ->.
  by exists zr, ppd, coords, mo, bq, jq, b, j.
Qed.

Lemma qreshape_Ok q s q' :
  qreshape q s = Ok q' →
  cells (avalue q') = cells (avalue q) ∧ lead (avalue q') = s ∧ aunit q' = aunit q.
Proof.
  unfold qreshape, areshape, reshape. case_decide; [|done]. simpl. by intros [= <-].
Qed.

Lemma load_lattice_Ok rr lr lonr res coords :
  load_lattice rr lr lonr res = Ok coords →
  ∃ xr yr zr, box_lattice xr yr zr res = Ok coords.
Proof.
  unfold load_lattice. intros H.
  do 9 (apply res_bind_Ok in H as (? & _ & H)). eauto.
Qed.

Lemma fill_dense_Ok s condition sub q :
  fill_dense s condition sub = Ok q →
  ∃ rows, mask_assign (replicate (numel s) vzero) condition (cells (avalue sub)) = Ok rows
          ∧ q = mk_aquantity (mk_array3 s rows) (aunit sub).
Proof.
  unfold fill_dense. simpl. intros H.
  apply res_bind_Ok in H as (rows & Hrows & [= <-]). eauto.
Qed.

Lemma load_masked_Ok self rr lr lonr coords kwargs w out w' :
  load_masked self rr lr lonr coords kwargs w = (Ok out, w') →
  let spherical_coords := map cartesian_to_spherical (cells coords) in
  let condition := map (in_window rr lr lonr) spherical_coords in
  ∃ mo sub_b sub_j b j,
    load_coords_kw (sph_base self)
      (mk_array3 [length (mask_select (cells coords) condition)]
                 (mask_select (cells coords) condition)) true kwargs w = (Ok mo, w')
    ∧ mo !! "B" = Some (VQuantity sub_b) ∧ fill_dense (lead coords) condition sub_b = Ok b
    ∧ mo !! "J" = Some (VQuantity sub_j) ∧ fill_dense (lead coords) condition sub_j = Ok j
    ∧ out = {[ "B" := VQuantity b;
               "B_rtp" := VQuantity
                 (mk_aquantity
                    (mk_array3 (lead (avalue b))
                       (zip_with vector_cartesian_to_spherical (cells (avalue b))
                                 spherical_coords))
                    (aunit b));
               "J" := VQuantity j;
               "coords" := VArray coords;
               "spherical_coords" := VArray (mk_array3 (lead coords) spherical_coords) ]}.
Proof.
  intros H spherical_coords condition. unfold load_masked in H. inv_run H.
  rename a into mo, a0 into sub_b, a1 into b, a2 into sub_j, a3 into j.
  apply res_bind_Ok in Hstep0 as (vb & Hb & Hvb).
  apply res_bind_Ok in Hstep2 as (vj & Hj & Hvj).
  unfold getitem in Hb, Hj.
  destruct (mo !! "B") as [vb'|] eqn:HB; [|done]. injection Hb as ->.
  destruct (mo !! "J") as [vj'|] eqn:HJ; [|done]. injection Hj as ->.
  destruct vb; try done. destruct vj; try done.
  injection Hvb as ->. injection Hvj as ->.
  by exists mo, sub_b, sub_j, b, j.
Qed.

Lemma load_Ok self rra lra lona resa kwargs w out w' :
  load self rra lra lona resa kwargs w = (Ok out, w') →
  ∃ lonr coords,
    lona = Some lonr
    ∧ load_lattice (default (radius_range self) rra) (default (0, PI)%R lra) lonr
        (default 64%R resa) = Ok coords
    ∧ load_masked self (default (radius_range self) rra) (default (0, PI)%R lra) lonr
        coords kwargs w = (Ok out, w').
Proof.
  intros H. unfold load in H. inv_run H.
  destruct lona as [lonr|]; [|done]. injection Hstep as <-. eauto.
Qed.

(* ===================================================================== *)
(** ** Claims on the lattices of the samplers *)

Lemma py_int_spec x :
  ((0 <= x → IZR (py_int x) <= x < IZR (py_int x) + 1)
   ∧ (x < 0 → x <= IZR (py_int x) < x + 1))%R.
Proof.
  unfold py_int. case_decide as Hx.
  - split; [|lra]. intros _. destruct (base_Int_part x). lra.
  - split; [lra|]. intros _. destruct (base_Int_part (- x)).
    rewrite opp_IZR. lra.
Qed.

Lemma unit_cube_lattice :
  box_lattice (0, 1)%R (0, 1)%R (0, 1)%R (1 / (1 / 4)) = Ok unit_cube.
Proof.
  unfold box_lattice, axis_num. cbn [fst snd].
  replace ((1 - 0) * (1 / (1 / 4)))%R with (IZR 4) by lra.
  rewrite py_int_IZR. unfold linspace. by case_decide.
Qed.

(** C5 (as stated, it fails): the samplers take [int(...)], which
    truncates, and [np.linspace] with a count of 0 gives an empty axis.  An
    axis of width 2.7 at one point per unit length gets 2 samples where
    rounding gives 3, and an axis of zero width gets no sample at all. *)
Lemma axis_samples_not_rounded :
  axis_num 0 (27 / 10) 1 = 2%Z
  ∧ ¬ spec_axis_samples 0 (27 / 10) 1 (axis_num 0 (27 / 10) 1)
  ∧ axis_num 5 5 64 = 0%Z
  ∧ linspace 5 5 (axis_num 5 5 64) = Ok []
  ∧ ¬ spec_axis_samples 5 5 64 (axis_num 5 5 64).
Proof.
  assert (axis_num 0 (27 / 10) 1 = 2%Z) as H27.
  { unfold axis_num, py_int. case_decide; [|lra].
    symmetry. apply Int_part_spec. lra. }
  assert (axis_num 5 5 64 = 0%Z) as H0.
  { unfold axis_num. replace ((5 - 5) * 64)%R with (IZR 0) by lra. apply py_int_IZR. }
  split; [done|]. split; [|split; [done|split]].
  - rewrite H27. unfold spec_axis_samples, is_round. case_decide; [lra|].
    intros Hr. unfold Rabs in Hr. destruct (Rcase_abs _) in Hr; lra.
  - by rewrite H0.
  - rewrite H0. unfold spec_axis_samples. case_decide; done.
Qed.

(** C5 (amended): for every axis of a lattice built by the cube sampler or
    the masked-region sampler, the number of samples along the axis is
    [int((max - min) * points_per_unit_length)], the product truncated
    towards zero; an axis whose range has zero width gets zero samples, and
    the lattice is then empty. *)
Theorem axis_samples_truncated xr yr zr ppu coords :
  box_lattice xr yr zr ppu = Ok coords →
  let n (r : R * R) := axis_num r.1 r.2 ppu in
  shape coords = [Z.to_nat (n xr); Z.to_nat (n yr); Z.to_nat (n zr); 3]
  ∧ length (cells coords) = Z.to_nat (n xr) * (Z.to_nat (n yr) * Z.to_nat (n zr))
  ∧ Forall (λ r, let v := ((r.2 - r.1) * ppu)%R in
                 (0 ≤ n r)%Z
                 ∧ (0 <= v → IZR (n r) <= v < IZR (n r) + 1)%R
                 ∧ (v < 0 → v <= IZR (n r) < v + 1)%R
                 ∧ (r.2 = r.1 → n r = 0%Z ∧ cells coords = []))
           [xr; yr; zr].
Proof.
  intros Hbox n.
  destruct (box_lattice_Ok _ _ _ _ _ Hbox) as (Hwf & Hlead & Hx & Hy & Hz).
  assert (length (cells coords)
          = Z.to_nat (n xr) * (Z.to_nat (n yr) * Z.to_nat (n zr))) as Hlen.
  { rewrite Hwf, Hlead. simpl. unfold n. lia. }
  split; [unfold shape; by rewrite Hlead|]. split; [done|].
  assert (∀ r, r.2 = r.1 → n r = 0%Z) as Hzero.
  { intros r Hr. unfold n, axis_num. rewrite Hr.
    replace ((r.1 - r.1) * ppu)%R with (IZR 0) by lra. apply py_int_IZR. }
  assert (∀ r, (0 ≤ n r)%Z → (n r = 0%Z → cells coords = []) →
               let v := ((r.2 - r.1) * ppu)%R in
               (0 ≤ n r)%Z
               ∧ (0 <= v → IZR (n r) <= v < IZR (n r) + 1)%R
               ∧ (v < 0 → v <= IZR (n r) < v + 1)%R
               ∧ (r.2 = r.1 → n r = 0%Z ∧ cells coords = [])) as Haxis.
  { intros r Hr Hempty v. split; [done|].
    destruct (py_int_spec v) as [Hpos Hneg]. fold (axis_num r.1 r.2 ppu) in Hpos, Hneg.
    split; [done|]. split; [done|]. intros Heq. split; [by apply Hzero|].
    by apply Hempty, Hzero. }
  constructor; [apply Haxis; [done|]
               |constructor; [apply Haxis; [done|]
                             |constructor; [apply Haxis; [done|]|constructor]]];
    intros H0; apply length_zero_iff_nil; rewrite Hlen; unfold n in *; rewrite H0; lia.
Qed.

Lemma axis_samples_truncated_witness :
  let n := Z.to_nat (axis_num 0 1 (1 / (1 / 4))) in
  shape unit_cube = [n; n; n; 3] ∧ length (cells unit_cube) = n * (n * n).
Proof.
  destruct (axis_samples_truncated (0, 1)%R (0, 1)%R (0, 1)%R (1 / (1 / 4)) unit_cube
              unit_cube_lattice) as (Hshape & Hlen & _).
  split; [exact Hshape | exact Hlen].
Defined.

(* ===================================================================== *)
(** ** Returning runs of the cube sampler *)

(** [load_cube] returns on a non-empty lattice. *)
Lemma load_cube_returns self hr mpp kwargs w zr ppd coords :
  cube_z_range self hr = Ok zr →
  cube_pixel_per_ds self mpp = Ok ppd →
  box_lattice (coord_range self).1.1 (coord_range self).1.2 zr ppd = Ok coords →
  cells coords ≠ [] →
  "compute_currents" ∉ dom kwargs →
  dom kwargs ⊆ ({[ "batch_size"; "progress" ]} : gset string) →
  (1 ≤ default default_batch_size (kw_int <$> kwargs !! "batch_size"))%Z →
  model_shaped (model (cart_base self)) → grad_enabled w = true →
  ∃ out w', load_cube self hr mpp kwargs w = (Ok out, w')
            ∧ shape_at out "B" = Some (shape coords)
            ∧ shape_at out "J" = Some (shape coords).
Proof.
  intros Hzr Hppd Hbox Hne Hcc Hdom Hbs Hm Hg.
  destruct (box_lattice_Ok _ _ _ _ _ Hbox) as (Hwf & _).
  set (flat := mk_array3 [length (cells coords)] (cells coords)).
  assert (wf flat) as Hwf' by (unfold wf; simpl; lia).
  destruct (load_coords_returns (cart_base self) flat _
              (default false (kw_truth <$> kwargs !! "progress")) true w
              Hwf' Hne Hbs Hm Hg) as (n & bq & jq & _ & _ & _ & Hlb & Hlj & Hrun).
  unfold load_cube, bind, lift. rewrite Hzr, Hppd, Hbox.
  fold flat. rewrite load_coords_kw_run by done. rewrite Hrun.
  unfold getitem. rewrite lookup_insert_ne by done.
  rewrite lookup_singleton_eq, lookup_insert_eq. simpl.
  unfold qreshape, areshape.
  rewrite !reshape_ok by (rewrite <-Hwf; done). simpl.
  eexists _, _. split; [done|]. unfold shape_at.
  rewrite lookup_insert_eq.
  rewrite lookup_insert_ne, lookup_insert_eq by done. done.
Qed.

Lemma demo_load_cube_returns :
  ∃ out w', load_cube demo_cartesian None None ∅ fresh_world = (Ok out, w').
Proof.
  assert (cube_pixel_per_ds demo_cartesian None = Ok (1 / (1 / 4))%R) as Hppd.
  { simpl. unfold py_div. case_decide; [lra|done]. }
  destruct (load_cube_returns demo_cartesian None None ∅ fresh_world (0, 1)%R _ unit_cube
              eq_refl Hppd unit_cube_lattice) as (out & w' & Hrun & _).
  - discriminate.
  - set_solver.
  - set_solver.
  - done.
  - exact identity_model_shaped.
  - reflexivity.
  - eauto.
Qed.

(* ===================================================================== *)
(** ** The wrap and the mask *)

Lemma py_mod_wrap p x : (0 < p)%R → is_wrap p x (py_mod x p).
Proof.
  intros Hp. unfold is_wrap, py_mod.
  destruct (base_Int_part (x / p)) as [Hlo Hhi].
  set (k := Int_part (x / p)) in *.
  assert (x = x / p * p)%R as Hx by (field; lra).
  split; [|exists k; lra].
  set (q := (x / p)%R) in *. clearbody q k. subst x. nra.
Qed.

Lemma in_window_true rr lr lonr r t p :
  in_window rr lr lonr (r, t, p) = true
  ↔ (rr.1 <= r < rr.2
     ∧ wrap_lat lr.1 <= wrap_lat t < wrap_lat lr.2
     ∧ wrap_lon lonr.1 <= wrap_lon p < wrap_lon lonr.2)%R.
Proof.
  unfold in_window.
  rewrite !andb_true_iff, !bool_decide_eq_true. split.
  - intros [[[[[H1 H2] H3] H4] H5] H6]. repeat split; lra.
  - intros ([H1 H2] & [H3 H4] & [H5 H6]). repeat split; lra.
Qed.

(* ===================================================================== *)
(** ** The dense fill *)

Lemma scatter_outside {A} (dense : list A) condition vals i :
  condition !! i = Some false → scatter dense condition vals !! i = dense !! i.
Proof.
  revert condition vals i. induction dense as [|d dense IH]; intros condition vals i Hi.
  - by destruct condition.
  - destruct condition as [|m condition]; [done|].
    destruct i as [|i]; simpl in Hi.
    + injection Hi as ->. done.
    + destruct m; [destruct vals|]; simpl; by apply IH.
Qed.

Lemma mask_assign_outside {A} (dense : list A) condition vals rows i :
  mask_assign dense condition vals = Ok rows →
  condition !! i = Some false → rows !! i = dense !! i.
Proof.
  unfold mask_assign. intros H Hi. case_decide.
  - injection H as <-. by apply scatter_outside.
  - destruct vals as [|v [|? ?]]; try done. injection H as <-. by apply scatter_outside.
Qed.

Lemma length_mask_select {A} (rows : list A) condition :
  length rows = length condition →
  length (mask_select rows condition) = mask_count condition.
Proof.
  unfold mask_count. revert condition.
  induction rows as [|r rows IH]; intros [|m condition] Hlen; try done.
  injection Hlen as Hlen. destruct m; cbn [mask_select].
  - rewrite filter_cons, decide_True by done. cbn [length]. f_equal. by apply IH.
  - rewrite filter_cons, decide_False by done. by apply IH.
Qed.

Lemma rotate_zero sc : vector_cartesian_to_spherical vzero sc = vzero.
Proof.
  destruct sc as [[r t] p]. unfold vector_cartesian_to_spherical, vzero.
  repeat f_equal; ring.
Qed.

Lemma fill_dense_outside s condition sub q i :
  fill_dense s condition sub = Ok q →
  length condition = numel s → condition !! i = Some false →
  cells (avalue q) !! i = Some vzero.
Proof.
  intros Hq Hlen Hi.
  apply fill_dense_Ok in Hq as (rows & Hrows & ->). simpl.
  rewrite (mask_assign_outside _ _ _ _ _ Hrows Hi).
  apply lookup_replicate_2. rewrite <-Hlen. by eapply lookup_lt_Some.
Qed.

(** C7: in the result of the masked part of [load], every dense cell
    outside the coverage mask is exactly zero in ['B'], in ['J'] and in the
    rotated ['B_rtp']. *)
Theorem dense_fill_zero self rr lr lonr coords kwargs w out w' :
  wf coords →
  load_masked self rr lr lonr coords kwargs w = (Ok out, w') →
  ∃ b b_rtp j,
    out !! "B" = Some (VQuantity b)
    ∧ out !! "B_rtp" = Some (VQuantity b_rtp)
    ∧ out !! "J" = Some (VQuantity j)
    ∧ ∀ i p, cells coords !! i = Some p →
             in_window rr lr lonr (cartesian_to_spherical p) = false →
             cells (avalue b) !! i = Some vzero
             ∧ cells (avalue j) !! i = Some vzero
             ∧ cells (avalue b_rtp) !! i = Some vzero.
Proof.
  intros Hwf H.
  apply load_masked_Ok in H as (mo & sub_b & sub_j & b & j & _ & _ & Hb & _ & Hj & ->).
  eexists b, _, j.
  split; [apply lookup_insert_eq|].
  split; [rewrite lookup_insert_ne by done; apply lookup_insert_eq|].
  split; [do 2 rewrite lookup_insert_ne by done; apply lookup_insert_eq|].
  intros i p Hp Hout.
  set (condition := map (in_window rr lr lonr)
                        (map cartesian_to_spherical (cells coords))) in *.
  assert (condition !! i = Some false) as Hi.
  { unfold condition. rewrite !list_lookup_fmap, Hp. simpl. by rewrite Hout. }
  assert (length condition = numel (lead coords)) as Hlen.
  { unfold condition. by rewrite !length_map. }
  pose proof (fill_dense_outside _ _ _ _ _ Hb Hlen Hi) as Hbi.
  pose proof (fill_dense_outside _ _ _ _ _ Hj Hlen Hi) as Hji.
  split; [done|]. split; [done|]. simpl.
  rewrite lookup_zip_with, Hbi, list_lookup_fmap, Hp.
  change (Some (vector_cartesian_to_spherical vzero (cartesian_to_spherical p))
          = Some vzero).
  by rewrite rotate_zero.
Qed.

Lemma fill_dense_returns s condition sub :
  length (cells (avalue sub)) = mask_count condition →
  ∃ q, fill_dense s condition sub = Ok q.
Proof.
  intros Hlen. unfold fill_dense, mask_assign. rewrite decide_True by done.
  simpl. eauto.
Qed.

(** The masked part of [load] returns when the mask selects a point. *)
Lemma load_masked_returns self rr lr lonr coords kwargs w :
  let condition :=
    map (in_window rr lr lonr) (map cartesian_to_spherical (cells coords)) in
  mask_select (cells coords) condition ≠ [] →
  "compute_currents" ∉ dom kwargs →
  dom kwargs ⊆ ({[ "batch_size"; "progress" ]} : gset string) →
  (1 ≤ default default_batch_size (kw_int <$> kwargs !! "batch_size"))%Z →
  model_shaped (model (sph_base self)) → grad_enabled w = true →
  ∃ out w', load_masked self rr lr lonr coords kwargs w = (Ok out, w').
Proof.
  intros condition Hne Hcc Hdom Hbs Hm Hg.
  set (sub_rows := mask_select (cells coords) condition) in *.
  set (sub_coords := mk_array3 [length sub_rows] sub_rows).
  assert (wf sub_coords) as Hwf by (unfold wf; simpl; lia).
  destruct (load_coords_returns (sph_base self) sub_coords _
              (default false (kw_truth <$> kwargs !! "progress")) true w
              Hwf Hne Hbs Hm Hg) as (n & bq & jq & _ & _ & _ & Hlb & Hlj & Hrun).
  assert (length sub_rows = mask_count condition) as Hcount.
  { apply length_mask_select. unfold condition. by rewrite !length_map. }
  simpl in Hlb, Hlj. rewrite Hcount in Hlb, Hlj.
  destruct (fill_dense_returns (lead coords) condition bq Hlb) as (b & Hb).
  destruct (fill_dense_returns (lead coords) condition jq Hlj) as (j & Hj).
  unfold load_masked, bind, lift. cbn [cells lead].
  fold condition. fold sub_rows. fold sub_coords.
  rewrite load_coords_kw_run by done. rewrite Hrun.
  unfold getitem. rewrite lookup_insert_ne by done.
  rewrite lookup_singleton_eq, lookup_insert_eq. cbn [res_bind as_quantity].
  rewrite Hb, Hj. unfold ret. eauto.
Qed.

Lemma py_mod_small x p : (0 <= x < p)%R → py_mod x p = x.
Proof.
  intros Hx. unfold py_mod.
  assert (Int_part (x / p) = 0%Z) as ->.
  { symmetry. apply Int_part_spec.
    assert (x = x / p * p)%R as Hq by (field; lra).
    set (q := (x / p)%R) in *. clearbody q. subst x. split; nra. }
  lra.
Qed.

Lemma cartesian_to_spherical_z_axis z :
  (0 < z)%R → cartesian_to_spherical (0, 0, z)%R = (z, 0, 0)%R.
Proof.
  intros Hz. unfold cartesian_to_spherical.
  replace (0 * 0 + 0 * 0 + z * z)%R with (z * z)%R by ring.
  replace (0 * 0 + 0 * 0)%R with 0%R by ring.
  rewrite sqrt_square by lra. rewrite sqrt_0, decide_True by done.
  replace (z / z)%R with 1%R by (field; lra). by rewrite acos_1.
Qed.

Lemma z_axis_mask :
  map (in_window (1, 2)%R (0, 1)%R (0, 1)%R)
      (map cartesian_to_spherical (cells z_axis_lattice)) = [true; false].
Proof.
  pose proof PI2_3_2 as Hpi.
  assert (wrap_lat 0 = 0 ∧ wrap_lat 1 = 1 ∧ wrap_lon 0 = 0 ∧ wrap_lon 1 = 1)%R
    as (Ha & Hb & Hc & Hd)
    by (unfold wrap_lat, wrap_lon; repeat split; apply py_mod_small; lra).
  unfold z_axis_lattice. cbn [cells map]. rewrite !cartesian_to_spherical_z_axis by lra.
  f_equal; [|f_equal].
  - apply in_window_true. cbn [fst snd]. rewrite Ha, Hb, Hc, Hd. lra.
  - apply not_true_is_false. rewrite in_window_true. cbn [fst snd]. lra.
Qed.

Lemma dense_fill_zero_witness :
  ∃ out b b_rtp j,
    outcome (load_masked demo_spherical (1, 2)%R (0, 1)%R (0, 1)%R z_axis_lattice ∅)
            fresh_world = Ok out
    ∧ out !! "B" = Some (VQuantity b)
    ∧ out !! "B_rtp" = Some (VQuantity b_rtp)
    ∧ out !! "J" = Some (VQuantity j)
    ∧ cells (avalue b) !! 1 = Some vzero
    ∧ cells (avalue j) !! 1 = Some vzero
    ∧ cells (avalue b_rtp) !! 1 = Some vzero.
Proof.
  pose proof z_axis_mask as Hmask.
  destruct (load_masked_returns demo_spherical (1, 2)%R (0, 1)%R (0, 1)%R
              z_axis_lattice ∅ fresh_world) as (out & w' & Hrun).
  - rewrite Hmask. discriminate.
  - set_solver.
  - set_solver.
  - done.
  - exact identity_model_shaped.
  - reflexivity.
  - destruct (dense_fill_zero demo_spherical (1, 2)%R (0, 1)%R (0, 1)%R
                z_axis_lattice ∅ fresh_world out w' eq_refl Hrun)
      as (b & b_rtp & j & HB & HR & HJ & Hcells).
    destruct (Hcells 1 (0, 0, 3)%R eq_refl) as (Hb & Hj & Hr).
    { injection Hmask as _ Hfalse. exact Hfalse. }
    exists out, b, b_rtp, j. unfold outcome. rewrite Hrun. done.
Defined.

(* ===================================================================== *)
(** ** [load_spherical] and the caller's [latitude_range] *)

Lemma heap_stable_bind {A B} (m : M A) (k : A → M B) :
  heap_stable m → (∀ a, heap_stable (k a)) → heap_stable (bind m k).
Proof.
  intros Hm Hk w. unfold bind. specialize (Hm w).
  destruct (m w) as [[a|e] w1]; simpl in *; [|done].
  by rewrite Hk.
Qed.

Lemma heap_stable_lift {A} (r : result A) : heap_stable (lift r).
Proof. by intros w. Qed.

Lemma heap_stable_ret {A} (a : A) : heap_stable (ret a).
Proof. by intros w. Qed.

Lemma heap_stable_emit e : heap_stable (emit e).
Proof. by intros w. Qed.

Lemma heap_stable_no_grad {A} (m : M A) : heap_stable m → heap_stable (no_grad m).
Proof.
  intros Hm w. unfold no_grad.
  specialize (Hm (mk_world false (trace w) (heap w))).
  by destruct (m _) as [r w1].
Qed.

Ltac solve_heap_stable :=
  repeat first
    [ apply heap_stable_ret | apply heap_stable_lift | apply heap_stable_emit
    | apply heap_stable_bind; [|intros ?] ].

Lemma heap_stable_load_batches self bs cc coords it cube j_cube :
  heap_stable (load_batches self bs cc coords it cube j_cube).
Proof.
  revert cube j_cube. induction it as [|k it IH]; intros cube j_cube; simpl.
  - apply heap_stable_ret.
  - apply heap_stable_bind; [apply heap_stable_emit|intros _].
    apply heap_stable_bind; [|intros r].
    { unfold call_model. apply heap_stable_bind; [by intros w|intros g].
      solve_heap_stable. }
    apply heap_stable_bind; [|intros jc; apply IH].
    destruct cc; solve_heap_stable.
Qed.

Lemma heap_stable_load_coords self coords bs pr cc :
  heap_stable (load_coords self coords bs pr cc).
Proof.
  assert (heap_stable (_load self bs pr cc coords)) as Hload.
  { unfold _load. apply heap_stable_bind; [apply heap_stable_lift|intros n].
    apply heap_stable_bind; [apply heap_stable_load_batches|intros [cube j_cube]].
    solve_heap_stable. destruct cc; solve_heap_stable. }
  unfold load_coords. destruct (cc || _requires_grad self); [done|].
  by apply heap_stable_no_grad.
Qed.

Lemma heap_stable_load_coords_kw self coords cc kwargs :
  heap_stable (load_coords_kw self coords cc kwargs).
Proof.
  unfold load_coords_kw. repeat case_decide;
    [apply heap_stable_lift|apply heap_stable_load_coords|apply heap_stable_lift].
Qed.

Lemma heap_stable_deref l : heap_stable (deref l).
Proof. intros w. unfold deref. by destruct (heap w !! l). Qed.

(** The heap [load_spherical] leaves behind, whatever its outcome: the
    array it was given, or the default one, has moved by pi/2. *)
Lemma load_spherical_heap self rra latitude_range lona sampling kwargs w lo hi :
  let l := default load_spherical_default_latitude_range latitude_range in
  heap w !! l = Some (lo, hi) →
  heap (final (load_spherical self rra latitude_range lona sampling kwargs) w)
  = <[ l := ((lo + PI / 2)%R, (hi + PI / 2)%R) ]> (heap w).
Proof.
  intros l Hl. unfold final, load_spherical. destruct sampling as [[s0 s1] s2].
  fold l. unfold bind at 1. unfold iadd at 1. rewrite Hl.
  match goal with
  | |- heap (?k ?a ?w1).2 = _ => assert (heap_stable (k a)) as Hrest
  end.
  { repeat first
      [ apply heap_stable_ret | apply heap_stable_lift | apply heap_stable_deref
      | apply heap_stable_load_coords_kw | apply heap_stable_bind; [|intros ?] ]. }
  by rewrite Hrest.
Qed.

(** C6 (the code departs from it): [load_spherical] adds pi/2 to the
    caller's [latitude_range] array in place, so after the call, whether it
    returned or raised, the caller's object holds other values than
    before. *)
Theorem load_spherical_mutates_latitude_range self rra (l : loc) lona sampling kwargs
    w lo hi :
  heap w !! l = Some (lo, hi) →
  let w' := final (load_spherical self rra (Some l) lona sampling kwargs) w in
  heap w' !! l = Some ((lo + PI / 2)%R, (hi + PI / 2)%R)
  ∧ heap w' !! l ≠ heap w !! l.
Proof.
  intros Hl w'.
  assert (heap w' !! l = Some ((lo + PI / 2)%R, (hi + PI / 2)%R)) as Hafter.
  { unfold w'.
    rewrite (load_spherical_heap self rra (Some l) lona sampling kwargs w lo hi Hl).
    apply lookup_insert_eq. }
  split; [done|]. rewrite Hafter, Hl. intros [= Hlo _].
  pose proof PI_RGT_0. lra.
Qed.

Lemma load_spherical_mutates_latitude_range_witness :
  let run := load_spherical demo_spherical None (Some caller_latitude_range)
               (Some (0, 2 * PI)%R) (2, 2, 2)%Z ∅ in
  heap caller_world !! caller_latitude_range = Some (- (PI / 4), PI / 4)%R
  ∧ heap (final run caller_world) !! caller_latitude_range
    = Some (- (PI / 4) + PI / 2, PI / 4 + PI / 2)%R.
Proof.
  split; [reflexivity|].
  exact (proj1 (load_spherical_mutates_latitude_range demo_spherical None
                  caller_latitude_range (Some (0, 2 * PI)%R) (2, 2, 2)%Z ∅
                  caller_world _ _ eq_refl)).
Defined.

(** The same happens to the default of [latitude_range], which is built
    once: each call that omits the argument shifts it for the next one. *)
Lemma load_spherical_default_drifts self rra lona sampling kwargs w lo hi :
  heap w !! load_spherical_default_latitude_range = Some (lo, hi) →
  heap (final (load_spherical self rra None lona sampling kwargs) w)
    !! load_spherical_default_latitude_range
  = Some ((lo + PI / 2)%R, (hi + PI / 2)%R).
Proof.
  intros Hl.
  rewrite (load_spherical_heap self rra None lona sampling kwargs w lo hi Hl).
  apply lookup_insert_eq.
Qed.

(* ===================================================================== *)
(** ** The metrics of a current-free field *)

Lemma fnorm_fin v :
  fnorm (fin3 v) = Fin (sqrt (comp0 v * comp0 v + comp1 v * comp1 v + comp2 v * comp2 v)).
Proof.
  destruct v as [[x y] z]. unfold fnorm, fin3, F.sqrt. simpl.
  rewrite decide_False; [done|]. nra.
Qed.

Lemma fnorm_zero : fnorm (fin3 vzero) = Fin 0.
Proof.
  rewrite fnorm_fin. simpl. f_equal.
  replace (0 * 0 + 0 * 0 + 0 * 0)%R with 0%R by ring. apply sqrt_0.
Qed.

Lemma fcross_zero v : fcross (fin3 vzero) (fin3 v) = fin3 vzero.
Proof.
  destruct v as [[x y] z]. unfold fcross, fin3, vzero, F.sub. simpl.
  repeat f_equal; ring.
Qed.

Lemma sum_nan l : fold_left F.add l NaN = NaN.
Proof. induction l as [|a l IH]; [done|]. simpl. by destruct a. Qed.

Lemma sum_zeros {A} (l : list A) : F.sum (map (λ _, Fin 0) l) = Fin 0.
Proof.
  unfold F.sum. induction l as [|a l IH]; [done|].
  simpl. by rewrite Rplus_0_l.
Qed.

(** Per point, with no current: [sigma] is 0/0, the weight is 0. *)
Lemma sigma_zero_current v :
  F.div (fnorm (fcross (fin3 vzero) (fin3 v)))
        (F.mul (fnorm (fin3 v)) (fnorm (fin3 vzero))) = NaN.
Proof.
  rewrite fcross_zero, fnorm_zero, fnorm_fin. simpl.
  rewrite decide_True by ring. by rewrite decide_True.
Qed.

Lemma ff_zero_current v :
  F.div (fnorm (fcross (fin3 vzero) (fin3 v))) (F.add (fnorm (fin3 v)) (Fin eps7)) = Fin 0.
Proof.
  rewrite fcross_zero, fnorm_zero, fnorm_fin. simpl.
  match goal with |- context [sqrt ?x] => pose proof (sqrt_pos x) as Hs end.
  rewrite decide_False by (unfold eps7; lra).
  f_equal. unfold Rdiv. ring.
Qed.

Lemma theta_J_zero_current (bs : list vec3) :
  theta_J (map fin3 bs) (map (λ _, fin3 vzero) bs) = NaN.
Proof.
  unfold theta_J.
  assert (zip_with F.mul
            (zip_with (λ c n, F.div (fnorm c) n)
               (zip_with fcross (map (λ _, fin3 vzero) bs) (map fin3 bs))
               (zip_with (λ bi ji, F.mul (fnorm bi) (fnorm ji)) (map fin3 bs)
                  (map (λ _, fin3 vzero) bs)))
            (map fnorm (map (λ _, fin3 vzero) bs))
          = map (λ _, NaN) bs) as ->.
  { induction bs as [|v bs IH]; [done|].
    cbn [map zip_with]. rewrite IH, sigma_zero_current. done. }
  assert (map fnorm (map (λ _ : vec3, fin3 vzero) bs) = map (λ _, Fin 0) bs) as ->.
  { rewrite map_map. apply map_ext. intros _. apply fnorm_zero. }
  rewrite sum_zeros.
  destruct bs as [|v bs]; simpl.
  - rewrite decide_True by done. by rewrite decide_True.
  - unfold F.sum. simpl. by rewrite sum_nan.
Qed.

Lemma ff_loss_zero_current (b0 : vec3) (bs : list vec3) :
  ff_loss (map fin3 (b0 :: bs)) (map (λ _, fin3 vzero) (b0 :: bs)) = Fin 0.
Proof.
  unfold ff_loss, b_norm.
  assert (∀ l : list vec3,
            zip_with F.div
              (map fnorm (zip_with fcross (map (λ _, fin3 vzero) l) (map fin3 l)))
              (map (λ bi, F.add (fnorm bi) (Fin eps7)) (map fin3 l))
            = map (λ _, Fin 0) l) as ->.
  { induction l as [|v l IH]; [done|].
    cbn [map zip_with]. by rewrite IH, ff_zero_current. }
  unfold F.mean. rewrite sum_zeros, length_map.
  unfold F.div. rewrite decide_False.
  - f_equal. unfold Rdiv. ring.
  - apply not_0_INR. done.
Qed.

(** C8 (the code departs from it): with the current density zero at every
    point of a finite field, the force-free score is zero, but the
    current-weighted misalignment angle [theta_J] is not-a-number: the
    weights and the norm product are zero, and [0 / 0] goes through the
    clip and the inverse sine unchanged. *)
Theorem zero_current_metrics (b0 : vec3) (bs : list vec3) :
  let b := map fin3 (b0 :: bs) in
  let j := map (λ _, fin3 vzero) (b0 :: bs) in
  ff_loss b j = Fin 0 ∧ theta_J b j = NaN ∧ theta_J b j ≠ Fin 0.
Proof.
  intros b j. split; [apply ff_loss_zero_current|].
  unfold b, j. rewrite theta_J_zero_current. done.
Qed.

(** The callback on one point with unit field and no current. *)
Lemma zero_current_callback :
  ∃ m, on_validation_epoch_end "validation" (Fin 1) (Fin 1) zero_current_outputs = Some m
       ∧ m_force_free m = Fin 0 ∧ m_theta_J m = NaN.
Proof.
  unfold on_validation_epoch_end, zero_current_outputs. rewrite lookup_singleton_eq.
  eexists. split; [done|]. cbn [m_force_free m_theta_J out_b out_j].
  assert (map (fscale (Fin 1)) [fin3 (1, 0, 0)%R] = map fin3 [(1, 0, 0)%R]) as ->.
  { simpl. by rewrite !Rmult_1_r. }
  assert (map (λ v, funscale (Fin 1) (fscale (Fin 1) v)) [fin3 vzero]
          = map (λ _, fin3 vzero) [(1, 0, 0)%R]) as ->.
  { simpl. rewrite decide_False by lra. unfold vzero, fin3.
    repeat f_equal; unfold Rdiv; ring. }
  split; [apply ff_loss_zero_current | apply theta_J_zero_current].
Qed.

(* ===================================================================== *)
(** * Further properties of the evaluator *)

Lemma reshape_Ok rows s a :
  reshape rows s = Ok a → a = mk_array3 s rows ∧ length rows = numel s.
Proof. unfold reshape. case_decide; [|done]. by intros [= <-]. Qed.

(** What a returned dictionary of [_load] looks like, whatever the model
    and the gradient mode. *)
Lemma _load_Ok self bs pr cc coords w mo w' :
  _load self bs pr cc coords w = (Ok mo, w') →
  ∃ bq jq,
    mo = (if cc then <[ "J" := VQuantity jq ]> {[ "B" := VQuantity bq ]}
          else {[ "B" := VQuantity bq ]})
    ∧ lead (avalue bq) = lead coords ∧ wf (avalue bq) ∧ aunit bq = mk_unit 1 0 0
    ∧ (cc = true →
       lead (avalue jq) = lead coords ∧ wf (avalue jq)
       ∧ aunit jq = mk_unit 2 (-1) (-1)).
Proof.
  intros H. unfold _load in H. cbn [amap lead cells reshape_rows] in H.
  apply bind_Ok in H as (n & w1 & Hn & H).
  apply bind_Ok in H as ([cube j_cube] & w2 & Hloop & H).
  apply bind_Ok in H as (cube1 & w3 & Hcat & H). apply lift_Ok in Hcat as [Hcat ->].
  apply bind_Ok in H as (cube2 & w4 & Hre & H). apply lift_Ok in Hre as [Hre ->].
  apply reshape_Ok in Hre as [-> Hlen].
  destruct cc.
  - apply bind_Ok in H as (j1 & w5 & Hjcat & H). apply lift_Ok in Hjcat as [Hjcat ->].
    apply bind_Ok in H as (j2 & w6 & Hjre & H). apply lift_Ok in Hjre as [Hjre ->].
    apply reshape_Ok in Hjre as [-> Hjlen].
    apply ret_Ok in H as [-> ->].
    eexists _, _. split; [done|]. cbn.
    repeat split; try done; unfold wf; cbn; by rewrite !length_map.
  - apply ret_Ok in H as [-> ->].
    eexists _, (plain (mk_array3 [] [])). split; [done|]. cbn.
    repeat split; try done. unfold wf. cbn. by rewrite !length_map.
Qed.

Lemma load_coords_Ok self coords bs pr cc w mo w' :
  load_coords self coords bs pr cc w = (Ok mo, w') →
  ∃ w1 w1', _load self bs pr cc coords w1 = (Ok mo, w1').
Proof.
  unfold load_coords, no_grad. destruct (cc || _requires_grad self); [eauto|].
  destruct (_load _ _ _ _ _ _) as [r w1] eqn:Hrun. intros [= -> _]. eauto.
Qed.

(** X1 (any model): when [load_coords] returns, whatever the model and
    the gradient mode, every array it returns is well formed and has the
    shape of the input grid, ['B'] is in gauss and ['J'], present exactly
    when [compute_currents] is true, in G^2 / (m s); the dictionary has no
    other key. *)
Theorem load_coords_output_well_formed self coords bs pr cc w mo w' :
  load_coords self coords bs pr cc w = (Ok mo, w') →
  ∃ bq,
    mo !! "B" = Some (VQuantity bq)
    ∧ shape (avalue bq) = shape coords ∧ wf (avalue bq)
    ∧ aunit bq = mk_unit 1 0 0
    ∧ (if cc then
         ∃ jq, mo !! "J" = Some (VQuantity jq)
               ∧ shape (avalue jq) = shape coords ∧ wf (avalue jq)
               ∧ aunit jq = mk_unit 2 (-1) (-1)
               ∧ dom mo = ({[ "B"; "J" ]} : gset string)
       else mo !! "J" = None ∧ dom mo = ({[ "B" ]} : gset string)).
Proof.
  intros H. apply load_coords_Ok in H as (w1 & w1' & H).
  apply _load_Ok in H as (bq & jq & -> & Hlead & Hwf & Hunit & Hj).
  exists bq. unfold shape. rewrite Hlead. destruct cc.
  - rewrite lookup_insert_ne by done. rewrite lookup_singleton_eq.
    repeat split; try done. destruct (Hj eq_refl) as (Hjl & Hjwf & Hju).
    exists jq. rewrite lookup_insert_eq, Hjl.
    repeat split; try done; rewrite dom_insert_L, dom_singleton_L; set_solver.
  - rewrite lookup_singleton_eq, lookup_singleton_ne by done.
    repeat split; try done; by rewrite dom_singleton_L.
Qed.

Lemma load_coords_output_well_formed_witness :
  ∃ mo bq, outcome (load_coords demo_output two_points 1 false false) fresh_world = Ok mo
           ∧ mo !! "B" = Some (VQuantity bq)
           ∧ shape (avalue bq) = [2; 3] ∧ aunit bq = mk_unit 1 0 0
           ∧ mo !! "J" = None.
Proof.
  destruct (load_coords_returns demo_output two_points 1 false false fresh_world)
    as (n & bq0 & jq0 & _ & _ & _ & _ & _ & Hrun);
    [reflexivity | discriminate | lia | exact identity_model_shaped | reflexivity |].
  destruct (load_coords_output_well_formed _ _ _ _ _ _ _ _ Hrun)
    as (bq & HB & Hshape & _ & Hunit & HJ & _).
  eexists _, bq. unfold outcome. rewrite Hrun. done.
Defined.

Lemma world_eta w : mk_world (grad_enabled w) (trace w) (heap w) = w.
Proof. by destruct w. Qed.

Lemma _load_no_chunk self bs pr cc coords w :
  (bs < 0)%Z ∨ (bs ≠ 0%Z ∧ cells coords = []) →
  _load self bs pr cc coords w = (Raise ValueError, w).
Proof.
  intros Hno. unfold _load. cbn [amap lead cells reshape_rows].
  rewrite length_map. unfold bind at 1. unfold lift at 1, ceil_div.
  rewrite decide_False by (destruct Hno as [?|[? _]]; lia).
  assert (Z.to_nat (- (- Z.of_nat (length (cells coords)) / bs)) = 0) as Hz.
  { destruct Hno as [Hneg|[_ ->]]; [|by simpl].
    assert (0 ≤ - Z.of_nat (length (cells coords)) / bs)%Z; [|lia].
    rewrite <-(Z.div_opp_opp _ bs) by lia. rewrite Z.opp_involutive.
    apply Z.div_pos; lia. }
  unfold range. rewrite Hz. done.
Qed.

(** X2 (no chunk): with a batch size of 0 [load_coords] raises
    [ZeroDivisionError]; with a negative batch size, or on a grid without
    points, there is no chunk and [torch.cat] raises [ValueError].  In
    all three cases the model is not called and the world is left as it
    was, whatever the gradient mode on entry. *)
Theorem load_coords_no_chunk self coords bs pr cc w :
  (bs ≤ 0)%Z ∨ cells coords = [] →
  load_coords self coords bs pr cc w
  = (Raise (if decide (bs = 0%Z) then ZeroDivisionError else ValueError), w).
Proof.
  intros Hno.
  assert (∀ w0, _load self bs pr cc coords w0
                = (Raise (if decide (bs = 0%Z) then ZeroDivisionError else ValueError),
                   w0)) as Hload.
  { intros w0. case_decide as Hbs.
    - subst bs. apply _load_zero_batch.
    - apply _load_no_chunk. destruct Hno; [left; lia | by right]. }
  unfold load_coords, no_grad.
  destruct (cc || _requires_grad self); rewrite Hload; [done|].
  simpl. by rewrite world_eta.
Qed.

Lemma load_coords_no_chunk_witness :
  load_coords demo_output two_points (-4) false true fresh_world
  = (Raise ValueError, fresh_world).
Proof.
  apply (load_coords_no_chunk demo_output two_points (-4) false true fresh_world).
  left. lia.
Defined.

(* ===================================================================== *)
(** ** What the methods leave untouched *)

Lemma mode_stable_bind {A B} (m : M A) (k : A → M B) :
  mode_stable m → (∀ a, mode_stable (k a)) → mode_stable (bind m k).
Proof.
  intros Hm Hk w. unfold bind. specialize (Hm w).
  destruct (m w) as [[a|e] w1]; simpl in *; [|done].
  by rewrite Hk.
Qed.

Lemma mode_stable_lift {A} (r : result A) : mode_stable (lift r).
Proof. by intros w. Qed.

Lemma mode_stable_ret {A} (a : A) : mode_stable (ret a).
Proof. by intros w. Qed.

Lemma mode_stable_emit e : mode_stable (emit e).
Proof. by intros w. Qed.

Lemma mode_stable_no_grad {A} (m : M A) : mode_stable (no_grad m).
Proof. intros w. unfold no_grad. by destruct (m _) as [r w1]. Qed.

Lemma mode_stable_deref l : mode_stable (deref l).
Proof. intros w. unfold deref. by destruct (heap w !! l). Qed.

Lemma mode_stable_iadd l x : mode_stable (iadd l x).
Proof. intros w. unfold iadd. by destruct (heap w !! l) as [[a b]|]. Qed.

Lemma mode_stable_load_batches self bs cc coords it cube j_cube :
  mode_stable (load_batches self bs cc coords it cube j_cube).
Proof.
  revert cube j_cube. induction it as [|k it IH]; intros cube j_cube; simpl.
  - apply mode_stable_ret.
  - apply mode_stable_bind; [apply mode_stable_emit|intros _].
    apply mode_stable_bind; [|intros r].
    { unfold call_model. apply mode_stable_bind; [by intros w|intros g].
      apply mode_stable_bind; [apply mode_stable_emit|intros _]. apply mode_stable_ret. }
    apply mode_stable_bind; [|intros jc; apply IH].
    destruct cc; [|apply mode_stable_ret].
    apply mode_stable_bind; [apply mode_stable_lift|intros ?; apply mode_stable_ret].
Qed.

Ltac solve_mode_stable :=
  repeat first
    [ apply mode_stable_ret | apply mode_stable_lift | apply mode_stable_emit
    | apply mode_stable_deref | apply mode_stable_iadd | apply mode_stable_no_grad
    | apply mode_stable_load_batches
    | apply mode_stable_bind; [|intros ?] ].

Lemma mode_stable_load_coords self coords bs pr cc :
  mode_stable (load_coords self coords bs pr cc).
Proof.
  unfold load_coords. destruct (cc || _requires_grad self);
    [|apply mode_stable_no_grad].
  unfold _load. apply mode_stable_bind; [apply mode_stable_lift|intros n].
  apply mode_stable_bind; [apply mode_stable_load_batches|intros [cube j_cube]].
  solve_mode_stable. destruct cc; solve_mode_stable.
Qed.

Lemma mode_stable_load_coords_kw self coords cc kwargs :
  mode_stable (load_coords_kw self coords cc kwargs).
Proof.
  unfold load_coords_kw. repeat case_decide;
    [apply mode_stable_lift|apply mode_stable_load_coords|apply mode_stable_lift].
Qed.

Lemma heap_stable_load_cube self hr mpp kwargs : heap_stable (load_cube self hr mpp kwargs).
Proof.
  unfold load_cube.
  repeat first
    [ apply heap_stable_ret | apply heap_stable_lift
    | apply heap_stable_load_coords_kw | apply heap_stable_bind; [|intros ?] ].
Qed.

Lemma heap_stable_load self rra lra lona resa kwargs :
  heap_stable (load self rra lra lona resa kwargs).
Proof.
  unfold load, load_masked.
  repeat first
    [ apply heap_stable_ret | apply heap_stable_lift
    | apply heap_stable_load_coords_kw | apply heap_stable_bind; [|intros ?] ].
Qed.

(** X3 (frame): every public method leaves torch's gradient mode as it
    found it, also when it raises (the no-grad block restores the mode on
    the way out); [load_coords], [load_cube], [load] and
    [load_spherical_coords] never write to the arrays shared with the
    caller. *)
Theorem methods_restore_world (base : BaseOutput) (cart : CartesianOutput)
    (sph : SphericalOutput) coords bs pr cc hr mpp rra lra lona resa latitude_range
    sampling sky kwargs w :
  let same (m : M (gmap string pyval)) :=
    grad_enabled (final m w) = grad_enabled w ∧ heap (final m w) = heap w in
  same (load_coords base coords bs pr cc)
  ∧ same (load_cube cart hr mpp kwargs)
  ∧ same (load sph rra lra lona resa kwargs)
  ∧ same (load_spherical_coords sph sky)
  ∧ grad_enabled (final (load_spherical sph rra latitude_range lona sampling kwargs) w)
    = grad_enabled w.
Proof.
  intros same. unfold same, final. repeat split.
  - apply mode_stable_load_coords.
  - apply heap_stable_load_coords.
  - revert w same. change (mode_stable (load_cube cart hr mpp kwargs)).
    unfold load_cube. solve_mode_stable. apply mode_stable_load_coords_kw.
    all: solve_mode_stable.
  - apply heap_stable_load_cube.
  - revert w same. change (mode_stable (load sph rra lra lona resa kwargs)).
    unfold load, load_masked. solve_mode_stable. apply mode_stable_load_coords_kw.
    all: solve_mode_stable.
  - apply heap_stable_load.
  - apply mode_stable_load_coords.
  - apply heap_stable_load_coords.
  - revert w same.
    change (mode_stable (load_spherical sph rra latitude_range lona sampling kwargs)).
    unfold load_spherical. destruct sampling as [[s0 s1] s2].
    solve_mode_stable. apply mode_stable_load_coords_kw.
    all: solve_mode_stable.
Qed.

(* ===================================================================== *)
(** ** The chunks the model sees *)

Lemma ceil_div_tight (len : nat) (b : Z) :
  (1 ≤ b)%Z →
  ∃ n : nat, ceil_div (Z.of_nat len) b = Ok (Z.of_nat n)
             ∧ len ≤ n * Z.to_nat b
             ∧ (∀ k, k < n → k * Z.to_nat b < len).
Proof.
  intros Hb. unfold ceil_div. case_decide; [lia|].
  set (q := (- (- Z.of_nat len / b))%Z).
  assert (Hq : (Z.of_nat len ≤ q * b < Z.of_nat len + b)%Z).
  { pose proof (Z.div_mod (- Z.of_nat len) b ltac:(lia)) as Hdm.
    pose proof (Z.mod_pos_bound (- Z.of_nat len) b ltac:(lia)) as Hmod.
    unfold q. nia. }
  assert (0 ≤ q)%Z by nia.
  exists (Z.to_nat q). rewrite Z2Nat.id by done. split; [done|].
  split; [nia|]. intros k Hk. nia.
Qed.

Lemma length_chunk rows (bs : nat) k :
  length (chunk rows (Z.of_nat bs) k) = min bs (length rows - k * bs).
Proof. by rewrite chunk_nat, length_take, length_drop. Qed.

Lemma length_chunk_Z rows (bs : Z) k :
  (1 ≤ bs)%Z →
  length (chunk rows bs k) = min (Z.to_nat bs) (length rows - k * Z.to_nat bs).
Proof. intros. rewrite <-(Z2Nat.id bs) at 1 by lia. apply length_chunk. Qed.

Lemma points_evaluated_batch_events g rows bs it :
  points_evaluated (batch_events g rows bs it)
  = length (concat (map (chunk rows bs) it)).
Proof.
  unfold points_evaluated, batch_events.
  induction it as [|k it IH]; [done|].
  cbn [flat_map map concat app sum_list sum_list_with]. rewrite length_app.
  unfold sum_list in *. cbn [map sum_list_with]. by rewrite IH.
Qed.

Lemma lookup_pairs {A B} (f h : A → B) (l : list A) i :
  flat_map (λ k, [f k; h k]) l !! (2 * i + 1) = h <$> l !! i.
Proof.
  revert i. induction l as [|a l IH]; intros i; [done|].
  destruct i as [|i]; [done|].
  replace (2 * S i + 1) with (S (S (2 * i + 1))) by lia. apply IH.
Qed.

Lemma lookup_pairs_even {A B} (f h : A → B) (l : list A) i :
  flat_map (λ k, [f k; h k]) l !! (2 * i) = f <$> l !! i.
Proof.
  revert i. induction l as [|a l IH]; intros i; [done|].
  destruct i as [|i]; [done|].
  replace (2 * S i) with (S (S (2 * i))) by lia. apply IH.
Qed.

Lemma length_pairs {A B} (f h : A → B) (l : list A) :
  length (flat_map (λ k, [f k; h k]) l) = 2 * length l.
Proof. induction l as [|a l IH]; [done|]. simpl. rewrite IH. lia. Qed.

(** X4 (chunks): entered with gradients enabled and a batch size >= 1,
    [load_coords] never calls the model on an empty batch nor on more than
    [batch_size] points, every call but the last gets exactly
    [batch_size] points, there are ceil(N / batch_size) calls, each after
    one [zero_grad], and together they cover each of the N input points
    once. *)
Theorem model_calls_cover_input self coords bs pr cc w :
  grad_enabled w = true → (1 ≤ bs)%Z →
  let evs := new_events (load_coords self coords bs pr cc) w in
  let mode := cc || _requires_grad self in
  ∃ n : nat,
    ceil_div (Z.of_nat (length (cells coords))) bs = Ok (Z.of_nat n)
    ∧ length evs = 2 * n
    ∧ (∀ k, k < n → evs !! (2 * k) = Some ZeroGrad
                    ∧ ∃ m, evs !! (2 * k + 1) = Some (Forward mode true m)
                           ∧ 1 ≤ m ≤ Z.to_nat bs
                           ∧ (k + 1 < n → m = Z.to_nat bs))
    ∧ points_evaluated evs = length (cells coords).
Proof.
  intros Hg Hbs evs mode.
  destruct (ceil_div_tight (length (cells coords)) bs Hbs) as (n & Hn & Hcov & Htight).
  pose proof (load_coords_run self coords bs pr cc w (Z.of_nat n) Hg Hn) as Hrun.
  simpl in Hrun. rewrite Nat2Z.id in Hrun.
  apply new_events_app in Hrun. fold evs mode in Hrun.
  set (rows := normalized_rows self coords) in *.
  assert (length rows = length (cells coords)) as Hlen
    by apply length_normalized_rows.
  exists n. split; [done|]. rewrite Hrun.
  split; [|split].
  - unfold batch_events. rewrite length_pairs, length_seq. lia.
  - intros k Hk. unfold batch_events. split.
    + by rewrite lookup_pairs_even, lookup_seq_lt.
    + eexists. rewrite lookup_pairs, lookup_seq_lt by done. simpl.
      split; [done|].
      rewrite !length_chunk_Z, Hlen by done.
      pose proof (Htight k Hk). split; [lia|].
      intros Hk1. specialize (Htight (k + 1) Hk1). lia.
  - rewrite points_evaluated_batch_events, all_chunks; [done..|]. by rewrite Hlen.
Qed.

Lemma model_calls_cover_input_witness :
  let evs := new_events (load_coords demo_output two_points 1 false true) fresh_world in
  ∃ n : nat, ceil_div 2 1 = Ok (Z.of_nat n) ∧ length evs = 2 * n
             ∧ points_evaluated evs = 2.
Proof.
  destruct (model_calls_cover_input demo_output two_points 1 false true fresh_world
              eq_refl ltac:(lia)) as (n & Hn & Hlen & _ & Hsum).
  exists n. split; [exact Hn|]. split; [exact Hlen | exact Hsum].
Defined.

(* ===================================================================== *)
(** ** The values returned for a point-wise model *)

Lemma load_coords_pointwise self coords bs pr cc w f :
  wf coords → cells coords ≠ [] → (1 ≤ bs)%Z → grad_enabled w = true →
  model_pointwise (model self) f →
  let at_point (p : vec3) := f (vmap (λ x, x / spatial_norm self)%R p) in
  ∃ bq jq w',
    cells (avalue bq)
    = map (λ p, vmap (λ x, x * qvalue (G_per_dB self))%R (sample_b (at_point p)))
          (cells coords)
    ∧ cells (avalue jq)
      = map (λ p, vmap (current_to_physical self) (curl (sample_jac (at_point p))))
            (cells coords)
    ∧ load_coords self coords bs pr cc w
      = (Ok (if cc then <[ "J" := VQuantity jq ]> {[ "B" := VQuantity bq ]}
             else {[ "B" := VQuantity bq ]}), w').
Proof.
  intros Hwf Hne Hbs Hg Hf at_point.
  pose proof (model_pointwise_shaped _ _ Hf) as Hm.
  destruct (load_coords_returns self coords bs pr cc w Hwf Hne Hbs Hm Hg)
    as (n & bq & jq & Hn & Hb & Hj & _ & _ & Hrun).
  destruct (ceil_div_pos (length (cells coords)) bs Hbs) as (n' & Hn' & Hcov & _).
  rewrite Hn in Hn'. injection Hn' as Hnn. apply Nat2Z.inj in Hnn. subst n'.
  exists bq, jq. eexists. split; [|split; [|exact Hrun]].
  - rewrite Hb. cbn [cells]. unfold raw_field.
    rewrite (concat_forward_pointwise self f sample_b)
      by (done || by rewrite length_normalized_rows).
    unfold normalized_rows. by rewrite !map_map.
  - rewrite Hj. cbn [cells]. unfold raw_current.
    rewrite (concat_forward_pointwise self f (λ s, curl (sample_jac s)))
      by (done || by rewrite length_normalized_rows).
    unfold normalized_rows. by rewrite !map_map.
Qed.

(** X5 (values): for a model that treats points independently, row [i] of
    ['B'] is the model's field at input point [i] divided by
    [spatial_norm], times [G_per_dB], and row [i] of ['J'] is the
    converted curl of the model's Jacobian at that point: outputs are
    aligned with the input, point by point. *)
Theorem output_rows_follow_input self coords bs pr w f (i : nat) (p : vec3) :
  wf coords → (1 ≤ bs)%Z → grad_enabled w = true →
  model_pointwise (model self) f →
  cells coords !! i = Some p →
  let at_point := f (vmap (λ x, x / spatial_norm self)%R p) in
  ∃ out bs_rows js_rows,
    outcome (load_coords self coords bs pr true) w = Ok out
    ∧ cells_at out "B" = Some bs_rows ∧ cells_at out "J" = Some js_rows
    ∧ bs_rows !! i = Some (vmap (λ x, x * qvalue (G_per_dB self))%R (sample_b at_point))
    ∧ js_rows !! i = Some (vmap (current_to_physical self) (curl (sample_jac at_point))).
Proof.
  intros Hwf Hbs Hg Hf Hp at_point.
  assert (cells coords ≠ []) as Hne by (intros Heq; by rewrite Heq in Hp).
  destruct (load_coords_pointwise self coords bs pr true w f Hwf Hne Hbs Hg Hf)
    as (bq & jq & w' & Hb & Hj & Hrun).
  eexists _, _, _. unfold outcome. rewrite Hrun. split; [done|].
  unfold cells_at. rewrite lookup_insert_eq.
  rewrite lookup_insert_ne, lookup_singleton_eq by done.
  split; [done|]. split; [done|].
  rewrite Hb, Hj, !list_lookup_fmap, Hp. done.
Qed.

Lemma output_rows_follow_input_witness :
  ∃ out bs_rows,
    outcome (load_coords demo_output two_points 1 false true) fresh_world = Ok out
    ∧ cells_at out "B" = Some bs_rows
    ∧ bs_rows !! 1
      = Some (vmap (λ x, x * 100)%R (vmap (λ x, x / 1)%R (1, 1, 1)%R)).
Proof.
  destruct (output_rows_follow_input demo_output two_points 1 false fresh_world
              identity_field 1 (1, 1, 1)%R)
    as (out & bs_rows & js_rows & Hout & HB & _ & Hrow & _);
    [reflexivity | lia | reflexivity | exact identity_model_pointwise | reflexivity |].
  exists out, bs_rows. split; [exact Hout|]. split; [exact HB | exact Hrow].
Defined.

Lemma current_to_physical_zero self : vmap (current_to_physical self) vzero = vzero.
Proof.
  unfold vmap, vzero, current_to_physical. repeat f_equal; unfold Rdiv; ring.
Qed.

(** X6 (curl-free field): for a point-wise model whose Jacobian is
    symmetric at every point, every row of ['J'] is exactly zero whatever
    the scales of the checkpoint; the identity field [B(x) = x] is such a
    model. *)
Theorem curl_free_field_has_no_current self coords bs pr w f :
  wf coords → cells coords ≠ [] → (1 ≤ bs)%Z → grad_enabled w = true →
  model_pointwise (model self) f → curl_free f →
  ∃ out, outcome (load_coords self coords bs pr true) w = Ok out
         ∧ cells_at out "J" = Some (replicate (length (cells coords)) vzero).
Proof.
  intros Hwf Hne Hbs Hg Hf Hcurl.
  destruct (load_coords_pointwise self coords bs pr true w f Hwf Hne Hbs Hg Hf)
    as (bq & jq & w' & _ & Hj & Hrun).
  eexists. unfold outcome. rewrite Hrun. split; [done|].
  unfold cells_at. rewrite lookup_insert_eq, Hj. f_equal.
  clear -Hcurl. induction (cells coords) as [|p l IH]; [done|].
  cbn [map length replicate]. by rewrite IH, Hcurl, current_to_physical_zero.
Qed.

Lemma identity_field_curl_free : curl_free identity_field.
Proof. intros p. unfold curl, vzero. simpl. repeat f_equal; lra. Qed.

Lemma curl_free_field_has_no_current_witness :
  ∃ out, outcome (load_coords demo_output two_points 1 false true) fresh_world = Ok out
         ∧ cells_at out "J" = Some [vzero; vzero].
Proof.
  apply (curl_free_field_has_no_current demo_output two_points 1 false fresh_world
           identity_field).
  - reflexivity.
  - discriminate.
  - lia.
  - reflexivity.
  - exact identity_model_pointwise.
  - exact identity_field_curl_free.
Defined.

(* ===================================================================== *)
(** ** What the samplers return *)

Lemma load_coords_kw_Ok_wf self coords kwargs w mo w' :
  load_coords_kw self coords true kwargs w = (Ok mo, w') →
  ∃ bq jq,
    mo = <[ "J" := VQuantity jq ]> {[ "B" := VQuantity bq ]}
    ∧ lead (avalue bq) = lead coords ∧ wf (avalue bq) ∧ aunit bq = mk_unit 1 0 0
    ∧ lead (avalue jq) = lead coords ∧ wf (avalue jq)
    ∧ aunit jq = mk_unit 2 (-1) (-1).
Proof.
  intros H. apply load_coords_kw_Ok in H as (_ & bs & pr & H).
  apply load_coords_Ok in H as (w1 & w1' & H).
  apply _load_Ok in H as (bq & jq & -> & Hb1 & Hb2 & Hb3 & Hj).
  destruct (Hj eq_refl) as (Hj1 & Hj2 & Hj3). by exists bq, jq.
Qed.

(** X7 (cube result): whenever [load_cube] returns, the dictionary has
    exactly the keys ['B'], ['J'], ['coords'] and ['Mm_per_pixel'];
    ['coords'] is a lattice of shape [(nx, ny, nz, 3)], ['B'] (in gauss)
    and ['J'] have that same shape, one row per lattice point, and
    ['Mm_per_pixel'] is the argument as it was passed, [None] when it was
    omitted. *)
Theorem load_cube_result self hr mpp kwargs w out w' :
  load_cube self hr mpp kwargs w = (Ok out, w') →
  ∃ coords b j (nx ny nz : nat),
    out !! "coords" = Some (VArray coords)
    ∧ out !! "B" = Some (VQuantity b) ∧ out !! "J" = Some (VQuantity j)
    ∧ out !! "Mm_per_pixel" = Some (from_option VFloat VNone mpp)
    ∧ dom out = ({[ "B"; "J"; "coords"; "Mm_per_pixel" ]} : gset string)
    ∧ shape coords = [nx; ny; nz; 3]
    ∧ shape (avalue b) = shape coords ∧ shape (avalue j) = shape coords
    ∧ length (cells coords) = nx * (ny * nz)
    ∧ length (cells (avalue b)) = length (cells coords)
    ∧ length (cells (avalue j)) = length (cells coords)
    ∧ aunit b = mk_unit 1 0 0.
Proof.
  intros H. apply load_cube_Ok in H
    as (zr & ppd & coords & mo & bq & jq & b & j & _ & _ & Hbox & Hkw
        & HB & Hb & HJ & Hj & ->).
  apply load_coords_kw_Ok_wf in Hkw
    as (bq' & jq' & -> & Hbl' & Hbwf & Hbu & Hjl' & Hjwf & _).
  rewrite lookup_insert_ne, lookup_singleton_eq in HB by done. injection HB as <-.
  rewrite lookup_insert_eq in HJ. injection HJ as <-.
  apply qreshape_Ok in Hb as (Hbc & Hbl & Hbunit).
  apply qreshape_Ok in Hj as (Hjc & Hjl & _).
  apply box_lattice_Ok in Hbox as (Hwf & Hlead & _).
  unfold reshape in *.
  exists coords, b, j. eexists _, _, _.
  split; [by do 2 rewrite lookup_insert_ne by done; rewrite lookup_insert_eq|].
  split; [apply lookup_insert_eq|].
  split; [by rewrite lookup_insert_ne by done; rewrite lookup_insert_eq|].
  split; [by do 3 rewrite lookup_insert_ne by done; rewrite lookup_singleton_eq|].
  split; [rewrite !dom_insert_L, dom_singleton_L; set_solver|].
  split; [unfold shape; by rewrite Hlead|].
  unfold shape. rewrite Hbl, Hjl. split; [done|]. split; [done|].
  split; [rewrite Hwf, Hlead; simpl; lia|].
  rewrite Hbc, Hjc, Hbunit.
  unfold wf in Hbwf, Hjwf. rewrite Hbl' in Hbwf. rewrite Hjl' in Hjwf.
  simpl in Hbwf, Hjwf.
  repeat split; try done; lia.
Qed.

Lemma load_cube_result_witness :
  ∃ out coords b,
    outcome (load_cube demo_cartesian None None ∅) fresh_world = Ok out
    ∧ out !! "coords" = Some (VArray coords)
    ∧ out !! "B" = Some (VQuantity b)
    ∧ out !! "Mm_per_pixel" = Some VNone
    ∧ shape (avalue b) = shape coords.
Proof.
  destruct demo_load_cube_returns as (out & w' & Hrun).
  destruct (load_cube_result demo_cartesian None None ∅ fresh_world out w' Hrun)
    as (coords & b & j & nx & ny & nz & Hc & HB & _ & Hm & _ & _ & Hs & _).
  exists out, coords, b. unfold outcome. rewrite Hrun. done.
Defined.

Lemma iadd_Ok l x w u w' :
  iadd l x w = (Ok u, w') →
  ∃ a b, heap w !! l = Some (a, b)
         ∧ w' = mk_world (grad_enabled w) (trace w)
                         (<[ l := ((a + x)%R, (b + x)%R) ]> (heap w)).
Proof.
  unfold iadd. destruct (heap w !! l) as [[a b]|]; [|done]. intros [= _ <-]. eauto.
Qed.

Lemma deref_Ok l w v w' : deref l w = (Ok v, w') → heap w !! l = Some v ∧ w' = w.
Proof. unfold deref. destruct (heap w !! l); [|done]. by intros [= -> ->]. Qed.

Lemma load_spherical_Ok self rra latitude_range lona sampling kwargs w out w' :
  load_spherical self rra latitude_range lona sampling kwargs w = (Ok out, w') →
  ∃ rs ts ps mo b w1,
    linspace (default (radius_range self) rra).1 (default (radius_range self) rra).2
             sampling.1.1 = Ok rs
    ∧ length ts = Z.to_nat sampling.1.2 ∧ (0 ≤ sampling.1.2)%Z
    ∧ length ps = Z.to_nat sampling.2 ∧ (0 ≤ sampling.2)%Z
    ∧ is_Some lona
    ∧ load_coords_kw (sph_base self)
        (mk_array3 (lead (meshgrid_ij rs ts ps))
           (map spherical_to_cartesian (cells (meshgrid_ij rs ts ps))))
        true kwargs w1 = (Ok mo, w')
    ∧ mo !! "B" = Some b
    ∧ out = {[ "B" := b;
               "coords" := VArray
                 (mk_array3 (lead (meshgrid_ij rs ts ps))
                    (map spherical_to_cartesian (cells (meshgrid_ij rs ts ps)))) ]}.
Proof.
  intros H. unfold load_spherical in H. destruct sampling as [[s0 s1] s2].
  apply bind_Ok in H as (u & w1 & Hadd & H).
  apply bind_Ok in H as (rs & w2 & Hrs & H). apply lift_Ok in Hrs as [Hrs ->].
  apply bind_Ok in H as (lat & w3 & Hlat & H). apply deref_Ok in Hlat as [Hlat ->].
  apply bind_Ok in H as (ts & w4 & Hts & H). apply lift_Ok in Hts as [Hts ->].
  apply bind_Ok in H as (lon & w5 & Hlon & H). apply lift_Ok in Hlon as [Hlon ->].
  apply bind_Ok in H as (ps & w6 & Hps & H). apply lift_Ok in Hps as [Hps ->].
  apply bind_Ok in H as (mo & w7 & Hkw & H).
  apply bind_Ok in H as (b & w8 & Hb & H). apply lift_Ok in Hb as [Hb ->].
  apply ret_Ok in H as [-> ->].
  apply linspace_Ok in Hts as [? ?], Hps as [? ?].
  unfold getitem in Hb. destruct (mo !! "B") as [b'|] eqn:HB; [|done]. injection Hb as ->.
  exists rs, ts, ps, mo, b, w1. cbn [fst snd].
  repeat split; try done. by destruct lona.
Qed.

(** X8 (shell result): whenever [load_spherical] returns, the result has
    the keys ['B'] and ['coords'] and nothing else: the current density,
    although computed, is not returned.  Both arrays have the shape
    [sampling + (3,)]. *)
Theorem load_spherical_result self rra latitude_range lona sampling kwargs w out w' :
  load_spherical self rra latitude_range lona sampling kwargs w = (Ok out, w') →
  let '(s0, s1, s2) := sampling in
  dom out = ({[ "B"; "coords" ]} : gset string)
  ∧ out !! "J" = None
  ∧ shape_at out "coords" = Some [Z.to_nat s0; Z.to_nat s1; Z.to_nat s2; 3]
  ∧ shape_at out "B" = Some [Z.to_nat s0; Z.to_nat s1; Z.to_nat s2; 3]
  ∧ unit_at out "B" = Some (mk_unit 1 0 0)
  ∧ (∃ l bs pr mo w1,
        load_coords (sph_base self) l bs pr true w1 = (Ok mo, w') ∧ is_Some (mo !! "J")).
Proof.
  intros H. destruct sampling as [[s0 s1] s2].
  apply load_spherical_Ok in H
    as (rs & ts & ps & mo & b & w1 & Hrs & Hts & _ & Hps & _ & _ & Hkw & HB & ->).
  cbn [fst snd] in *. apply linspace_Ok in Hrs as [_ Hrs].
  pose proof Hkw as Hkw'.
  apply load_coords_kw_Ok_wf in Hkw as (bq & jq & -> & Hbl & _ & Hbu & _).
  rewrite lookup_insert_ne, lookup_singleton_eq in HB by done. injection HB as <-.
  apply load_coords_kw_Ok in Hkw' as (_ & bs & pr & Hrun).
  split; [rewrite dom_insert_L, dom_singleton_L; set_solver|].
  split; [by rewrite lookup_insert_ne, lookup_singleton_ne by done|].
  unfold shape_at, unit_at, shape.
  rewrite lookup_insert_eq. rewrite lookup_insert_ne, lookup_singleton_eq by done.
  cbn [lead meshgrid_ij] in *. rewrite Hbl, Hrs, Hts, Hps, Hbu.
  repeat split; try done.
  eexists _, bs, pr, _, w1. split; [exact Hrun|]. by rewrite lookup_insert_eq.
Qed.

Lemma bind_run {A B} (m : M A) (k : A → M B) w a w1 :
  m w = (Ok a, w1) → bind m k w = k a w1.
Proof. intros Hm. unfold bind. by rewrite Hm. Qed.

Lemma linspace_nonneg lo hi num :
  (0 ≤ num)%Z →
  linspace lo hi num = Ok (map (axis_sample lo hi num) (seq 0 (Z.to_nat num))).
Proof. intros. unfold linspace. by rewrite decide_False by lia. Qed.

(** [load_spherical] returns on a lattice with at least one sample per
    axis. *)
Lemma load_spherical_returns self rra l lon s0 s1 s2 kwargs w lo hi :
  heap w !! l = Some (lo, hi) →
  (1 ≤ s0)%Z → (1 ≤ s1)%Z → (1 ≤ s2)%Z →
  "compute_currents" ∉ dom kwargs →
  dom kwargs ⊆ ({[ "batch_size"; "progress" ]} : gset string) →
  (1 ≤ default default_batch_size (kw_int <$> kwargs !! "batch_size"))%Z →
  model_shaped (model (sph_base self)) → grad_enabled w = true →
  ∃ out w', load_spherical self rra (Some l) (Some lon) (s0, s1, s2) kwargs w
            = (Ok out, w').
Proof.
  intros Hl H0 H1 H2 Hcc Hdom Hbs Hm Hg.
  unfold load_spherical.
  change (default load_spherical_default_latitude_range (Some l)) with l.
  set (w1 := mk_world (grad_enabled w) (trace w)
               (<[ l := ((lo + PI / 2)%R, (hi + PI / 2)%R) ]> (heap w))).
  rewrite (bind_run _ _ w () w1) by (unfold iadd; by rewrite Hl).
  rewrite (bind_run _ _ w1 _ w1) by (unfold lift; by rewrite linspace_nonneg by lia).
  rewrite (bind_run _ _ w1 ((lo + PI / 2)%R, (hi + PI / 2)%R) w1)
    by (unfold deref, w1; simpl; by rewrite lookup_insert_eq).
  rewrite (bind_run _ _ w1 _ w1) by (unfold lift; by rewrite linspace_nonneg by lia).
  rewrite (bind_run _ _ w1 lon w1) by done.
  rewrite (bind_run _ _ w1 _ w1) by (unfold lift; by rewrite linspace_nonneg by lia).
  match goal with
  | |- context [load_coords_kw _ ?c true kwargs] => set (coords := c)
  end.
  assert (wf coords) as Hwf.
  { unfold wf, coords. cbn [cells lead]. rewrite length_map.
    apply meshgrid_wf. }
  assert (cells coords ≠ []) as Hne.
  { intros Hnil. apply (f_equal length) in Hnil. unfold coords in Hnil.
    cbn [cells] in Hnil. rewrite length_map, length_meshgrid in Hnil.
    rewrite !length_map, !length_seq in Hnil. simpl in Hnil. nia. }
  destruct (load_coords_returns (sph_base self) coords _
              (default false (kw_truth <$> kwargs !! "progress")) true w1
              Hwf Hne Hbs Hm Hg) as (n & bq & jq & _ & _ & _ & _ & _ & Hrun).
  rewrite load_coords_kw_run by done.
  erewrite bind_run by exact Hrun.
  erewrite bind_run.
  2:{ unfold lift, getitem. rewrite lookup_insert_ne by done.
      by rewrite lookup_singleton_eq. }
  unfold ret. eauto.
Qed.

Lemma load_spherical_result_witness :
  ∃ out w',
    load_spherical demo_spherical None (Some caller_latitude_range) (Some (0, 2 * PI)%R)
      (2, 3, 4)%Z ∅ caller_world = (Ok out, w')
    ∧ out !! "J" = None
    ∧ shape_at out "B" = Some [2; 3; 4; 3].
Proof.
  destruct (load_spherical_returns demo_spherical None caller_latitude_range
              (0, 2 * PI)%R 2 3 4 ∅ caller_world (- (PI / 4))%R (PI / 4)%R)
    as (out & w' & Hrun);
    [reflexivity | lia | lia | lia | set_solver | set_solver | done
    | exact identity_model_shaped | reflexivity |].
  pose proof (load_spherical_result _ _ _ _ _ _ _ _ _ Hrun) as (_ & HJ & _ & HB & _).
  exists out, w'. split; [exact Hrun|]. split; [exact HJ | exact HB].
Defined.

(* ===================================================================== *)
(** ** Omitted or empty windows *)

(** X9 (default longitude): the default of [longitude_range] is a tuple of
    plain numbers, which has no [to_value].  [load] called without
    [longitude_range] raises [AttributeError] before it builds anything;
    [load_spherical] (with non-negative radius and latitude counts) raises
    [AttributeError] too, without a call of the model, but only after it
    has shifted [latitude_range] by pi/2. *)
Theorem default_longitude_range_raises self rra lra resa l sampling kwargs w lo hi :
  heap w !! l = Some (lo, hi) →
  (0 ≤ sampling.1.1)%Z → (0 ≤ sampling.1.2)%Z →
  load self rra lra None resa kwargs w = (Raise AttributeError, w)
  ∧ load_spherical self rra (Some l) None sampling kwargs w
    = (Raise AttributeError,
       mk_world (grad_enabled w) (trace w)
                (<[ l := ((lo + PI / 2)%R, (hi + PI / 2)%R) ]> (heap w))).
Proof.
  intros Hl H0 H1. split; [done|].
  destruct sampling as [[s0 s1] s2]. cbn [fst snd] in *.
  unfold load_spherical.
  change (default load_spherical_default_latitude_range (Some l)) with l.
  set (w1 := mk_world (grad_enabled w) (trace w)
               (<[ l := ((lo + PI / 2)%R, (hi + PI / 2)%R) ]> (heap w))).
  rewrite (bind_run _ _ w () w1) by (unfold iadd; by rewrite Hl).
  rewrite (bind_run _ _ w1 _ w1) by (unfold lift; by rewrite linspace_nonneg by lia).
  rewrite (bind_run _ _ w1 ((lo + PI / 2)%R, (hi + PI / 2)%R) w1)
    by (unfold deref, w1; simpl; by rewrite lookup_insert_eq).
  rewrite (bind_run _ _ w1 _ w1) by (unfold lift; by rewrite linspace_nonneg by lia).
  done.
Qed.

Lemma default_longitude_range_raises_witness :
  load demo_spherical None None None None ∅ caller_world
  = (Raise AttributeError, caller_world).
Proof.
  apply (default_longitude_range_raises demo_spherical None None None
           caller_latitude_range (2, 2, 2)%Z ∅ caller_world (- (PI / 4))%R (PI / 4)%R).
  - reflexivity.
  - simpl. lia.
  - simpl. lia.
Defined.

Lemma mask_select_none {A} (rows : list A) condition :
  Forall (λ m, m = false) condition → mask_select rows condition = [].
Proof.
  revert rows. induction condition as [|m condition IH]; intros rows Hall.
  - by destruct rows.
  - apply Forall_cons in Hall as [-> Hall]. destruct rows; [done|]. by apply IH.
Qed.

Lemma _load_without_chunk self bs pr cc coords w :
  (bs ≤ 0)%Z ∨ cells coords = [] →
  ∃ e, _load self bs pr cc coords w = (Raise e, w).
Proof.
  intros Hno. destruct (decide (bs = 0%Z)) as [->|Hbs].
  - eexists. apply _load_zero_batch.
  - eexists. apply _load_no_chunk. destruct Hno; [left; lia | by right].
Qed.

Lemma load_coords_kw_empty self s cc kwargs w :
  ∃ e, load_coords_kw self (mk_array3 s []) cc kwargs w = (Raise e, w).
Proof.
  unfold load_coords_kw, raise, lift. repeat case_decide; eauto.
  unfold load_coords, no_grad.
  destruct (_load_without_chunk self
              (default default_batch_size (kw_int <$> kwargs !! "batch_size"))
              (default false (kw_truth <$> kwargs !! "progress")) cc (mk_array3 s [])
              (mk_world false (trace w) (heap w))) as [e1 He1]; [by right|].
  destruct (_load_without_chunk self
              (default default_batch_size (kw_int <$> kwargs !! "batch_size"))
              (default false (kw_truth <$> kwargs !! "progress")) cc (mk_array3 s [])
              w) as [e2 He2]; [by right|].
  destruct (cc || _requires_grad self).
  - rewrite He2. eauto.
  - rewrite He1. simpl. rewrite world_eta. eauto.
Qed.

Lemma load_masked_empty self rr lr lonr coords kwargs w :
  Forall (λ p, in_window rr lr lonr (cartesian_to_spherical p) = false) (cells coords) →
  ∃ e, load_masked self rr lr lonr coords kwargs w = (Raise e, w).
Proof.
  intros Hall. unfold load_masked. cbn [cells lead].
  rewrite mask_select_none.
  - destruct (load_coords_kw_empty (sph_base self) [0] true kwargs w) as [e He].
    exists e. unfold bind. simpl. by rewrite He.
  - rewrite Forall_fmap, Forall_fmap. exact Hall.
Qed.

(** X10 (empty mask): when no lattice point lies in the window, [load]
    raises: the model is not called, nothing is returned, and the world is
    as before. *)
Theorem load_raises_on_empty_mask self rra lra lonr resa kwargs w coords :
  let rr := default (radius_range self) rra in
  let lr := default (0, PI)%R lra in
  load_lattice rr lr lonr (default 64%R resa) = Ok coords →
  Forall (λ p, in_window rr lr lonr (cartesian_to_spherical p) = false) (cells coords) →
  ∃ e, load self rra lra (Some lonr) resa kwargs w = (Raise e, w).
Proof.
  intros rr lr Hlat Hall. unfold load. cbn [from_option].
  rewrite (bind_run _ _ w lonr w) by done.
  fold rr lr. rewrite (bind_run _ _ w coords w) by (unfold lift; by rewrite Hlat).
  by apply load_masked_empty.
Qed.

(* ===================================================================== *)
(** ** The bounding box of the masked-region sampler *)

Lemma fold_left_Rmin_le l x : (fold_left Rmin l x <= x)%R.
Proof.
  revert x. induction l as [|a l IH]; intros x; simpl; [lra|].
  etrans; [apply IH|apply Rmin_l].
Qed.

Lemma fold_left_Rmax_ge l x : (x <= fold_left Rmax l x)%R.
Proof.
  revert x. induction l as [|a l IH]; intros x; simpl; [lra|].
  etrans; [apply Rmax_l|apply IH].
Qed.

Lemma amin_amax l :
  l ≠ [] → ∃ lo hi, amin l = Ok lo ∧ amax l = Ok hi ∧ (lo <= hi)%R.
Proof.
  destruct l as [|x l]; [done|]. intros _. eexists _, _. split; [done|].
  split; [done|]. etrans; [apply fold_left_Rmin_le|apply fold_left_Rmax_ge].
Qed.

Lemma fold_left_Rmin_lower l x y : y ∈ x :: l → (fold_left Rmin l x <= y)%R.
Proof.
  revert x. induction l as [|a l IH]; intros x Hy.
  - apply list_elem_of_singleton in Hy as ->. simpl. lra.
  - simpl. apply elem_of_cons in Hy as [->|Hy].
    + etrans; [apply fold_left_Rmin_le|apply Rmin_l].
    + apply elem_of_cons in Hy as [->|Hy].
      * etrans; [apply fold_left_Rmin_le|apply Rmin_r].
      * apply IH. by apply list_elem_of_further.
Qed.

Lemma fold_left_Rmax_upper l x y : y ∈ x :: l → (y <= fold_left Rmax l x)%R.
Proof.
  revert x. induction l as [|a l IH]; intros x Hy.
  - apply list_elem_of_singleton in Hy as ->. simpl. lra.
  - simpl. apply elem_of_cons in Hy as [->|Hy].
    + etrans; [apply Rmax_l|apply fold_left_Rmax_ge].
    + apply elem_of_cons in Hy as [->|Hy].
      * etrans; [apply Rmax_r|apply fold_left_Rmax_ge].
      * apply IH. by apply list_elem_of_further.
Qed.

Lemma fold_left_Rmin_elem l x : fold_left Rmin l x ∈ x :: l.
Proof.
  revert x. induction l as [|a l IH]; intros x; simpl; [apply list_elem_of_here|].
  specialize (IH (Rmin x a)). apply elem_of_cons in IH as [->|IH].
  - apply Rmin_case; [apply list_elem_of_here|].
    apply list_elem_of_further, list_elem_of_here.
  - by do 2 apply list_elem_of_further.
Qed.

Lemma fold_left_Rmax_elem l x : fold_left Rmax l x ∈ x :: l.
Proof.
  revert x. induction l as [|a l IH]; intros x; simpl; [apply list_elem_of_here|].
  specialize (IH (Rmax x a)). apply elem_of_cons in IH as [->|IH].
  - apply Rmax_case; [apply list_elem_of_here|].
    apply list_elem_of_further, list_elem_of_here.
  - by do 2 apply list_elem_of_further.
Qed.

(** [min] and [max] of an array: an entry that bounds all entries. *)
Lemma amin_Ok l m : amin l = Ok m → m ∈ l ∧ ∀ y, y ∈ l → (m <= y)%R.
Proof.
  destruct l as [|x l]; [done|]. intros [= <-].
  split; [apply fold_left_Rmin_elem|apply fold_left_Rmin_lower].
Qed.

Lemma amax_Ok l m : amax l = Ok m → m ∈ l ∧ ∀ y, y ∈ l → (y <= m)%R.
Proof.
  destruct l as [|x l]; [done|]. intros [= <-].
  split; [apply fold_left_Rmax_elem|apply fold_left_Rmax_upper].
Qed.

Lemma amin_eq l m : m ∈ l → (∀ y, y ∈ l → (m <= y)%R) → amin l = Ok m.
Proof.
  intros Hm Hlow. destruct l as [|x l]; [by apply elem_of_nil in Hm|].
  cbn [amin]. f_equal. apply Rle_antisym.
  - by apply fold_left_Rmin_lower.
  - apply Hlow, fold_left_Rmin_elem.
Qed.

Lemma amax_eq l m : m ∈ l → (∀ y, y ∈ l → (y <= m)%R) → amax l = Ok m.
Proof.
  intros Hm Hup. destruct l as [|x l]; [by apply elem_of_nil in Hm|].
  cbn [amax]. f_equal. apply Rle_antisym.
  - apply Hup, fold_left_Rmax_elem.
  - by apply fold_left_Rmax_upper.
Qed.

Lemma axis_num_nonneg lo hi ppu :
  (lo <= hi)%R → (0 <= ppu)%R → (0 ≤ axis_num lo hi ppu)%Z.
Proof.
  intros Hle Hppu. unfold axis_num, py_int.
  assert (0 <= (hi - lo) * ppu)%R by nra.
  rewrite decide_True by done.
  destruct (base_Int_part ((hi - lo) * ppu)) as [_ Hgt].
  assert (-1 < IZR (Int_part ((hi - lo) * ppu)))%R as Hlt by lra.
  apply lt_IZR in Hlt. lia.
Qed.

Lemma box_lattice_returns xr yr zr ppu :
  (xr.1 <= xr.2)%R → (yr.1 <= yr.2)%R → (zr.1 <= zr.2)%R → (0 <= ppu)%R →
  ∃ coords, box_lattice xr yr zr ppu = Ok coords.
Proof.
  intros Hx Hy Hz Hppu. unfold box_lattice.
  rewrite !linspace_nonneg by (by apply axis_num_nonneg). simpl. eauto.
Qed.

Lemma bounding_box_returns (cb : list vec3) res :
  cb ≠ [] → (0 <= res)%R →
  ∃ coords,
    res_bind (amin (map comp0 cb)) (λ x_min,
    res_bind (amax (map comp0 cb)) (λ x_max,
    res_bind (amin (map comp1 cb)) (λ y_min,
    res_bind (amax (map comp1 cb)) (λ y_max,
    res_bind (amin (map comp2 cb)) (λ z_min,
    res_bind (amax (map comp2 cb)) (λ z_max,
    box_lattice (x_min, x_max) (y_min, y_max) (z_min, z_max) res)))))) = Ok coords.
Proof.
  intros Hne Hres.
  assert (∀ f : vec3 → R, map f cb ≠ []) as Hmap by (intros f; by destruct cb).
  destruct (amin_amax _ (Hmap comp0)) as (x0 & x1 & -> & -> & Hx).
  destruct (amin_amax _ (Hmap comp1)) as (y0 & y1 & -> & -> & Hy).
  destruct (amin_amax _ (Hmap comp2)) as (z0 & z1 & -> & -> & Hz).
  cbn [res_bind]. by apply box_lattice_returns.
Qed.

(** X11 (lattice of [load]): for a resolution >= 0 the construction of the
    dense lattice never raises, whatever the window.  The six bounds of
    the box are minima and maxima attained among the 50 x 50 x 50 window
    samples, so min <= max on each axis and every axis count
    [int((max - min) * res)] is non-negative; the lattice is well formed
    and has exactly these three counts. *)
Theorem load_lattice_returns rr lr lonr res :
  (0 <= res)%R →
  ∃ rs ts ps x_min x_max y_min y_max z_min z_max coords,
    linspace rr.1 rr.2 50 = Ok rs
    ∧ linspace lr.1 lr.2 50 = Ok ts
    ∧ linspace lonr.1 lonr.2 50 = Ok ps
    ∧ let cb := map spherical_to_cartesian (cells (meshgrid_ij rs ts ps)) in
      length cb = 50 * (50 * 50)
      ∧ (x_min ∈ map comp0 cb ∧ x_max ∈ map comp0 cb
         ∧ y_min ∈ map comp1 cb ∧ y_max ∈ map comp1 cb
         ∧ z_min ∈ map comp2 cb ∧ z_max ∈ map comp2 cb)
      ∧ (∀ v, v ∈ cb →
           (x_min <= comp0 v <= x_max ∧ y_min <= comp1 v <= y_max
            ∧ z_min <= comp2 v <= z_max)%R)
      ∧ (0 ≤ axis_num x_min x_max res ∧ 0 ≤ axis_num y_min y_max res
         ∧ 0 ≤ axis_num z_min z_max res)%Z
      ∧ load_lattice rr lr lonr res = Ok coords
      ∧ wf coords
      ∧ shape coords = [Z.to_nat (axis_num x_min x_max res);
                        Z.to_nat (axis_num y_min y_max res);
                        Z.to_nat (axis_num z_min z_max res); 3].
Proof.
  intros Hres.
  pose proof (linspace_nonneg rr.1 rr.2 50 ltac:(lia)) as Hrs.
  pose proof (linspace_nonneg lr.1 lr.2 50 ltac:(lia)) as Hts.
  pose proof (linspace_nonneg lonr.1 lonr.2 50 ltac:(lia)) as Hps.
  set (rs := map (axis_sample rr.1 rr.2 50) _) in Hrs.
  set (ts := map (axis_sample lr.1 lr.2 50) _) in Hts.
  set (ps := map (axis_sample lonr.1 lonr.2 50) _) in Hps.
  assert (length rs = 50 ∧ length ts = 50 ∧ length ps = 50) as (Hlr & Hlt & Hlp).
  { unfold rs, ts, ps. rewrite !length_map, !length_seq. lia. }
  clearbody rs ts ps.
  set (cb := map spherical_to_cartesian (cells (meshgrid_ij rs ts ps))).
  assert (length cb = 50 * (50 * 50)) as Hlen.
  { unfold cb. by rewrite length_map, length_meshgrid, Hlr, Hlt, Hlp. }
  assert (cb ≠ []) as Hne.
  { intros Hnil. apply (f_equal length) in Hnil. rewrite Hlen in Hnil.
    cbn [length] in Hnil. lia. }
  assert (∀ f : vec3 → R, map f cb ≠ []) as Hmap by (intros f; by destruct cb).
  destruct (amin_amax _ (Hmap comp0)) as (x0 & x1 & Hx0 & Hx1 & Hx).
  destruct (amin_amax _ (Hmap comp1)) as (y0 & y1 & Hy0 & Hy1 & Hy).
  destruct (amin_amax _ (Hmap comp2)) as (z0 & z1 & Hz0 & Hz1 & Hz).
  destruct (box_lattice_returns (x0, x1) (y0, y1) (z0, z1) res) as [coords Hbox];
    [done..|].
  assert (load_lattice rr lr lonr res = Ok coords) as Hrun.
  { unfold load_lattice. rewrite Hrs, Hts, Hps. cbn [res_bind]. fold cb.
    rewrite Hx0, Hx1, Hy0, Hy1, Hz0, Hz1. cbn [res_bind]. exact Hbox. }
  destruct (box_lattice_Ok _ _ _ _ _ Hbox) as (Hwf & Hlead & Hnx & Hny & Hnz).
  apply amin_Ok in Hx0 as [Hx0in Hx0le], Hy0 as [Hy0in Hy0le], Hz0 as [Hz0in Hz0le].
  apply amax_Ok in Hx1 as [Hx1in Hx1le], Hy1 as [Hy1in Hy1le], Hz1 as [Hz1in Hz1le].
  exists rs, ts, ps, x0, x1, y0, y1, z0, z1, coords.
  split; [exact Hrs|]. split; [exact Hts|]. split; [exact Hps|].
  fold cb. cbv zeta.
  split; [exact Hlen|]. split; [by repeat split|]. split.
  { intros v Hv.
    assert (∀ f : vec3 → R, f v ∈ map f cb) as Hin
      by (intros f; by apply list_elem_of_fmap_2).
    repeat split; auto. }
  split; [by repeat split|]. split; [exact Hrun|]. split; [exact Hwf|].
  unfold shape. by rewrite Hlead.
Qed.

Lemma load_lattice_returns_witness :
  ∃ coords, load_lattice (1, 2)%R (0, 1)%R (0, 1)%R 64 = Ok coords ∧ wf coords.
Proof.
  destruct (load_lattice_returns (1, 2)%R (0, 1)%R (0, 1)%R 64)
    as (rs & ts & ps & x0 & x1 & y0 & y1 & z0 & z1 & coords & _ & _ & _ & H); [lra|].
  destruct H as (_ & _ & _ & _ & Hrun & Hwf & _).
  exists coords. split; [exact Hrun | exact Hwf].
Defined.

Lemma load_lattice_total rr lr lonr res :
  (0 <= res)%R → ∃ coords, load_lattice rr lr lonr res = Ok coords.
Proof.
  intros Hres. unfold load_lattice.
  rewrite !linspace_nonneg by lia. cbn [res_bind].
  apply bounding_box_returns; [|done].
  intros Hnil. apply (f_equal length) in Hnil.
  rewrite length_map, length_meshgrid, !length_map, !length_seq in Hnil.
  cbn [length] in Hnil. lia.
Qed.

Lemma py_mod_period p : (0 < p)%R → py_mod p p = 0%R.
Proof.
  intros Hp. unfold py_mod.
  replace (p / p)%R with (IZR 1) by (field; lra).
  rewrite Int_part_IZR. lra.
Qed.

Lemma py_mod_nonneg x p : (0 < p)%R → (0 <= py_mod x p < p)%R.
Proof. intros Hp. by destruct (py_mod_wrap p x Hp) as [? _]. Qed.

Lemma in_window_wrapped_empty rr lr lonr sc :
  (rr.2 <= rr.1 ∨ wrap_lat lr.2 <= wrap_lat lr.1
   ∨ wrap_lon lonr.2 <= wrap_lon lonr.1)%R →
  in_window rr lr lonr sc = false.
Proof.
  intros Hempty. apply not_true_is_false. destruct sc as [[r t] p].
  rewrite in_window_true. lra.
Qed.

(** X12 (wrapped bounds): a window whose upper latitude bound wraps to no
    more than its lower bound (or likewise in longitude, or with an empty
    radius range) selects no point at all.  This is so for the default
    latitude range (0, pi) and for the full longitude range (0, 2 pi),
    whose upper bounds wrap to 0: [load] then raises for every resolution
    and leaves the world as it was. *)
Theorem wrapped_window_selects_nothing self rr lr lonr resa kwargs w :
  (rr.2 <= rr.1 ∨ wrap_lat lr.2 <= wrap_lat lr.1
   ∨ wrap_lon lonr.2 <= wrap_lon lonr.1)%R →
  (∀ sc, in_window rr lr lonr sc = false)
  ∧ wrap_lat PI = 0%R ∧ wrap_lon (2 * PI) = 0%R
  ∧ ∃ e, load self (Some rr) (Some lr) (Some lonr) resa kwargs w = (Raise e, w).
Proof.
  intros Hempty. pose proof PI_RGT_0 as Hpi.
  split; [intros sc; by apply in_window_wrapped_empty|].
  split; [apply py_mod_period; lra|]. split; [apply py_mod_period; lra|].
  unfold load.
  change (default (radius_range self) (Some rr)) with rr.
  change (default (0, PI)%R (Some lr)) with lr.
  rewrite (bind_run _ _ w lonr w) by done.
  destruct (load_lattice rr lr lonr (default 64%R resa)) as [coords|e] eqn:Hlat.
  - rewrite (bind_run _ _ w coords w) by done.
    apply load_masked_empty. apply Forall_forall. intros p _.
    by apply in_window_wrapped_empty.
  - exists e. unfold bind, lift. done.
Qed.

Lemma wrapped_window_selects_nothing_witness :
  ∃ e, load demo_spherical (Some (1, 2)%R) (Some (0, PI)%R) (Some (0, 1)%R) None ∅
         fresh_world = (Raise e, fresh_world).
Proof.
  apply (wrapped_window_selects_nothing demo_spherical (1, 2)%R (0, PI)%R (0, 1)%R None ∅
           fresh_world).
  right. left. cbn [fst snd]. pose proof PI_RGT_0.
  unfold wrap_lat. rewrite py_mod_period by lra.
  destruct (py_mod_nonneg 0 PI); lra.
Defined.

Lemma load_raises_on_empty_mask_witness :
  ∃ e, load demo_spherical None None (Some (0, 1)%R) None ∅ fresh_world
       = (Raise e, fresh_world).
Proof.
  destruct (load_lattice_total (1, 2)%R (0, PI)%R (0, 1)%R 64) as [coords Hlat]; [lra|].
  apply (load_raises_on_empty_mask demo_spherical None None (0, 1)%R None ∅ fresh_world
           coords Hlat).
  apply Forall_forall. intros p _. apply in_window_wrapped_empty.
  right. left. cbn [fst snd default]. pose proof PI_RGT_0.
  unfold wrap_lat. rewrite py_mod_period by lra.
  destruct (py_mod_nonneg 0 PI); lra.
Defined.

(* ===================================================================== *)
(** ** The dense arrays of the masked-region sampler *)

Lemma mask_select_scatter {A} (dense : list A) condition vals :
  length dense = length condition → length vals = mask_count condition →
  mask_select (scatter dense condition vals) condition = vals.
Proof.
  unfold mask_count. revert condition vals.
  induction dense as [|d dense IH]; intros [|m condition] vals Hlen Hvals; try done.
  - by destruct vals.
  - injection Hlen as Hlen. destruct m.
    + rewrite filter_cons, decide_True in Hvals by done.
      destruct vals as [|v vals]; [done|]. injection Hvals as Hvals.
      cbn [scatter mask_select]. f_equal. by apply IH.
    + rewrite filter_cons, decide_False in Hvals by done.
      cbn [scatter mask_select]. by apply IH.
Qed.

Lemma length_scatter {A} (dense : list A) condition vals :
  length (scatter dense condition vals) = length dense.
Proof.
  revert condition vals. induction dense as [|d dense IH]; intros [|m condition] vals;
    try done.
  destruct m; [destruct vals|]; cbn [scatter length]; by rewrite IH.
Qed.

Lemma fill_dense_select s condition sub q :
  fill_dense s condition sub = Ok q →
  length condition = numel s → length (cells (avalue sub)) = mask_count condition →
  mask_select (cells (avalue q)) condition = cells (avalue sub)
  ∧ lead (avalue q) = s ∧ wf (avalue q) ∧ aunit q = aunit sub.
Proof.
  intros Hq Hlen Hsub. apply fill_dense_Ok in Hq as (rows & Hrows & ->).
  unfold mask_assign in Hrows. rewrite decide_True in Hrows by done.
  injection Hrows as <-. cbn [avalue cells lead aunit].
  split; [apply mask_select_scatter; [by rewrite length_replicate|done]|].
  split; [done|]. split; [|done].
  unfold wf. cbn. by rewrite length_scatter, length_replicate.
Qed.

(** X13 (dense fill, inside the mask): whenever the masked part of [load]
    returns, the dense ['B'] and ['J'] have the shape of the lattice, and
    reading them back under the mask gives exactly the rows [load_coords]
    returned for the selected points, in their order: the scatter loses
    and moves nothing. *)
Theorem dense_fill_round_trip self rr lr lonr coords kwargs w out w' :
  wf coords →
  load_masked self rr lr lonr coords kwargs w = (Ok out, w') →
  let condition :=
    map (in_window rr lr lonr) (map cartesian_to_spherical (cells coords)) in
  ∃ b j mo sub_b sub_j,
    load_coords_kw (sph_base self)
      (mk_array3 [mask_count condition] (mask_select (cells coords) condition))
      true kwargs w = (Ok mo, w')
    ∧ mo !! "B" = Some (VQuantity sub_b) ∧ mo !! "J" = Some (VQuantity sub_j)
    ∧ out !! "B" = Some (VQuantity b) ∧ out !! "J" = Some (VQuantity j)
    ∧ shape (avalue b) = shape coords ∧ shape (avalue j) = shape coords
    ∧ wf (avalue b) ∧ wf (avalue j)
    ∧ mask_select (cells (avalue b)) condition = cells (avalue sub_b)
    ∧ mask_select (cells (avalue j)) condition = cells (avalue sub_j).
Proof.
  intros Hwf H condition.
  apply load_masked_Ok in H as (mo & sub_b & sub_j & b & j & Hkw & HB & Hb & HJ & Hj & ->).
  fold condition in Hkw, Hb, Hj.
  assert (length condition = numel (lead coords)) as Hlen
    by (unfold condition; by rewrite !length_map).
  assert (length (mask_select (cells coords) condition) = mask_count condition) as Hcount
    by (apply length_mask_select; unfold condition; by rewrite !length_map).
  rewrite Hcount in Hkw.
  pose proof Hkw as Hkw'.
  apply load_coords_kw_Ok_wf in Hkw'
    as (bq & jq & -> & Hbl & Hbwf & _ & Hjl & Hjwf & _).
  rewrite lookup_insert_ne, lookup_singleton_eq in HB by done. injection HB as <-.
  rewrite lookup_insert_eq in HJ. injection HJ as <-.
  unfold wf in Hbwf, Hjwf. rewrite Hbl in Hbwf. rewrite Hjl in Hjwf.
  cbn [lead numel fold_right] in Hbwf, Hjwf.
  destruct (fill_dense_select _ _ _ _ Hb Hlen ltac:(lia)) as (Hbs & Hbd & Hbw & _).
  destruct (fill_dense_select _ _ _ _ Hj Hlen ltac:(lia)) as (Hjs & Hjd & Hjw & _).
  exists b, j. eexists _, bq, jq. split; [exact Hkw|].
  split; [by rewrite lookup_insert_ne, lookup_singleton_eq by done|].
  split; [by rewrite lookup_insert_eq|].
  split; [by rewrite lookup_insert_eq|].
  split; [by do 2 rewrite lookup_insert_ne by done; rewrite lookup_insert_eq|].
  unfold shape. rewrite Hbd, Hjd. done.
Qed.

Lemma z_axis_load_masked_returns :
  ∃ out w', load_masked demo_spherical (1, 2)%R (0, 1)%R (0, 1)%R z_axis_lattice ∅
              fresh_world = (Ok out, w').
Proof.
  apply load_masked_returns.
  - rewrite z_axis_mask. discriminate.
  - set_solver.
  - set_solver.
  - done.
  - exact identity_model_shaped.
  - reflexivity.
Qed.

Lemma dense_fill_round_trip_witness :
  ∃ out b, outcome (load_masked demo_spherical (1, 2)%R (0, 1)%R (0, 1)%R z_axis_lattice ∅)
                   fresh_world = Ok out
           ∧ out !! "B" = Some (VQuantity b)
           ∧ shape (avalue b) = [1; 1; 2; 3].
Proof.
  destruct z_axis_load_masked_returns as (out & w' & Hrun).
  destruct (dense_fill_round_trip demo_spherical (1, 2)%R (0, 1)%R (0, 1)%R
              z_axis_lattice ∅ fresh_world out w' eq_refl Hrun)
    as (b & j & mo & sub_b & sub_j & _ & _ & _ & HB & _ & Hshape & _).
  exists out, b. unfold outcome. rewrite Hrun. done.
Defined.

(** X14 (mask count): entered with gradients enabled, a returning run of
    the masked part of [load] sends exactly [condition.sum()] points
    through the model, each selected lattice point once and no other. *)
Theorem evaluated_points_match_mask self rr lr lonr coords kwargs w out w' :
  grad_enabled w = true →
  load_masked self rr lr lonr coords kwargs w = (Ok out, w') →
  let condition :=
    map (in_window rr lr lonr) (map cartesian_to_spherical (cells coords)) in
  points_evaluated (drop (length (trace w)) (trace w')) = mask_count condition
  ∧ mask_count condition ≠ 0.
Proof.
  intros Hg H condition.
  apply load_masked_Ok in H as (mo & _ & _ & _ & _ & Hkw & _).
  fold condition in Hkw.
  apply load_coords_kw_Ok in Hkw as (_ & bs & pr & Hrun).
  set (sub := mask_select (cells coords) condition) in *.
  assert (length sub = mask_count condition) as Hcount
    by (apply length_mask_select; unfold condition; by rewrite !length_map).
  destruct (decide (1 ≤ bs)%Z) as [Hbs|Hbs].
  2:{ destruct (_load_without_chunk (sph_base self) bs pr true (mk_array3 [length sub] sub) w)
        as [e He]; [left; lia|].
      unfold load_coords in Hrun. simpl in Hrun. by rewrite He in Hrun. }
  destruct (ceil_div_pos (length sub) bs Hbs) as (n & Hn & Hcov & Hz & _).
  pose proof (load_coords_run (sph_base self) (mk_array3 [length sub] sub) bs pr true w
                (Z.of_nat n) Hg Hn) as Hrun'.
  simpl in Hrun'. rewrite Nat2Z.id in Hrun'. rewrite Hrun in Hrun'.
  injection Hrun' as Hmo ->. cbn [trace]. rewrite drop_app_length.
  rewrite points_evaluated_batch_events.
  rewrite all_chunks by (done || by rewrite length_normalized_rows).
  rewrite length_normalized_rows. cbn [cells]. split; [done|].
  rewrite <-Hcount. intros Hzero. apply Hz in Hzero. subst n.
  unfold assemble in Hmo. by simpl in Hmo.
Qed.

Lemma evaluated_points_match_mask_witness :
  ∃ out w',
    load_masked demo_spherical (1, 2)%R (0, 1)%R (0, 1)%R z_axis_lattice ∅ fresh_world
    = (Ok out, w')
    ∧ points_evaluated (drop 0 (trace w')) = 1.
Proof.
  destruct z_axis_load_masked_returns as (out & w' & Hrun).
  destruct (evaluated_points_match_mask demo_spherical (1, 2)%R (0, 1)%R (0, 1)%R
              z_axis_lattice ∅ fresh_world out w' eq_refl Hrun) as [Hsum _].
  exists out, w'. split; [exact Hrun|].
  rewrite z_axis_mask in Hsum. exact Hsum.
Defined.

(* ===================================================================== *)
(** ** The points of a lattice *)

Lemma lookup_flat_map_uniform {A B} (f : A → list B) (l : list A) (m i r : nat) :
  (∀ a, length (f a) = m) → r < m →
  flat_map f l !! (i * m + r) = l !! i ≫= λ a, f a !! r.
Proof.
  intros Hm Hr. revert i. induction l as [|a l IH]; intros i; [done|].
  cbn [flat_map]. destruct i as [|i].
  - simpl. rewrite lookup_app_l by (rewrite Hm; lia). done.
  - rewrite lookup_app_r by (rewrite Hm; lia). rewrite Hm.
    replace (S i * m + r - m) with (i * m + r) by lia. apply IH.
Qed.

Lemma lookup_meshgrid xs ys zs i j k x y z :
  xs !! i = Some x → ys !! j = Some y → zs !! k = Some z →
  cells (meshgrid_ij xs ys zs) !! ((i * length ys + j) * length zs + k) = Some (x, y, z).
Proof.
  intros Hx Hy Hz. cbn [meshgrid_ij cells].
  pose proof (lookup_lt_Some _ _ _ Hy) as Hj.
  pose proof (lookup_lt_Some _ _ _ Hz) as Hk.
  replace ((i * length ys + j) * length zs + k)
    with (i * (length ys * length zs) + (j * length zs + k)) by lia.
  rewrite (lookup_flat_map_uniform _ xs (length ys * length zs)).
  - rewrite Hx. cbn [mbind option_bind].
    rewrite (lookup_flat_map_uniform _ ys (length zs)); [|intros; apply length_map|done].
    rewrite Hy. cbn [mbind option_bind]. by rewrite list_lookup_fmap, Hz.
  - intros a. induction ys as [|y' ys' IH']; [done|].
    cbn [flat_map length]. rewrite length_app, length_map.
    clear Hy Hj IH'. induction ys' as [|y'' ys'' IH'']; [simpl; lia|].
    cbn [flat_map length] in *. rewrite length_app, length_map. lia.
  - nia.
Qed.

Lemma lookup_linspace lo hi num xs (i : nat) :
  linspace lo hi num = Ok xs → i < Z.to_nat num →
  xs !! i = Some (axis_sample lo hi num i).
Proof.
  unfold linspace. case_decide; [done|]. intros [= <-] Hi.
  rewrite list_lookup_fmap, lookup_seq_lt by done. done.
Qed.

Lemma axis_sample_ends lo hi num :
  axis_sample lo hi num 0 = lo
  ∧ ((2 ≤ num)%Z → axis_sample lo hi num (Z.to_nat num - 1) = hi).
Proof.
  unfold axis_sample. split; [simpl; lra|]. intros Hnum.
  rewrite minus_INR by lia. rewrite INR_IZR_INZ, Z2Nat.id by lia.
  simpl. assert (2 <= IZR num)%R by (by apply IZR_le). field. lra.
Qed.

(** X15 (lattice points): in the lattice both samplers build from a box,
    the point at flat position [(i * ny + j) * nz + k] is
    [(x_i, y_j, z_k)], with [x_i = x_min + i (x_max - x_min) / (nx - 1)]
    and likewise for y and z: the last axis varies fastest, the first
    point is the lower corner of the box, and with at least two samples
    per axis the last point is its upper corner. *)
Theorem box_lattice_points xr yr zr ppu coords (i j k : nat) :
  box_lattice xr yr zr ppu = Ok coords →
  let nx := axis_num xr.1 xr.2 ppu in
  let ny := axis_num yr.1 yr.2 ppu in
  let nz := axis_num zr.1 zr.2 ppu in
  i < Z.to_nat nx → j < Z.to_nat ny → k < Z.to_nat nz →
  cells coords !! ((i * Z.to_nat ny + j) * Z.to_nat nz + k)
  = Some (axis_sample xr.1 xr.2 nx i, axis_sample yr.1 yr.2 ny j,
          axis_sample zr.1 zr.2 nz k)
  ∧ cells coords !! 0 = Some (xr.1, yr.1, zr.1)
  ∧ ((2 ≤ nx)%Z → (2 ≤ ny)%Z → (2 ≤ nz)%Z →
     cells coords !! (length (cells coords) - 1) = Some (xr.2, yr.2, zr.2)).
Proof.
  intros Hbox nx ny nz Hi Hj Hk. unfold box_lattice in Hbox.
  apply res_bind_Ok in Hbox as (xs & Hxs & Hbox).
  apply res_bind_Ok in Hbox as (ys & Hys & Hbox).
  apply res_bind_Ok in Hbox as (zs & Hzs & Hbox).
  injection Hbox as <-. fold nx in Hxs. fold ny in Hys. fold nz in Hzs.
  destruct (linspace_Ok _ _ _ _ Hxs) as [_ Hlx].
  destruct (linspace_Ok _ _ _ _ Hys) as [_ Hly].
  destruct (linspace_Ok _ _ _ _ Hzs) as [_ Hlz].
  assert (∀ a b c, a < Z.to_nat nx → b < Z.to_nat ny → c < Z.to_nat nz →
            cells (meshgrid_ij xs ys zs) !! ((a * Z.to_nat ny + b) * Z.to_nat nz + c)
            = Some (axis_sample xr.1 xr.2 nx a, axis_sample yr.1 yr.2 ny b,
                    axis_sample zr.1 zr.2 nz c)) as Hat.
  { intros a b c Ha Hb Hc. rewrite <-Hly, <-Hlz.
    apply lookup_meshgrid; by eapply lookup_linspace. }
  split; [by apply Hat|]. split.
  - specialize (Hat 0 0 0 ltac:(lia) ltac:(lia) ltac:(lia)).
    rewrite !(proj1 (axis_sample_ends _ _ _)) in Hat. exact Hat.
  - intros Hx2 Hy2 Hz2.
    specialize (Hat (Z.to_nat nx - 1) (Z.to_nat ny - 1) (Z.to_nat nz - 1)
                  ltac:(lia) ltac:(lia) ltac:(lia)).
    rewrite !(proj2 (axis_sample_ends _ _ _)) in Hat by done.
    rewrite length_meshgrid, Hlx, Hly, Hlz. rewrite <-Hat. f_equal. nia.
Qed.

Lemma box_lattice_points_witness :
  cells unit_cube !! 0 = Some (0, 0, 0)%R
  ∧ cells unit_cube !! (length (cells unit_cube) - 1) = Some (1, 1, 1)%R.
Proof.
  assert (axis_num 0 1 (1 / (1 / 4)) = 4%Z) as Hn.
  { unfold axis_num. replace ((1 - 0) * (1 / (1 / 4)))%R with (IZR 4) by lra.
    apply py_int_IZR. }
  destruct (box_lattice_points (0, 1)%R (0, 1)%R (0, 1)%R (1 / (1 / 4)) unit_cube 0 0 0
              unit_cube_lattice) as (_ & Hfirst & Hlast);
    [cbn [fst snd]; rewrite Hn; lia..|].
  split; [exact Hfirst|]. apply Hlast; cbn [fst snd]; rewrite Hn; lia.
Defined.

(* ===================================================================== *)
(** * Further properties of the metrics *)

(** X16 (range of the angle): whatever the field and the current density,
    [theta_J] is either not-a-number or a finite angle strictly between
    -90 and 90 degrees: the clip keeps the inverse sine inside its
    domain, also when the ratio is infinite, but lets not-a-number
    through. *)
Theorem theta_J_range (b j : list fvec3) :
  theta_J b j = NaN ∨ ∃ x, theta_J b j = Fin x ∧ (-90 < x < 90)%R.
Proof.
  unfold theta_J.
  match goal with
  | |- context [F.clip ?a _ _] => generalize a
  end.
  intros a. pose proof PI_RGT_0 as Hpi.
  assert (∀ y, -1 + eps7 <= y <= 1 - eps7 →
               F.rad2deg (F.arcsin (Fin y)) = Fin (asin y * (180 / PI))
               ∧ -90 < asin y * (180 / PI) < 90)%R as Hin.
  { intros y Hy. unfold eps7 in Hy. unfold F.arcsin.
    rewrite decide_True by lra. split; [done|].
    destruct (asin_bound_lt y) as [Hlo Hhi]; [lra|].
    assert (0 < 180 / PI)%R as Hk by (apply Rdiv_lt_0_compat; lra).
    replace 90%R with (PI / 2 * (180 / PI))%R by (field; lra).
    replace (-90)%R with (- (PI / 2) * (180 / PI))%R by (field; lra).
    split; apply Rmult_lt_compat_r; lra. }
  assert (-1 + eps7 <= 1 - eps7)%R as Heps by (unfold eps7; lra).
  destruct a as [x| | |]; cbn [F.clip]; [| | |by left]; right.
  - eexists. apply Hin. split.
    + apply Rmin_glb; [apply Rmax_r|lra].
    + apply Rmin_r.
  - eexists. apply Hin. lra.
  - eexists. apply Hin. lra.
Qed.

(** X17 (stabilised score): for a finite field without current, [sigma_J]
    is exactly 0, also on an empty set of points: its denominators carry
    the 1e-7 stabiliser. *)
Theorem sigma_J_zero_current (bs : list vec3) :
  sigma_J (map fin3 bs) (map (λ _, fin3 vzero) bs) = Fin 0.
Proof.
  unfold sigma_J.
  assert (zip_with (λ c bi, F.div (fnorm c) (F.add (fnorm bi) (Fin eps7)))
            (zip_with fcross (map (λ _, fin3 vzero) bs) (map fin3 bs)) (map fin3 bs)
          = map (λ _, Fin 0) bs) as ->.
  { induction bs as [|v bs IH]; [done|].
    cbn [map zip_with]. by rewrite IH, ff_zero_current. }
  assert (map fnorm (map (λ _ : vec3, fin3 vzero) bs) = map (λ _, Fin 0) bs) as ->.
  { rewrite map_map. apply map_ext. intros _. apply fnorm_zero. }
  rewrite !sum_zeros. cbn [F.add F.div].
  rewrite decide_False by (unfold eps7; lra). f_equal. unfold Rdiv. ring.
Qed.

(** X18 (no validation point): with an empty set of validation points the
    callback logs not-a-number for the divergence, the force-free score
    and [theta_J] (means and ratios of nothing), and 0 for [sigma_J],
    whatever the scales. *)
Theorem metrics_of_no_point key gauss_per_dB Mm_per_ds :
  on_validation_epoch_end key gauss_per_dB Mm_per_ds
    {[ key := mk_validation_output [] [] [] ]}
  = Some (mk_metrics NaN NaN (Fin 0) NaN).
Proof.
  unfold on_validation_epoch_end. rewrite lookup_singleton_eq. cbn [map out_b out_j out_div].
  f_equal.
  assert (F.div (Fin 0) (Fin 0) = NaN) as Hnan.
  { cbn [F.div]. rewrite decide_True by done. by rewrite decide_True. }
  unfold div_loss, ff_loss, sigma_J, theta_J, F.mean, F.sum. cbn.
  rewrite !decide_True by done.
  rewrite decide_False by (unfold eps7; lra).
  f_equal. f_equal. unfold Rdiv. ring.
Qed.

(* ===================================================================== *)
(** * The boundary callback *)

Lemma scaled_error_clipped g b t e :
  (0 <= g)%R → (Rabs (b - t) <= e)%R →
  Rmax (Rabs (b * g + - (t * g)) + - (e * g)) 0 = 0%R.
Proof.
  intros Hg Hbt. apply Rmax_right.
  replace (b * g + - (t * g))%R with ((b - t) * g)%R by ring.
  rewrite Rabs_mult, (Rabs_right g) by lra. nra.
Qed.

Lemma nanmean_zeros {A} (l : list A) :
  l ≠ [] → nanmean (map (λ _, Fin 0) l) = Fin 0.
Proof.
  intros Hne. unfold nanmean.
  assert (filter (λ a, is_nan a = false) (map (λ _ : A, Fin 0) l)
          = map (λ _, Fin 0) l) as ->.
  { clear. induction l as [|a l IH]; [done|].
    cbn [map]. rewrite filter_cons, decide_True by done. by rewrite IH. }
  unfold F.mean. rewrite sum_zeros, length_map. cbn [F.div].
  rewrite decide_False.
  - f_equal. unfold Rdiv. ring.
  - apply not_0_INR. by destruct l.
Qed.

(** X19 (boundary error): for finite fields, a non-negative field scale and
    at least one validation point, when every component of the
    reconstructed field is within its error bar of the reference the
    logged [b_diff_err] is exactly 0, and when the two fields coincide
    [b_diff] is 0 as well; [b_diff_err] is logged because ['b_err'] is
    given. *)
Theorem boundary_error_within_bars key g (pts : list (vec3 * vec3 * vec3)) :
  (0 <= g)%R → pts ≠ [] →
  Forall (λ p, within_error p.1.1 p.1.2 p.2) pts →
  ∃ evaluation,
    boundary_evaluation key (Fin g) {[ key := boundary_of pts ]} = Some evaluation
    ∧ dom evaluation = ({[ "b_diff"; "b_diff_err" ]} : gset string)
    ∧ evaluation !! "b_diff_err" = Some (Fin 0)
    ∧ (Forall (λ p, p.1.1 = p.1.2) pts → evaluation !! "b_diff" = Some (Fin 0)).
Proof.
  intros Hg Hne Hall. unfold boundary_evaluation. rewrite lookup_singleton_eq.
  unfold boundary_of. cbn [bo_b bo_b_true bo_transform bo_b_err].
  eexists. split; [done|].
  split; [rewrite dom_insert_L, dom_singleton_L; set_solver|].
  rewrite lookup_insert_eq. rewrite lookup_insert_ne, lookup_singleton_eq by done.
  split.
  - f_equal. rewrite <-(nanmean_zeros pts Hne). f_equal.
    clear Hne. induction pts as [|[[b t] e] pts IH]; [done|].
    apply Forall_cons in Hall as [Hp Hall].
    cbn [map zip_with]. rewrite IH by done. f_equal.
    destruct b as [[b1 b2] b3], t as [[t1 t2] t3], e as [[e1 e2] e3].
    destruct Hp as (H1 & H2 & H3). cbn [fst snd] in *.
    cbn -[Rabs Rmax]. rewrite !scaled_error_clipped by done.
    apply fnorm_zero.
  - intros Heq. f_equal. rewrite <-(nanmean_zeros pts Hne). f_equal.
    clear Hne Hall. induction pts as [|[[b t] e] pts IH]; [done|].
    apply Forall_cons in Heq as [Hp Heq]. cbn [fst snd] in Hp. subst t.
    cbn [map zip_with]. rewrite IH by done. f_equal.
    destruct b as [[b1 b2] b3]. cbn -[Rabs].
    replace (b1 * g + - (b1 * g))%R with 0%R by ring.
    replace (b2 * g + - (b2 * g))%R with 0%R by ring.
    replace (b3 * g + - (b3 * g))%R with 0%R by ring.
    rewrite Rabs_R0. apply fnorm_zero.
Qed.

Lemma boundary_error_within_bars_witness :
  ∃ evaluation,
    boundary_evaluation "boundary" (Fin 100)
      {[ "boundary" := boundary_of [((1, 2, 3), (1, 2, 4), (0, 0, 1))%R] ]}
    = Some evaluation
    ∧ evaluation !! "b_diff_err" = Some (Fin 0).
Proof.
  destruct (boundary_error_within_bars "boundary" 100
              [((1, 2, 3), (1, 2, 4), (0, 0, 1))%R])
    as (ev & Hev & _ & Herr & _).
  - lra.
  - discriminate.
  - apply Forall_cons. split; [|apply Forall_nil_2].
    simpl. repeat split; (unfold Rabs; destruct (Rcase_abs _); lra).
  - exists ev. split; [exact Hev | exact Herr].
Defined.

(* ===================================================================== *)
(** * [load_spherical_coords] *)



(* ===================================================================== *)
(** * Keywords the samplers pass on *)

Lemma load_coords_kw_rejected self coords cc kwargs w :
  "compute_currents" ∈ dom kwargs
  ∨ ¬ dom kwargs ⊆ ({[ "batch_size"; "progress" ]} : gset string) →
  load_coords_kw self coords cc kwargs w = (Raise TypeError, w).
Proof.
  intros Hbad. unfold load_coords_kw, raise, lift.
  repeat case_decide; try done. by destruct Hbad.
Qed.

(** X21 (keywords): the samplers hand their extra keywords to
    [load_coords].  With [compute_currents] among them (it is already
    given), or any keyword other than [batch_size] and [progress], the
    call is a [TypeError]; [load_cube] and [load] then raise without a
    call of the model and leave the world as it was. *)
Theorem sampler_keywords_rejected (cart : CartesianOutput) (sph : SphericalOutput)
    hr mpp rra lra lonr resa kwargs w :
  "compute_currents" ∈ dom kwargs
  ∨ ¬ dom kwargs ⊆ ({[ "batch_size"; "progress" ]} : gset string) →
  (∃ e, load_cube cart hr mpp kwargs w = (Raise e, w))
  ∧ (∃ e, load sph rra lra (Some lonr) resa kwargs w = (Raise e, w))
  ∧ (∀ zr ppd coords,
       cube_z_range cart hr = Ok zr → cube_pixel_per_ds cart mpp = Ok ppd →
       box_lattice (coord_range cart).1.1 (coord_range cart).1.2 zr ppd = Ok coords →
       load_cube cart hr mpp kwargs w = (Raise TypeError, w)).
Proof.
  intros Hbad.
  assert (∀ zr ppd coords,
            cube_z_range cart hr = Ok zr → cube_pixel_per_ds cart mpp = Ok ppd →
            box_lattice (coord_range cart).1.1 (coord_range cart).1.2 zr ppd = Ok coords →
            load_cube cart hr mpp kwargs w = (Raise TypeError, w)) as Hcube.
  { intros zr ppd coords Hzr Hppd Hbox. unfold load_cube, bind, lift.
    rewrite Hzr, Hppd, Hbox. by rewrite load_coords_kw_rejected. }
  split; [|split; [|done]].
  - destruct (cube_z_range cart hr) as [zr|e] eqn:Hzr;
      [|exists e; unfold load_cube, bind, lift; by rewrite Hzr].
    destruct (cube_pixel_per_ds cart mpp) as [ppd|e] eqn:Hppd;
      [|exists e; unfold load_cube, bind, lift; by rewrite Hzr, Hppd].
    destruct (box_lattice (coord_range cart).1.1 (coord_range cart).1.2 zr ppd)
      as [coords|e] eqn:Hbox;
      [|exists e; unfold load_cube, bind, lift; by rewrite Hzr, Hppd, Hbox].
    exists TypeError. by eapply Hcube.
  - unfold load. rewrite (bind_run _ _ w lonr w) by done.
    destruct (load_lattice _ _ _ _) as [coords|e] eqn:Hlat.
    + rewrite (bind_run _ _ w coords w) by done.
      exists TypeError. unfold load_masked, bind.
      by rewrite load_coords_kw_rejected.
    + exists e. unfold bind, lift. done.
Qed.

Lemma sampler_keywords_rejected_witness :
  load_cube demo_cartesian None None {[ "compute_currents" := KBool false ]} fresh_world
  = (Raise TypeError, fresh_world).
Proof.
  assert (cube_pixel_per_ds demo_cartesian None = Ok (1 / (1 / 4))%R) as Hppd.
  { simpl. unfold py_div. case_decide; [lra|done]. }
  refine (proj2 (proj2 (sampler_keywords_rejected demo_cartesian demo_spherical None None
                          None None (0, 1)%R None {[ "compute_currents" := KBool false ]}
                          fresh_world _)) (0, 1)%R _ unit_cube eq_refl Hppd
            unit_cube_lattice).
  left. set_solver.
Defined.

(* ===================================================================== *)
(** * The window samples and lattice of a concrete call of [load] *)

Lemma axis_sample_range lo hi num (i : nat) :
  (2 ≤ num)%Z → (lo <= hi)%R → i < Z.to_nat num →
  (lo <= axis_sample lo hi num i <= hi)%R.
Proof.
  intros Hnum Hle Hi. unfold axis_sample.
  assert (0 <= INR i)%R by apply pos_INR.
  assert (INR i <= IZR num - 1)%R.
  { rewrite INR_IZR_INZ, <-minus_IZR. apply IZR_le. lia. }
  assert (2 <= IZR num)%R by (by apply IZR_le).
  set (d := (IZR num - 1)%R) in *.
  assert ((hi - lo) / d * d = hi - lo)%R as Hq by (field; unfold d; lra).
  assert (0 <= (hi - lo) / d)%R.
  { apply Rmult_le_pos; [lra|]. left. apply Rinv_0_lt_compat. unfold d. lra. }
  assert (0 < d)%R by (unfold d; lra).
  set (q := ((hi - lo) / d)%R) in *. clearbody d q. nra.
Qed.

(** An axis of at least two samples holds both ends and stays between
    them. *)
Lemma linspace_elems lo hi num xs :
  linspace lo hi num = Ok xs → (2 ≤ num)%Z → (lo <= hi)%R →
  lo ∈ xs ∧ hi ∈ xs ∧ ∀ x, x ∈ xs → (lo <= x <= hi)%R.
Proof.
  intros Hxs Hnum Hle. split; [|split].
  - apply (list_elem_of_lookup_2 _ 0).
    rewrite (lookup_linspace _ _ _ _ 0 Hxs) by lia. f_equal. apply axis_sample_ends.
  - apply (list_elem_of_lookup_2 _ (Z.to_nat num - 1)).
    rewrite (lookup_linspace _ _ _ _ _ Hxs) by lia. f_equal. by apply axis_sample_ends.
  - intros x Hx. apply list_elem_of_lookup_1 in Hx as [i Hi].
    pose proof (lookup_lt_Some _ _ _ Hi) as Hlt.
    destruct (linspace_Ok _ _ _ _ Hxs) as [_ Hl]. rewrite Hl in Hlt.
    rewrite (lookup_linspace _ _ _ _ i Hxs) in Hi by done. injection Hi as <-.
    by apply axis_sample_range.
Qed.

Lemma elem_of_meshgrid xs ys zs x y z :
  x ∈ xs → y ∈ ys → z ∈ zs → (x, y, z) ∈ cells (meshgrid_ij xs ys zs).
Proof.
  intros Hx Hy Hz. cbn [meshgrid_ij cells].
  apply list_elem_of_In, in_flat_map. exists x. split; [by apply list_elem_of_In|].
  apply in_flat_map. exists y. split; [by apply list_elem_of_In|].
  apply in_map. by apply list_elem_of_In.
Qed.

Lemma elem_of_meshgrid_inv xs ys zs v :
  v ∈ cells (meshgrid_ij xs ys zs) →
  ∃ x y z, v = (x, y, z) ∧ x ∈ xs ∧ y ∈ ys ∧ z ∈ zs.
Proof.
  cbn [meshgrid_ij cells]. intros Hv.
  apply list_elem_of_In, in_flat_map in Hv as (x & Hx & Hv).
  apply in_flat_map in Hv as (y & Hy & Hv).
  apply in_map_iff in Hv as (z & <- & Hz).
  exists x, y, z. by rewrite !list_elem_of_In.
Qed.

(** The first octant between the radii 1 and 2 lies in the cube from 0
    to 2. *)
Lemma octant_bounds r t p :
  (1 <= r <= 2)%R → (0 <= t <= PI / 2)%R → (0 <= p <= PI / 2)%R →
  let v := spherical_to_cartesian (r, t, p) in
  (0 <= comp0 v <= 2 ∧ 0 <= comp1 v <= 2 ∧ 0 <= comp2 v <= 2)%R.
Proof.
  intros Hr Ht Hp. cbn. pose proof PI_RGT_0 as Hpi.
  pose proof (sin_ge_0 t ltac:(lra) ltac:(lra)) as Hst.
  pose proof (sin_ge_0 p ltac:(lra) ltac:(lra)) as Hsp.
  pose proof (cos_ge_0 t ltac:(lra) ltac:(lra)) as Hct.
  pose proof (cos_ge_0 p ltac:(lra) ltac:(lra)) as Hcp.
  pose proof (SIN_bound t) as [_ Hst1]. pose proof (SIN_bound p) as [_ Hsp1].
  pose proof (COS_bound t) as [_ Hct1]. pose proof (COS_bound p) as [_ Hcp1].
  assert (0 <= sin t * cos p <= 1)%R by nra.
  assert (0 <= sin t * sin p <= 1)%R by nra.
  rewrite !Rmult_assoc. repeat split; nra.
Qed.

Lemma octant_box_lattice :
  box_lattice (0, 2)%R (0, 2)%R (0, 2)%R (3 / 2) = Ok octant_lattice.
Proof.
  unfold box_lattice, axis_num. cbn [fst snd].
  replace ((2 - 0) * (3 / 2))%R with (IZR 3) by lra.
  rewrite py_int_IZR. unfold linspace. by case_decide.
Qed.

Lemma octant_bounding_box rs ts ps :
  (1 ∈ rs ∧ 2 ∈ rs ∧ ∀ r, r ∈ rs → 1 <= r <= 2)%R →
  (0 ∈ ts ∧ PI / 2 ∈ ts ∧ ∀ t, t ∈ ts → 0 <= t <= PI / 2)%R →
  (0 ∈ ps ∧ PI / 2 ∈ ps ∧ ∀ p, p ∈ ps → 0 <= p <= PI / 2)%R →
  let cb := map spherical_to_cartesian (cells (meshgrid_ij rs ts ps)) in
  amin (map comp0 cb) = Ok 0%R ∧ amax (map comp0 cb) = Ok 2%R
  ∧ amin (map comp1 cb) = Ok 0%R ∧ amax (map comp1 cb) = Ok 2%R
  ∧ amin (map comp2 cb) = Ok 0%R ∧ amax (map comp2 cb) = Ok 2%R.
Proof.
  intros (Hr0 & Hr1 & Hrb) (Ht0 & Ht1 & Htb) (Hp0 & Hp1 & Hpb) cb.
  assert (∀ v, v ∈ cb →
            (0 <= comp0 v <= 2 ∧ 0 <= comp1 v <= 2 ∧ 0 <= comp2 v <= 2)%R) as Hbox.
  { intros v Hv. apply list_elem_of_fmap in Hv as (sc & -> & Hsc).
    apply elem_of_meshgrid_inv in Hsc as (r & t & p & -> & Hr & Ht & Hp).
    apply octant_bounds; auto. }
  assert (∀ r t p, r ∈ rs → t ∈ ts → p ∈ ps →
            spherical_to_cartesian (r, t, p) ∈ cb) as Hin.
  { intros r t p Hr Ht Hp. apply list_elem_of_fmap_2. by apply elem_of_meshgrid. }
  assert (∀ (f : vec3 → R) y, y ∈ map f cb → ∃ v, y = f v ∧ v ∈ cb) as Hof.
  { intros f y Hy. by apply list_elem_of_fmap in Hy. }
  assert (∀ (f : vec3 → R) sc m, m = f sc → sc ∈ cb → m ∈ map f cb) as Hat.
  { intros f sc m -> Hsc. by apply list_elem_of_fmap_2. }
  repeat split.
  - apply amin_eq.
    + apply (Hat comp0 (spherical_to_cartesian (1, 0, 0)%R)); [|by apply Hin].
      cbn. rewrite sin_0. ring.
    + intros y Hy. apply Hof in Hy as (v & -> & Hv). apply Hbox in Hv. lra.
  - apply amax_eq.
    + apply (Hat comp0 (spherical_to_cartesian (2, PI / 2, 0)%R)); [|by apply Hin].
      cbn. rewrite sin_PI2, cos_0. ring.
    + intros y Hy. apply Hof in Hy as (v & -> & Hv). apply Hbox in Hv. lra.
  - apply amin_eq.
    + apply (Hat comp1 (spherical_to_cartesian (1, 0, 0)%R)); [|by apply Hin].
      cbn. rewrite sin_0. ring.
    + intros y Hy. apply Hof in Hy as (v & -> & Hv). apply Hbox in Hv. lra.
  - apply amax_eq.
    + apply (Hat comp1 (spherical_to_cartesian (2, PI / 2, PI / 2)%R)); [|by apply Hin].
      cbn. rewrite sin_PI2. ring.
    + intros y Hy. apply Hof in Hy as (v & -> & Hv). apply Hbox in Hv. lra.
  - apply amin_eq.
    + apply (Hat comp2 (spherical_to_cartesian (1, PI / 2, 0)%R)); [|by apply Hin].
      cbn. rewrite cos_PI2. ring.
    + intros y Hy. apply Hof in Hy as (v & -> & Hv). apply Hbox in Hv. lra.
  - apply amax_eq.
    + apply (Hat comp2 (spherical_to_cartesian (2, 0, 0)%R)); [|by apply Hin].
      cbn. rewrite cos_0. ring.
    + intros y Hy. apply Hof in Hy as (v & -> & Hv). apply Hbox in Hv. lra.
Qed.

Lemma load_lattice_box rr lr lonr res rs ts ps x0 x1 y0 y1 z0 z1 :
  linspace rr.1 rr.2 50 = Ok rs → linspace lr.1 lr.2 50 = Ok ts →
  linspace lonr.1 lonr.2 50 = Ok ps →
  let cb := map spherical_to_cartesian (cells (meshgrid_ij rs ts ps)) in
  amin (map comp0 cb) = Ok x0 → amax (map comp0 cb) = Ok x1 →
  amin (map comp1 cb) = Ok y0 → amax (map comp1 cb) = Ok y1 →
  amin (map comp2 cb) = Ok z0 → amax (map comp2 cb) = Ok z1 →
  load_lattice rr lr lonr res = box_lattice (x0, x1) (y0, y1) (z0, z1) res.
Proof.
  intros Hrs Hts Hps cb Hx0 Hx1 Hy0 Hy1 Hz0 Hz1. unfold load_lattice.
  rewrite Hrs, Hts, Hps. cbn [res_bind]. fold cb.
  by rewrite Hx0, Hx1, Hy0, Hy1, Hz0, Hz1.
Qed.

Lemma octant_load_lattice :
  load_lattice (1, 2)%R (0, PI / 2)%R (0, PI / 2)%R (3 / 2) = Ok octant_lattice.
Proof.
  pose proof PI_RGT_0 as Hpi.
  assert (∃ rs, linspace 1 2 50 = Ok rs) as [rs Hrs]
    by (eexists; apply linspace_nonneg; lia).
  assert (∃ ts, linspace 0 (PI / 2) 50 = Ok ts) as [ts Hts]
    by (eexists; apply linspace_nonneg; lia).
  destruct (octant_bounding_box rs ts ts) as (Hx0 & Hx1 & Hy0 & Hy1 & Hz0 & Hz1).
  - apply (linspace_elems _ _ _ _ Hrs); [lia|lra].
  - apply (linspace_elems _ _ _ _ Hts); [lia|lra].
  - apply (linspace_elems _ _ _ _ Hts); [lia|lra].
  - rewrite (load_lattice_box (1, 2)%R (0, PI / 2)%R (0, PI / 2)%R (3 / 2) rs ts ts
               0 2 0 2 0 2 Hrs Hts Hts Hx0 Hx1 Hy0 Hy1 Hz0 Hz1).
    exact octant_box_lattice.
Qed.

Lemma elem_of_mask_select {A} (f : A → bool) rows p :
  p ∈ mask_select rows (map f rows) ↔ p ∈ rows ∧ f p = true.
Proof.
  induction rows as [|r rows IH]; cbn [map mask_select].
  - split; [intros H|intros [H _]]; by apply elem_of_nil in H.
  - destruct (f r) eqn:Hr.
    + rewrite !elem_of_cons, IH. split.
      * intros [->|[? ?]]; eauto.
      * intros [[->|?] ?]; eauto.
    + rewrite elem_of_cons, IH. split.
      * intros [? ?]; eauto.
      * intros [[->|?] ?]; [congruence|eauto].
Qed.

(** The points [load] evaluates are the lattice points its mask marks. *)
Lemma elem_of_masked_points rr lr lonr coords p :
  p ∈ cells (masked_points rr lr lonr coords)
  ↔ p ∈ cells coords ∧ in_window rr lr lonr (cartesian_to_spherical p) = true.
Proof.
  unfold masked_points, coverage_mask. cbn [cells]. rewrite map_map.
  apply (elem_of_mask_select (λ q, in_window rr lr lonr (cartesian_to_spherical q))).
Qed.

(** The lattice point at height 1 on the z axis is inside the window. *)
Lemma octant_point_selected :
  (0, 0, 1)%R
  ∈ cells (masked_points (1, 2)%R (0, PI / 2)%R (0, PI / 2)%R octant_lattice).
Proof.
  pose proof PI_RGT_0 as Hpi. apply elem_of_masked_points. split.
  - apply (list_elem_of_lookup_2 _ 1).
    assert ((0 + INR 0 * ((2 - 0) / (IZR 3 - 1)))%R = 0%R) as H0 by (simpl; lra).
    assert ((0 + INR 1 * ((2 - 0) / (IZR 3 - 1)))%R = 1%R) as H1 by (simpl; lra).
    transitivity (Some ((0 + INR 0 * ((2 - 0) / (IZR 3 - 1)))%R,
                        (0 + INR 0 * ((2 - 0) / (IZR 3 - 1)))%R,
                        (0 + INR 1 * ((2 - 0) / (IZR 3 - 1)))%R)); [reflexivity|].
    by rewrite H0, H1.
  - rewrite cartesian_to_spherical_z_axis by lra. apply in_window_true.
    cbn [fst snd]. unfold wrap_lat, wrap_lon. rewrite !py_mod_small by lra. lra.
Qed.

(* ===================================================================== *)
(** * The samplers always ask for the current density *)

Lemma load_coords_kw_Ok_run self coords cc kwargs w mo w' :
  load_coords_kw self coords cc kwargs w = (Ok mo, w') →
  ("compute_currents" ∉ dom kwargs)
  ∧ load_coords self coords (kw_batch_size kwargs) (kw_progress kwargs) cc w
    = (Ok mo, w').
Proof. unfold load_coords_kw. repeat case_decide; done. Qed.

(** [load] returns when its lattice holds a point of the window. *)
Lemma load_returns self rra lra lonr resa kwargs w coords :
  let rr := default (radius_range self) rra in
  let lr := default (0, PI)%R lra in
  load_lattice rr lr lonr (default 64%R resa) = Ok coords →
  cells (masked_points rr lr lonr coords) ≠ [] →
  "compute_currents" ∉ dom kwargs →
  dom kwargs ⊆ ({[ "batch_size"; "progress" ]} : gset string) →
  (1 ≤ kw_batch_size kwargs)%Z →
  model_shaped (model (sph_base self)) → grad_enabled w = true →
  ∃ out w', load self rra lra (Some lonr) resa kwargs w = (Ok out, w').
Proof.
  intros rr lr Hlat Hne Hcc Hdom Hbs Hm Hg. unfold load. cbn [from_option].
  rewrite (bind_run _ _ w lonr w) by done.
  fold rr lr. rewrite (bind_run _ _ w coords w) by (unfold lift; by rewrite Hlat).
  by apply load_masked_returns.
Qed.

(** C10: every run of [load_cube] and of [load] that returns went through
    [load_coords] with [compute_currents] true, on the sampler's own
    evaluator and on the points of its own lattice ([load]: those under the
    mask), with the batch size and progress flag of the keywords; the
    keywords did not name [compute_currents] (naming it, with either value,
    never returns), and the ['J'] returned holds the rows of the ['J'] that
    [load_coords] computed ([load_cube]: reshaped to the lattice, [load]:
    under the mask).  Both samplers do return: [load_cube] on a non-empty
    lattice and [load] when a lattice point is selected, for a model that
    honours its interface, entered with gradients enabled. *)
Theorem samplers_compute_currents kwargs w :
  let bs := kw_batch_size kwargs in
  let pr := kw_progress kwargs in
  let accepted :=
    ("compute_currents" ∉ dom kwargs)
    ∧ dom kwargs ⊆ ({[ "batch_size"; "progress" ]} : gset string)
    ∧ (1 ≤ bs)%Z ∧ grad_enabled w = true in
  (∀ (self : CartesianOutput) hr mpp,
     (∀ out w', load_cube self hr mpp kwargs w = (Ok out, w') →
        ("compute_currents" ∉ dom kwargs)
        ∧ ∃ zr ppd coords mo jq j,
            cube_z_range self hr = Ok zr
            ∧ cube_pixel_per_ds self mpp = Ok ppd
            ∧ box_lattice (coord_range self).1.1 (coord_range self).1.2 zr ppd = Ok coords
            ∧ load_coords (cart_base self) (flattened coords) bs pr true w = (Ok mo, w')
            ∧ mo !! "J" = Some (VQuantity jq)
            ∧ out !! "J" = Some (VQuantity j)
            ∧ cells (avalue j) = cells (avalue jq)
            ∧ shape (avalue j) = shape coords)
     ∧ (∀ zr ppd coords,
          cube_z_range self hr = Ok zr → cube_pixel_per_ds self mpp = Ok ppd →
          box_lattice (coord_range self).1.1 (coord_range self).1.2 zr ppd = Ok coords →
          cells coords ≠ [] → model_shaped (model (cart_base self)) → accepted →
          ∃ out w', load_cube self hr mpp kwargs w = (Ok out, w')))
  ∧ (∀ (self : SphericalOutput) rra lra lona resa,
     let rr := default (radius_range self) rra in
     let lr := default (0, PI)%R lra in
     (∀ out w', load self rra lra lona resa kwargs w = (Ok out, w') →
        ("compute_currents" ∉ dom kwargs)
        ∧ ∃ lonr coords mo jq j,
            lona = Some lonr
            ∧ load_lattice rr lr lonr (default 64%R resa) = Ok coords
            ∧ load_coords (sph_base self) (masked_points rr lr lonr coords) bs pr true w
              = (Ok mo, w')
            ∧ mo !! "J" = Some (VQuantity jq)
            ∧ out !! "J" = Some (VQuantity j)
            ∧ mask_select (cells (avalue j)) (coverage_mask rr lr lonr coords)
              = cells (avalue jq)
            ∧ shape (avalue j) = shape coords)
     ∧ (∀ lonr coords,
          lona = Some lonr →
          load_lattice rr lr lonr (default 64%R resa) = Ok coords →
          cells (masked_points rr lr lonr coords) ≠ [] →
          model_shaped (model (sph_base self)) → accepted →
          ∃ out w', load self rra lra lona resa kwargs w = (Ok out, w'))).
Proof.
  intros bs pr accepted. split.
  - intros self hr mpp. split.
    + intros out w' H.
      apply load_cube_Ok in H
        as (zr & ppd & coords & mo & bq & jq & b & j
            & Hzr & Hppd & Hbox & Hkw & _ & _ & HJ & Hj & ->).
      apply load_coords_kw_Ok_run in Hkw as [Hcc Hrun].
      split; [done|]. exists zr, ppd, coords, mo, jq, j.
      apply qreshape_Ok in Hj as (Hcells & Hlead & _).
      repeat split; try done. unfold shape. by rewrite Hlead.
    + intros zr ppd coords Hzr Hppd Hbox Hne Hm (Hcc & Hdom & Hbs & Hg).
      destruct (load_cube_returns self hr mpp kwargs w zr ppd coords)
        as (out & w' & Hrun & _); eauto.
  - intros self rra lra lona resa rr lr. split.
    + intros out w' H.
      apply load_Ok in H as (lonr & coords & -> & Hlat & H). fold rr lr in Hlat, H.
      apply load_masked_Ok in H
        as (mo & sub_b & sub_j & b & j & Hkw & _ & _ & HJ & Hj & ->).
      fold (coverage_mask rr lr lonr coords) in Hkw, Hj.
      fold (masked_points rr lr lonr coords) in Hkw.
      pose proof Hkw as Hwf.
      apply load_coords_kw_Ok_wf in Hwf as (bq & jq & -> & _ & _ & _ & Hjl & Hjwf & _).
      rewrite lookup_insert_eq in HJ. injection HJ as <-.
      apply load_coords_kw_Ok_run in Hkw as [Hcc Hrun].
      split; [done|]. eexists lonr, coords, _, jq, j.
      destruct (load_lattice_Ok _ _ _ _ _ Hlat) as (xr & yr & zr & Hbox).
      destruct (box_lattice_Ok _ _ _ _ _ Hbox) as (Hcwf & _).
      assert (length (coverage_mask rr lr lonr coords) = numel (lead coords)) as Hlen
        by (unfold coverage_mask; by rewrite !length_map).
      assert (length (cells (avalue jq)) = mask_count (coverage_mask rr lr lonr coords))
        as Hcount.
      { rewrite Hjwf, Hjl. cbn [masked_points lead numel fold_right].
        rewrite Nat.mul_1_r. apply length_mask_select.
        unfold coverage_mask. by rewrite !length_map. }
      destruct (fill_dense_select _ _ _ _ Hj Hlen Hcount) as (Hsel & Hjd & _).
      split; [done|]. split; [done|]. split; [done|].
      split; [apply lookup_insert_eq|].
      split; [do 2 rewrite lookup_insert_ne by done; apply lookup_insert_eq|].
      split; [done|]. unfold shape. by rewrite Hjd.
    + intros lonr coords -> Hlat Hne Hm (Hcc & Hdom & Hbs & Hg).
      by apply (load_returns self rra lra lonr resa kwargs w coords).
Qed.

Lemma samplers_compute_currents_witness :
  (∃ out j, outcome (load_cube demo_cartesian None None ∅) fresh_world = Ok out
            ∧ out !! "J" = Some (VQuantity j))
  ∧ (∃ out j,
       outcome (load demo_spherical None (Some (0, PI / 2)%R) (Some (0, PI / 2)%R)
                     (Some (3 / 2)%R) ∅) fresh_world = Ok out
       ∧ out !! "J" = Some (VQuantity j)).
Proof.
  destruct (samplers_compute_currents ∅ fresh_world) as [Hcube Hload].
  assert (("compute_currents" ∉ dom (∅ : gmap string kwval))
          ∧ dom (∅ : gmap string kwval) ⊆ ({[ "batch_size"; "progress" ]} : gset string)
          ∧ (1 ≤ kw_batch_size ∅)%Z ∧ grad_enabled fresh_world = true) as Hacc.
  { split; [set_solver|]. split; [set_solver|]. split; [done|reflexivity]. }
  split.
  - destruct (Hcube demo_cartesian None None) as [Hany Hret].
    assert (cube_pixel_per_ds demo_cartesian None = Ok (1 / (1 / 4))%R) as Hppd.
    { simpl. unfold py_div. case_decide; [lra|done]. }
    destruct (Hret (0, 1)%R _ unit_cube eq_refl Hppd unit_cube_lattice)
      as (out & w' & Hrun); [discriminate | exact identity_model_shaped | exact Hacc|].
    destruct (Hany out w' Hrun) as (_ & zr & ppd & coords & mo & jq & j & H).
    destruct H as (_ & _ & _ & _ & _ & HJ & _).
    exists out, j. unfold outcome. rewrite Hrun. split; [done | exact HJ].
  - destruct (Hload demo_spherical None (Some (0, PI / 2)%R) (Some (0, PI / 2)%R)
                (Some (3 / 2)%R)) as [Hany Hret].
    destruct (Hret (0, PI / 2)%R octant_lattice eq_refl octant_load_lattice)
      as (out & w' & Hrun).
    { intros Hnil. pose proof octant_point_selected as Hsel.
      change (cells (masked_points (1, 2)%R (0, PI / 2)%R (0, PI / 2)%R octant_lattice)
              = []) in Hnil.
      rewrite Hnil in Hsel. by apply elem_of_nil in Hsel. }
    { exact identity_model_shaped. }
    { exact Hacc. }
    destruct (Hany out w' Hrun) as (_ & lonr & coords & mo & jq & j & H).
    destruct H as (_ & _ & _ & _ & HJ & _).
    exists out, j. unfold outcome. rewrite Hrun. split; [done | exact HJ].
Defined.


(* ===================================================================== *)
(** * The coverage mask and the requested window *)

Lemma is_wrap_self p y : (0 <= y < p)%R → is_wrap p y y.
Proof. intros Hy. split; [done|]. exists 0%Z. lra. Qed.

(** A range that spans a full period from 0 holds every angle. *)
Lemma wrapped_within_period p x : (0 < p)%R → wrapped_within p 0 p x.
Proof.
  intros Hp. pose proof (py_mod_wrap p x Hp) as Hx.
  exists (py_mod x p), (py_mod x p). destruct Hx as [Hy Hk].
  split; [done|]. split; [by apply is_wrap_self | by split].
Qed.

(** What the comparison of the wrapped values selects does lie within the
    requested range, when the range is given in order. *)
Lemma wrapped_within_of_mask p lo hi x :
  (0 < p)%R → (lo <= hi)%R →
  (py_mod lo p <= py_mod x p < py_mod hi p)%R → wrapped_within p lo hi x.
Proof.
  intros Hp Hle Hx.
  destruct (py_mod_wrap p lo Hp) as [Hl [k Hk]].
  destruct (py_mod_wrap p hi Hp) as [Hh [m Hm]].
  pose proof (py_mod_wrap p x Hp) as Hwx.
  set (wl := py_mod lo p) in *. set (wh := py_mod hi p) in *.
  set (wx := py_mod x p) in *. clearbody wl wh wx.
  assert (k ≤ m)%Z as Hkm.
  { destruct (decide (k ≤ m)%Z) as [|Hgt]; [done|].
    assert (IZR m + 1 <= IZR k)%R by (rewrite <-plus_IZR; apply IZR_le; lia).
    nra. }
  apply IZR_le in Hkm.
  exists (wx + IZR k * p)%R, wx. split; [unfold within; nra|].
  split; [|done]. split; [lra|]. by exists k.
Qed.

(** C4 (the code departs from the claim): a returning run of [load]
    evaluates exactly the lattice points its mask marks, and for a window
    given in order these do lie within the requested radius, latitude and
    longitude window.  But the mask compares the wrapped coordinate with
    the wrapped bounds, and an upper bound that is a full period wraps to
    0: with the latitude range (0, pi), the default of [load], every
    latitude lies within the requested range, yet the mask marks no point
    at all, and [load] raises without evaluating anything. *)
Theorem coverage_mask_window (self : SphericalOutput) rra lra lonr resa kwargs w :
  let rr := default (radius_range self) rra in
  let lr := default (0, PI)%R lra in
  (∀ out w', load self rra lra (Some lonr) resa kwargs w = (Ok out, w') →
     ∃ coords mo,
       load_lattice rr lr lonr (default 64%R resa) = Ok coords
       ∧ out !! "coords" = Some (VArray coords)
       ∧ load_coords_kw (sph_base self) (masked_points rr lr lonr coords) true kwargs w
         = (Ok mo, w')
       ∧ (∀ p, p ∈ cells (masked_points rr lr lonr coords)
               ↔ p ∈ cells coords
                 ∧ in_window rr lr lonr (cartesian_to_spherical p) = true)
       ∧ ((lr.1 <= lr.2)%R → (lonr.1 <= lonr.2)%R →
          ∀ p, p ∈ cells (masked_points rr lr lonr coords) →
               spec_in_window rr lr lonr (cartesian_to_spherical p)))
  ∧ (lr = (0, PI)%R →
     (∀ r t p, spec_in_window rr lr lonr (r, t, p)
               ↔ within rr.1 rr.2 r ∧ wrapped_within (2 * PI) lonr.1 lonr.2 p)
     ∧ (∀ sc, in_window rr lr lonr sc = false)
     ∧ ∃ e, load self rra lra (Some lonr) resa kwargs w = (Raise e, w)).
Proof.
  intros rr lr. pose proof PI_RGT_0 as Hpi. split.
  - intros out w' H.
    apply load_Ok in H as (lonr' & coords & [= <-] & Hlat & H). fold rr lr in Hlat, H.
    apply load_masked_Ok in H as (mo & sub_b & sub_j & b & j & Hkw & _ & _ & _ & _ & ->).
    exists coords, mo. split; [done|].
    split; [do 3 rewrite lookup_insert_ne by done; apply lookup_insert_eq|].
    split; [exact Hkw|]. split; [intros p; apply elem_of_masked_points|].
    intros Hlat_le Hlon_le p Hp. apply elem_of_masked_points in Hp as [_ Hp].
    destruct (cartesian_to_spherical p) as [[r t] ph].
    apply in_window_true in Hp as (Hr & Ht & Hph).
    split; [done|]. split; apply wrapped_within_of_mask; (done || lra).
  - intros Hlr.
    assert (∀ sc, in_window rr lr lonr sc = false) as Hmask.
    { intros sc. apply in_window_wrapped_empty. right. left. rewrite Hlr. cbn [fst snd].
      unfold wrap_lat. rewrite py_mod_period by lra.
      destruct (py_mod_nonneg 0 PI); lra. }
    split; [|split; [exact Hmask|]].
    + intros r t p. unfold spec_in_window. rewrite Hlr. cbn [fst snd]. split.
      * intros (Hr & _ & Hp). done.
      * intros (Hr & Hp). split; [done|]. split; [|done].
        apply wrapped_within_period. lra.
    + unfold load. cbn [from_option]. rewrite (bind_run _ _ w lonr w) by done.
      fold rr lr.
      destruct (load_lattice rr lr lonr (default 64%R resa)) as [coords|e] eqn:Hlat.
      * rewrite (bind_run _ _ w coords w) by done.
        apply load_masked_empty. apply Forall_forall. intros p _. apply Hmask.
      * exists e. unfold bind, lift. done.
Qed.

Lemma coverage_mask_window_witness :
  spec_in_window (1, 2)%R (0, PI)%R (0, 1)%R (cartesian_to_spherical (0, 0, 3 / 2)%R)
  ∧ in_window (1, 2)%R (0, PI)%R (0, 1)%R (cartesian_to_spherical (0, 0, 3 / 2)%R) = false
  ∧ ∃ e, load demo_spherical None None (Some (0, 1)%R) None ∅ fresh_world
         = (Raise e, fresh_world).
Proof.
  destruct (coverage_mask_window demo_spherical None None (0, 1)%R None ∅ fresh_world)
    as [_ Hgap].
  destruct (Hgap eq_refl) as (Hspec & Hmask & Hraise).
  split; [|split; [apply Hmask | exact Hraise]].
  rewrite cartesian_to_spherical_z_axis by lra. apply Hspec.
  pose proof PI_RGT_0 as Hpi.
  split; [unfold within; cbn; lra|].
  exists 0%R, 0%R. split; [unfold within; cbn; lra|].
  split; apply is_wrap_self; lra.
Defined.
